(** * Cache-empty notification dispatch: single-flight coordinator

    A shallow embedding of [internal/proxy]'s cache-empty handler
    ([CacheEmptyHandler.handle], [getOrCreateLock], [handleCacheEmpty],
    [NewCacheEmptyHandler]) and the properties of its dispatch function and
    of its per-channel deduplication.

    - The dispatch function is a state-passing function over a [World]
      (the backend behind the proxies, the record of transport calls, the log).
    - The coordinator is a small-step interleaving semantics: every goroutine
      that called the handler is a thread with a program point; one [Event]
      is one atomic action of one goroutine (or of the environment: time
      passing, a context being cancelled). *)

From stdpp Require Import gmap strings list fin_maps.
From Stdlib Require Import ZArith Lia.

(** ** Time *)

(** [time.Duration] is a count of nanoseconds. *)
Definition Duration := Z.
Definition Nanosecond : Duration := 1%Z.
Definition Microsecond : Duration := (1000 * Nanosecond)%Z.
Definition Millisecond : Duration := (1000 * Microsecond)%Z.
Definition Second : Duration := (1000 * Millisecond)%Z.

(** ** Values exchanged with the backend *)

(** Go's [error] interface; the nil error is [None] of [option error].
    [ContextCanceled] and [ContextDeadlineExceeded] are the two values
    [ctx.Err()] can return once a context is done. *)
Inductive error :=
  | ContextCanceled
  | ContextDeadlineExceeded
  | ErrorString (msg : string).

Global Instance error_eq_dec : EqDecision error.
Proof. solve_decision. Defined.

(** [ErrLockTimeout] is declared by the package (and used nowhere in it). *)
Definition ErrLockTimeout : error :=
  ErrorString "timeout waiting for cache empty lock".

(** Modelled from the spec: the [proxyproto] message types are not part of the
    sources at hand; a request carries the channel identifier, a response
    carries a pointer to a result holding the boolean "populated" flag. *)
Record NotifyCacheEmptyRequest := { Channel : string }.

(** Modelled from the spec: the result container of a response (see above). *)
Record NotifyCacheEmptyResult := { Populated : bool }.

(** Modelled from the spec: the response message; [Result] is a pointer field,
    [None] is the nil pointer. *)
Record NotifyCacheEmptyResponse := { Result : option NotifyCacheEmptyResult }.

Global Instance request_eq_dec : EqDecision NotifyCacheEmptyRequest.
Proof. solve_decision. Defined.
Global Instance result_eq_dec : EqDecision NotifyCacheEmptyResult.
Proof. solve_decision. Defined.
Global Instance response_eq_dec : EqDecision NotifyCacheEmptyResponse.
Proof. solve_decision. Defined.

(** A [context.Context] is identified by a number; whether it is done, and with
    which error, is part of the coordinator's state below. *)
Definition Context := nat.

(** How a call ends: it returns a (response pointer, error) pair, or it
    panics. *)
Inductive Outcome :=
  | Returns (resp : option NotifyCacheEmptyResponse) (err : option error)
  | Panics.

Global Instance Outcome_eq_dec : EqDecision Outcome.
Proof. solve_decision. Defined.

(** ** Log lines (zerolog events) *)

Inductive Level := WarnLevel | ErrorLevel.

Inductive Field :=
  | Str (key val : string)
  | Dur (key : string) (d : Duration)
  | Err (e : error).

Record LogEntry := { level : Level; fields : list Field; msg : string }.

Global Instance Level_eq_dec : EqDecision Level.
Proof. solve_decision. Defined.
Global Instance Field_eq_dec : EqDecision Field.
Proof. solve_decision. Defined.
Global Instance LogEntry_eq_dec : EqDecision LogEntry.
Proof. solve_decision. Defined.

Section Dispatch.

(** The application backend behind the proxies: whatever state decides its
    replies. A transport call is a function of that state. *)
Context {Backend : Type}.

(** The [CacheEmptyProxy] interface: a value of it is the method table of a
    non-nil interface value. *)
Record CacheEmptyProxy := {
  ProxyCacheEmpty :
    Context → NotifyCacheEmptyRequest → Backend → Outcome * Backend;
  Protocol : string;
  UseBase64 : bool;
  IncludeMeta : bool
}.

(** [map[string]CacheEmptyProxy]: a slot holding the nil interface is [None]. *)
Abbreviation Registry := (gmap string (option CacheEmptyProxy)).

(** What the dispatch function acts on: the backend, the transport calls made
    so far (proxy name, context, request), and the log, oldest first. *)
Record World := {
  backend : Backend;
  calls : list (string * Context * NotifyCacheEmptyRequest);
  logs : list LogEntry
}.

Definition add_log (e : LogEntry) (w : World) : World :=
  {| backend := backend w; calls := calls w; logs := logs w ++ [e] |}.

(** [log.Error().Str("proxy_name", name).Msg("cache empty proxy is nil")] *)
Definition log_nil_proxy (name : string) : LogEntry :=
  {| level := ErrorLevel;
     fields := [Str "proxy_name" name];
     msg := "cache empty proxy is nil" |}.

(** [log.Error().Err(err).Str("proxy_name", name).Str("channel", req.Channel)
      .Msg("error calling cache empty proxy")] *)
Definition log_proxy_error (e : error) (name channel : string) : LogEntry :=
  {| level := ErrorLevel;
     fields := [Err e; Str "proxy_name" name; Str "channel" channel];
     msg := "error calling cache empty proxy" |}.

(** [log.Warn().Str("channel", channel).Dur("timeout", h.lockTimeout)
      .Msg("timeout waiting for cache empty lock, making independent call")] *)
Definition log_lock_timeout (channel : string) (timeout : Duration) : LogEntry :=
  {| level := WarnLevel;
     fields := [Str "channel" channel; Dur "timeout" timeout];
     msg := "timeout waiting for cache empty lock, making independent call" |}.

(** ** Ranging over the registry

    Go leaves the iteration order of [range] over a map unspecified, and it
    may differ from one loop to the next. The order in which one execution of
    the loop meets the keys is therefore an input: any arrangement of the
    map's keys. *)
Definition range_order (proxies : Registry) (order : list string) : Prop :=
  order ≡ₚ (map_to_list proxies).*1.

Global Instance range_order_dec proxies order : Decision (range_order proxies order).
Proof. unfold range_order. apply _. Defined.

(** The (name, value) pairs the loop meets, in the given order. *)
Definition range_entries (proxies : Registry) (order : list string)
  : list (string * option CacheEmptyProxy) :=
  omap (λ name, pair name <$> proxies !! name) order.

(** ** The dispatch function *)

(** The body of the [for name, cacheEmptyProxy := range proxies] loop and the
    default after it, over the entries still to be met. *)
Fixpoint handleCacheEmpty_loop (ctx : Context) (req : NotifyCacheEmptyRequest)
    (entries : list (string * option CacheEmptyProxy)) (w : World)
  : Outcome * World :=
  match entries with
  | [] =>
      (Returns (Some {| Result := Some {| Populated := false |} |}) None, w)
  | (name, None) :: rest =>
      handleCacheEmpty_loop ctx req rest (add_log (log_nil_proxy name) w)
  | (name, Some p) :: _ =>
      let '(o, b) := ProxyCacheEmpty p ctx req (backend w) in
      let w1 := {| backend := b;
                   calls := calls w ++ [(name, ctx, req)];
                   logs := logs w |} in
      match o with
      | Returns _ (Some err) =>
          (Returns None (Some err),
           add_log (log_proxy_error err name (Channel req)) w1)
      | Returns resp None => (Returns resp None, w1)
      | Panics => (Panics, w1)
      end
  end.

Definition handleCacheEmpty (ctx : Context) (req : NotifyCacheEmptyRequest)
    (proxies : Registry) (order : list string) (w : World) : Outcome * World :=
  handleCacheEmpty_loop ctx req (range_entries proxies order) w.

(** What the caller of a usable proxy gets back from the dispatch. *)
Definition dispatch_result (o : Outcome) : Outcome :=
  match o with
  | Returns _ (Some err) => Returns None (Some err)
  | Returns resp None => Returns resp None
  | Panics => Panics
  end.

(** The lines the dispatch adds to the log after calling a usable proxy. *)
Definition error_line (o : Outcome) (name channel : string) : list LogEntry :=
  match o with
  | Returns _ (Some e) => [log_proxy_error e name channel]
  | _ => []
  end.

(** The log after the nil slots [nils] have been skipped. *)
Definition skip_nils (nils : list (string * option CacheEmptyProxy)) (w : World)
  : World :=
  {| backend := backend w; calls := calls w;
     logs := logs w ++ ((log_nil_proxy ∘ fst) <$> nils) |}.

(** The registry has no usable entry. *)
Definition no_usable (proxies : Registry) : Prop :=
  ∀ name v, proxies !! name = Some v → v = None.

(** The registry has at most one usable entry. *)
Definition at_most_one_usable (proxies : Registry) : Prop :=
  ∀ n1 n2 p1 p2,
    proxies !! n1 = Some (Some p1) → proxies !! n2 = Some (Some p2) → n1 = n2.

End Dispatch.

Arguments CacheEmptyProxy : clear implicits.
Arguments World : clear implicits.

(** ** The coordinator *)

(** A pointer to a [channelLock], and the identity of a goroutine. *)
Definition loc := nat.
Definition tid := nat.

(** [channelLock]: the shared result slots and the [done] channel, which is
    only ever closed, never sent on: [done = true] once it is closed. *)
Record channelLock := {
  result : option NotifyCacheEmptyResponse;
  err : option error;
  done : bool
}.

(** Which way a finished call left [handle]: the leader's [return] (or the
    panic of its dispatch, once the deferred function has run), the
    follower's [return] after [<-lock.done], after the independent call (or
    the panic of that call), after [<-ctx.Done()]. *)
Inductive Exit := ExitLeader | ExitShared | ExitFallback | ExitCanceled.

Global Instance Exit_eq_dec : EqDecision Exit.
Proof. solve_decision. Defined.

(** The program point of a goroutine inside [handle], with its locals. *)
Inductive PC :=
  | AtEntry (ctx : Context) (channel : string)
      (* about to run [getOrCreateLock] *)
  | AtDispatch (ctx : Context) (channel : string) (lock : loc)
      (* leader: about to run [lock.result, lock.err = handleCacheEmpty(..)] *)
  | AtDelete (ctx : Context) (channel : string) (lock : loc) (ret : Outcome)
      (* leader, deferred function: about to run [h.channelLocks.Delete] *)
  | AtClose (ctx : Context) (channel : string) (lock : loc) (ret : Outcome)
      (* leader, deferred function: about to run [close(lock.done)] *)
  | AtNewTimer (ctx : Context) (channel : string) (lock : loc)
      (* follower: about to run [time.NewTimer(h.lockTimeout)] *)
  | AtSelect (ctx : Context) (channel : string) (lock : loc) (deadline : Z)
      (* follower: blocked in [select] *)
  | AtFallback (ctx : Context) (channel : string) (lock : loc)
      (* follower: warning logged, about to make the independent call *)
  | Exited (via : Exit) (ctx : Context) (channel : string) (lock : loc)
      (ret : Outcome)
      (* the call is over *).

Global Instance PC_eq_dec : EqDecision PC.
Proof. solve_decision. Defined.

Section Coordinator.

Context {Backend : Type}.

Record CacheEmptyHandlerConfig := {
  Proxies : gmap string (option (CacheEmptyProxy Backend));
  LockTimeout : Duration
}.

(** The immutable part of [CacheEmptyHandler]; its [channelLocks] map is
    mutable and lives in the [State]. *)
Record CacheEmptyHandler := {
  proxies : gmap string (option (CacheEmptyProxy Backend));
  lockTimeout : Duration
}.

Definition NewCacheEmptyHandler (config : CacheEmptyHandlerConfig)
  : CacheEmptyHandler :=
  let lockTimeout := LockTimeout config in
  let lockTimeout :=
    if decide (lockTimeout = 0%Z) then (5 * Second)%Z else lockTimeout in
  {| proxies := Proxies config; lockTimeout := lockTimeout |}.

(** Everything the goroutines share, and the goroutines themselves.
    - [now]: the monotonic clock, in nanoseconds;
    - [ctxErr]: the contexts that are done, with what [ctx.Err()] returns;
    - [channelLocks]: the [sync.Map] of the handler;
    - [heap]: the [channelLock] objects allocated so far;
    - [dispatched]: which goroutine invoked [handleCacheEmpty], and with what
      request, oldest first (a record kept for the statements below). *)
Record State := {
  now : Z;
  ctxErr : gmap Context error;
  channelLocks : gmap string loc;
  heap : gmap loc channelLock;
  threads : gmap tid PC;
  world : World Backend;
  dispatched : list (tid * NotifyCacheEmptyRequest)
}.

Definition init (b : Backend) : State :=
  {| now := 0; ctxErr := ∅; channelLocks := ∅; heap := ∅; threads := ∅;
     world := {| backend := b; calls := []; logs := [] |};
     dispatched := [] |}.

Definition set_pc (t : tid) (pc : PC) (s : State) : State :=
  {| now := now s; ctxErr := ctxErr s; channelLocks := channelLocks s;
     heap := heap s; threads := <[t := pc]> (threads s); world := world s;
     dispatched := dispatched s |}.

Definition set_heap (hp : gmap loc channelLock) (s : State) : State :=
  {| now := now s; ctxErr := ctxErr s; channelLocks := channelLocks s;
     heap := hp; threads := threads s; world := world s;
     dispatched := dispatched s |}.

Definition set_channelLocks (m : gmap string loc) (s : State) : State :=
  {| now := now s; ctxErr := ctxErr s; channelLocks := m;
     heap := heap s; threads := threads s; world := world s;
     dispatched := dispatched s |}.

Definition set_world (w : World Backend) (s : State) : State :=
  {| now := now s; ctxErr := ctxErr s; channelLocks := channelLocks s;
     heap := heap s; threads := threads s; world := w;
     dispatched := dispatched s |}.

Definition record_dispatch (t : tid) (req : NotifyCacheEmptyRequest)
    (s : State) : State :=
  {| now := now s; ctxErr := ctxErr s; channelLocks := channelLocks s;
     heap := heap s; threads := threads s; world := world s;
     dispatched := dispatched s ++ [(t, req)] |}.

(** [sync.Map.LoadOrStore]: one atomic operation. *)
Definition LoadOrStore (m : gmap string loc) (key : string) (value : loc)
  : gmap string loc * loc * bool :=
  match m !! key with
  | Some actual => (m, actual, true)
  | None => (<[key := value]> m, value, false)
  end.

(** [getOrCreateLock]: allocate a fresh [channelLock] with an open [done]
    channel, then load-or-store it. *)
Definition getOrCreateLock (channel : string) (s : State) : State * loc * bool :=
  let newLock := fresh (dom (heap s)) in
  let s1 :=
    set_heap (<[newLock := {| result := None; err := None; done := false |}]>
                (heap s)) s in
  let '(m, actual, loaded) := LoadOrStore (channelLocks s1) channel newLock in
  (set_channelLocks m s1, actual, negb loaded).

(** One atomic action. The order argument of the two dispatching events is
    the order in which that execution of the [range] loop meets the keys.
    A dispatching event stands for one whole invocation of
    [handleCacheEmpty]: the goroutine invokes it, the proxy is called and
    answers, and the result is stored, in one step, which happens when the
    proxy has answered. What the other goroutines do while the proxy is busy
    comes before or after that step, and a proxy that does not answer is an
    execution in which the step does not happen. *)
Inductive Event :=
  | EvTick (d : Duration)
      (* time passes *)
  | EvCancel (ctx : Context) (e : error)
      (* the context becomes done (cancelled, or past its deadline) *)
  | EvHandle (t : tid) (ctx : Context) (channel : string)
      (* goroutine [t] calls the handler *)
  | EvGetOrCreateLock (t : tid)
  | EvLeaderDispatch (t : tid) (order : list string)
  | EvLeaderDelete (t : tid)
  | EvLeaderClose (t : tid)
  | EvNewTimer (t : tid)
  | EvSelectDone (t : tid)
  | EvSelectTimer (t : tid)
  | EvSelectCtx (t : tid)
  | EvFallbackDispatch (t : tid) (order : list string).

(** The goroutine an event belongs to, if any. *)
Definition actor (e : Event) : option tid :=
  match e with
  | EvTick _ | EvCancel _ _ => None
  | EvHandle t _ _ | EvGetOrCreateLock t | EvLeaderDispatch t _
  | EvLeaderDelete t | EvLeaderClose t | EvNewTimer t | EvSelectDone t
  | EvSelectTimer t | EvSelectCtx t | EvFallbackDispatch t _ => Some t
  end.

Definition is_ctx_error (e : error) : bool :=
  match e with
  | ContextCanceled | ContextDeadlineExceeded => true
  | ErrorString _ => false
  end.

(** [step h s e]: the state after event [e], or [None] when [e] cannot happen
    in [s]. *)
Definition step (h : CacheEmptyHandler) (s : State) (e : Event) : option State :=
  match e with
  | EvTick d =>
      if decide (0 ≤ d)%Z then
        Some {| now := (now s + d)%Z; ctxErr := ctxErr s;
                channelLocks := channelLocks s; heap := heap s;
                threads := threads s; world := world s;
                dispatched := dispatched s |}
      else None
  | EvCancel ctx e =>
      match ctxErr s !! ctx with
      | None =>
          if is_ctx_error e then
            Some {| now := now s; ctxErr := <[ctx := e]> (ctxErr s);
                    channelLocks := channelLocks s; heap := heap s;
                    threads := threads s; world := world s;
                    dispatched := dispatched s |}
          else None
      | Some _ => None
      end
  | EvHandle t ctx channel =>
      match threads s !! t with
      | None => Some (set_pc t (AtEntry ctx channel) s)
      | Some _ => None
      end
  | EvGetOrCreateLock t =>
      match threads s !! t with
      | Some (AtEntry ctx channel) =>
          let '(s1, lock, isFirstCall) := getOrCreateLock channel s in
          if isFirstCall then Some (set_pc t (AtDispatch ctx channel lock) s1)
          else Some (set_pc t (AtNewTimer ctx channel lock) s1)
      | _ => None
      end
  | EvLeaderDispatch t order =>
      match threads s !! t with
      | Some (AtDispatch ctx channel lock) =>
          if decide (range_order (proxies h) order) then
            let req := {| Channel := channel |} in
            let '(o, w) := handleCacheEmpty ctx req (proxies h) order (world s) in
            let s1 := record_dispatch t req (set_world w s) in
            match o with
            | Returns r e =>
                (* lock.result, lock.err = r, e; return lock.result, lock.err *)
                let hp :=
                  alter (λ lk, {| result := r; err := e; done := done lk |})
                        lock (heap s1) in
                lk ← hp !! lock;
                Some (set_pc t (AtDelete ctx channel lock
                                  (Returns (result lk) (err lk)))
                        (set_heap hp s1))
            | Panics => Some (set_pc t (AtDelete ctx channel lock Panics) s1)
            end
          else None
      | _ => None
      end
  | EvLeaderDelete t =>
      match threads s !! t with
      | Some (AtDelete ctx channel lock ret) =>
          Some (set_pc t (AtClose ctx channel lock ret)
                  (set_channelLocks (delete channel (channelLocks s)) s))
      | _ => None
      end
  | EvLeaderClose t =>
      match threads s !! t with
      | Some (AtClose ctx channel lock ret) =>
          lk ← heap s !! lock;
          if done lk then
            (* closing a closed channel panics *)
            Some (set_pc t (Exited ExitLeader ctx channel lock Panics) s)
          else
            Some (set_pc t (Exited ExitLeader ctx channel lock ret)
                    (set_heap (<[lock := {| result := result lk; err := err lk;
                                            done := true |}]> (heap s)) s))
      | _ => None
      end
  | EvNewTimer t =>
      match threads s !! t with
      | Some (AtNewTimer ctx channel lock) =>
          Some (set_pc t (AtSelect ctx channel lock (now s + lockTimeout h)%Z) s)
      | _ => None
      end
  | EvSelectDone t =>
      match threads s !! t with
      | Some (AtSelect ctx channel lock deadline) =>
          lk ← heap s !! lock;
          if done lk then
            Some (set_pc t (Exited ExitShared ctx channel lock
                              (Returns (result lk) (err lk))) s)
          else None
      | _ => None
      end
  | EvSelectTimer t =>
      match threads s !! t with
      | Some (AtSelect ctx channel lock deadline) =>
          if decide (deadline ≤ now s)%Z then
            Some (set_pc t (AtFallback ctx channel lock)
                    (set_world
                       (add_log (log_lock_timeout channel (lockTimeout h))
                                (world s)) s))
          else None
      | _ => None
      end
  | EvSelectCtx t =>
      match threads s !! t with
      | Some (AtSelect ctx channel lock deadline) =>
          e ← ctxErr s !! ctx;
          Some (set_pc t (Exited ExitCanceled ctx channel lock
                            (Returns None (Some e))) s)
      | _ => None
      end
  | EvFallbackDispatch t order =>
      match threads s !! t with
      | Some (AtFallback ctx channel lock) =>
          if decide (range_order (proxies h) order) then
            let req := {| Channel := channel |} in
            let '(o, w) := handleCacheEmpty ctx req (proxies h) order (world s) in
            Some (set_pc t (Exited ExitFallback ctx channel lock o)
                    (record_dispatch t req (set_world w s)))
          else None
      | _ => None
      end
  end.

(** An execution: the events happen one after the other. *)
Fixpoint run (h : CacheEmptyHandler) (s : State) (evs : list Event)
  : option State :=
  match evs with
  | [] => Some s
  | e :: evs => s1 ← step h s e; run h s1 evs
  end.

End Coordinator.

Arguments CacheEmptyHandlerConfig : clear implicits.
Arguments CacheEmptyHandler : clear implicits.
Arguments State : clear implicits.


(** ** Reading a program point *)

Definition pc_channel (pc : PC) : string :=
  match pc with
  | AtEntry _ c | AtDispatch _ c _ | AtDelete _ c _ _ | AtClose _ c _ _
  | AtNewTimer _ c _ | AtSelect _ c _ _ | AtFallback _ c _
  | Exited _ _ c _ _ => c
  end.

Definition pc_ctx (pc : PC) : Context :=
  match pc with
  | AtEntry x _ | AtDispatch x _ _ | AtDelete x _ _ _ | AtClose x _ _ _
  | AtNewTimer x _ _ | AtSelect x _ _ _ | AtFallback x _ _
  | Exited _ x _ _ _ => x
  end.

(** The lock a call is the leader of: it observed "I installed it". *)
Definition leader_of (pc : PC) : option loc :=
  match pc with
  | AtDispatch _ _ l | AtDelete _ _ l _ | AtClose _ _ l _
  | Exited ExitLeader _ _ l _ => Some l
  | _ => None
  end.

(** The lock a call is a follower of: it observed "one already existed". *)
Definition follower_of (pc : PC) : option loc :=
  match pc with
  | AtNewTimer _ _ l | AtSelect _ _ l _ | AtFallback _ _ l
  | Exited ExitShared _ _ l _ | Exited ExitFallback _ _ l _
  | Exited ExitCanceled _ _ l _ => Some l
  | _ => None
  end.

(** The map entry a leader still has to remove. *)
Definition entry_of (pc : PC) : option (string * loc) :=
  match pc with
  | AtDispatch _ c l | AtDelete _ c l _ => Some (c, l)
  | _ => None
  end.

(** The call has invoked [handleCacheEmpty]. *)
Definition post_dispatch (pc : PC) : bool :=
  match pc with
  | AtDelete _ _ _ _ | AtClose _ _ _ _ | Exited ExitLeader _ _ _ _
  | Exited ExitFallback _ _ _ _ => true
  | _ => false
  end.

(** What a call returned, once it is over and did not panic. *)
Definition returned (pc : PC) : option (option NotifyCacheEmptyResponse * option error) :=
  match pc with
  | Exited _ _ _ _ (Returns r e) => Some (r, e)
  | _ => None
  end.

(** The content of a leader's lock, from where the leader is: empty before
    the dispatch, the stored pair after it (nothing is stored when the
    dispatch panicked), closed once the leader is gone. *)
Definition stored (ret : Outcome) (closed : bool) : channelLock :=
  match ret with
  | Returns r e => {| result := r; err := e; done := closed |}
  | Panics => {| result := None; err := None; done := closed |}
  end.

Definition expected_lock (pc : PC) : option channelLock :=
  match pc with
  | AtDispatch _ _ _ => Some {| result := None; err := None; done := false |}
  | AtDelete _ _ _ ret | AtClose _ _ _ ret => Some (stored ret false)
  | Exited ExitLeader _ _ _ ret => Some (stored ret true)
  | _ => None
  end.

(** ** Invariants of the coordinator *)

Section Invariants.

Context {Backend : Type}.

Implicit Types (s : State Backend) (h : CacheEmptyHandler Backend).

(** The registry has a usable entry. *)
Definition has_usable (proxies : gmap string (option (CacheEmptyProxy Backend)))
  : Prop :=
  ∃ name p, proxies !! name = Some (Some p).

(** How the map, the locks and the calls in progress hang together. *)
Record lock_inv s : Prop := {
  (* an entry of the map belongs to a leader that has yet to remove it *)
  inv_entry_owner : ∀ c l,
    channelLocks s !! c = Some l →
    ∃ t pc, threads s !! t = Some pc ∧ entry_of pc = Some (c, l);
  (* and a leader that has yet to remove its entry finds it in the map *)
  inv_entry_present : ∀ t pc c l,
    threads s !! t = Some pc → entry_of pc = Some (c, l) →
    channelLocks s !! c = Some l;
  (* a lock has one leader *)
  inv_leader_unique : ∀ t1 t2 pc1 pc2 l,
    threads s !! t1 = Some pc1 → threads s !! t2 = Some pc2 →
    leader_of pc1 = Some l → leader_of pc2 = Some l → t1 = t2;
  (* the lock of a leader holds what the leader has done so far *)
  inv_leader_lock : ∀ t pc l,
    threads s !! t = Some pc → leader_of pc = Some l →
    heap s !! l = expected_lock pc;
  (* the lock a follower was handed has a leader, for the same channel *)
  inv_follower_leader : ∀ t pc l,
    threads s !! t = Some pc → follower_of pc = Some l →
    ∃ t0 pc0, threads s !! t0 = Some pc0 ∧ leader_of pc0 = Some l
              ∧ pc_channel pc0 = pc_channel pc;
  (* a follower woken by the completion signal returned the lock's content *)
  inv_shared : ∀ t ctx c l ret,
    threads s !! t = Some (Exited ExitShared ctx c l ret) →
    ∃ lk, heap s !! l = Some lk ∧ done lk = true
          ∧ ret = Returns (result lk) (err lk)
}.

(** The record of dispatches against the calls in progress and the record of
    transport calls. *)
Record dispatch_inv h s : Prop := {
  inv_disp_nodup : NoDup (dispatched s).*1;
  inv_disp_threads : ∀ t,
    t ∈ (dispatched s).*1
    ↔ ∃ pc, threads s !! t = Some pc ∧ post_dispatch pc = true;
  inv_disp_req : ∀ t req,
    (t, req) ∈ dispatched s →
    ∃ pc, threads s !! t = Some pc ∧ req = {| Channel := pc_channel pc |};
  inv_calls_usable :
    has_usable (proxies h) → (calls (world s)).*2 = (dispatched s).*2;
  inv_calls_none :
    no_usable (proxies h) → calls (world s) = []
}.

End Invariants.

(** ** The steps, case by case

    The same semantics as [step], as a relation with one rule per way an
    event can happen; [step_sound] and [step_complete] below show the two
    agree. *)

Definition empty_lock : channelLock :=
  {| result := None; err := None; done := false |}.

Section StepRules.

Context {Backend : Type}.

Implicit Types (s : State Backend) (h : CacheEmptyHandler Backend).

Inductive step_spec h s : Event → State Backend → Prop :=
  | SpecTick d :
      (0 ≤ d)%Z →
      step_spec h s (EvTick d)
        {| now := (now s + d)%Z; ctxErr := ctxErr s;
           channelLocks := channelLocks s; heap := heap s;
           threads := threads s; world := world s;
           dispatched := dispatched s |}
  | SpecCancel ctx e :
      ctxErr s !! ctx = None → is_ctx_error e = true →
      step_spec h s (EvCancel ctx e)
        {| now := now s; ctxErr := <[ctx := e]> (ctxErr s);
           channelLocks := channelLocks s; heap := heap s;
           threads := threads s; world := world s;
           dispatched := dispatched s |}
  | SpecHandle t ctx c :
      threads s !! t = None →
      step_spec h s (EvHandle t ctx c) (set_pc t (AtEntry ctx c) s)
  | SpecInstall t ctx c :
      threads s !! t = Some (AtEntry ctx c) →
      channelLocks s !! c = None →
      step_spec h s (EvGetOrCreateLock t)
        (set_pc t (AtDispatch ctx c (fresh (dom (heap s))))
           (set_channelLocks (<[c := fresh (dom (heap s))]> (channelLocks s))
              (set_heap (<[fresh (dom (heap s)) := empty_lock]> (heap s)) s)))
  | SpecJoin t ctx c l :
      threads s !! t = Some (AtEntry ctx c) →
      channelLocks s !! c = Some l →
      step_spec h s (EvGetOrCreateLock t)
        (set_pc t (AtNewTimer ctx c l)
           (set_heap (<[fresh (dom (heap s)) := empty_lock]> (heap s)) s))
  | SpecLeaderReturns t order ctx c l r e w lk :
      threads s !! t = Some (AtDispatch ctx c l) →
      range_order (proxies h) order →
      handleCacheEmpty ctx {| Channel := c |} (proxies h) order (world s)
        = (Returns r e, w) →
      heap s !! l = Some lk →
      step_spec h s (EvLeaderDispatch t order)
        (set_pc t (AtDelete ctx c l (Returns r e))
           (set_heap (<[l := {| result := r; err := e; done := done lk |}]>
                        (heap s))
              (record_dispatch t {| Channel := c |} (set_world w s))))
  | SpecLeaderPanics t order ctx c l w :
      threads s !! t = Some (AtDispatch ctx c l) →
      range_order (proxies h) order →
      handleCacheEmpty ctx {| Channel := c |} (proxies h) order (world s)
        = (Panics, w) →
      step_spec h s (EvLeaderDispatch t order)
        (set_pc t (AtDelete ctx c l Panics)
           (record_dispatch t {| Channel := c |} (set_world w s)))
  | SpecLeaderDelete t ctx c l ret :
      threads s !! t = Some (AtDelete ctx c l ret) →
      step_spec h s (EvLeaderDelete t)
        (set_pc t (AtClose ctx c l ret)
           (set_channelLocks (delete c (channelLocks s)) s))
  | SpecLeaderClose t ctx c l ret lk :
      threads s !! t = Some (AtClose ctx c l ret) →
      heap s !! l = Some lk → done lk = false →
      step_spec h s (EvLeaderClose t)
        (set_pc t (Exited ExitLeader ctx c l ret)
           (set_heap (<[l := {| result := result lk; err := err lk;
                                done := true |}]> (heap s)) s))
  | SpecLeaderCloseClosed t ctx c l ret lk :
      threads s !! t = Some (AtClose ctx c l ret) →
      heap s !! l = Some lk → done lk = true →
      step_spec h s (EvLeaderClose t)
        (set_pc t (Exited ExitLeader ctx c l Panics) s)
  | SpecNewTimer t ctx c l :
      threads s !! t = Some (AtNewTimer ctx c l) →
      step_spec h s (EvNewTimer t)
        (set_pc t (AtSelect ctx c l (now s + lockTimeout h)%Z) s)
  | SpecSelectDone t ctx c l d lk :
      threads s !! t = Some (AtSelect ctx c l d) →
      heap s !! l = Some lk → done lk = true →
      step_spec h s (EvSelectDone t)
        (set_pc t (Exited ExitShared ctx c l (Returns (result lk) (err lk))) s)
  | SpecSelectTimer t ctx c l d :
      threads s !! t = Some (AtSelect ctx c l d) →
      (d ≤ now s)%Z →
      step_spec h s (EvSelectTimer t)
        (set_pc t (AtFallback ctx c l)
           (set_world (add_log (log_lock_timeout c (lockTimeout h)) (world s))
              s))
  | SpecSelectCtx t ctx c l d e :
      threads s !! t = Some (AtSelect ctx c l d) →
      ctxErr s !! ctx = Some e →
      step_spec h s (EvSelectCtx t)
        (set_pc t (Exited ExitCanceled ctx c l (Returns None (Some e))) s)
  | SpecFallback t order ctx c l o w :
      threads s !! t = Some (AtFallback ctx c l) →
      range_order (proxies h) order →
      handleCacheEmpty ctx {| Channel := c |} (proxies h) order (world s)
        = (o, w) →
      step_spec h s (EvFallbackDispatch t order)
        (set_pc t (Exited ExitFallback ctx c l o)
           (record_dispatch t {| Channel := c |} (set_world w s))).

End StepRules.

(** ** Calls for one channel *)

(** The lock a call was handed by [getOrCreateLock], as leader or follower. *)
Definition pc_lock (pc : PC) : option loc :=
  match pc with
  | AtEntry _ _ => None
  | AtDispatch _ _ l | AtDelete _ _ l _ | AtClose _ _ l _ | AtNewTimer _ _ l
  | AtSelect _ _ l _ | AtFallback _ _ l | Exited _ _ _ l _ => Some l
  end.

Definition requests_for (c : string) (reqs : list NotifyCacheEmptyRequest)
  : list NotifyCacheEmptyRequest :=
  filter (λ r, Channel r = c) reqs.

Section PerChannel.

Context {Backend : Type}.

Implicit Types (s : State Backend).

(** The invocations of [handleCacheEmpty] for channel [c] so far. *)
Definition dispatches_for (c : string) s : list NotifyCacheEmptyRequest :=
  requests_for c (dispatched s).*2.

(** The transport calls for channel [c] so far. *)
Definition transport_calls_for (c : string) s : list NotifyCacheEmptyRequest :=
  requests_for c (calls (world s)).*2.

(** The completion signal of lock [l] has fired: its [done] channel is
    closed. *)
Definition signalled s (l : loc) : bool :=
  match heap s !! l with
  | Some lk => done lk
  | None => false
  end.

(** The call is over. *)
Definition exited (pc : PC) : bool :=
  match pc with
  | Exited _ _ _ _ _ => true
  | _ => false
  end.

(** How the program point of one call can change along an execution: the
    channel and the context stay, a call that is over stays as it is, a
    leader stays the leader of its lock. *)
Definition evolves (pc pc' : PC) : Prop :=
  pc_channel pc' = pc_channel pc
  ∧ pc_ctx pc' = pc_ctx pc
  ∧ (exited pc = true → pc' = pc)
  ∧ (∀ l, leader_of pc = Some l → leader_of pc' = Some l).

(** No call for [c] is in progress. *)
Definition idle (c : string) s : Prop :=
  ∀ t pc, threads s !! t = Some pc → pc_channel pc = c → exited pc = true.

(** [t], now at [pc], is a call for [c] made after state [s0]. *)
Definition new_call (c : string) s0 s (t : tid) (pc : PC) : Prop :=
  threads s0 !! t = None ∧ threads s !! t = Some pc ∧ pc_channel pc = c.

(** Every call for [c] made after [s0] that has been handed a lock holds the
    lock that is in the map under [c] now. *)
Definition hold_current (c : string) s0 s : Prop :=
  ∀ t pc l, new_call c s0 s t pc → pc_lock pc = Some l →
            channelLocks s !! c = Some l.

(** Every call for [c] made after [s0] that has been handed a lock holds
    [l]. *)
Definition hold_lock (c : string) s0 (l : loc) s : Prop :=
  ∀ t pc l', new_call c s0 s t pc → pc_lock pc = Some l' → l' = l.

(** The calls for [c] in state [s] take no step [ev t] in [evs]. *)
Definition none_by (c : string) s (ev : tid → Event) (evs : list Event) : Prop :=
  ∀ t pc, threads s !! t = Some pc → pc_channel pc = c → ev t ∉ evs.

(** Since [s0] the clock has not advanced by the lock-wait timeout, and the
    context of no call for [c] made since is done. *)
Definition quiet (h : CacheEmptyHandler Backend) (c : string) s0 s : Prop :=
  (now s < now s0 + lockTimeout h)%Z
  ∧ ∀ t pc, new_call c s0 s t pc → ctxErr s !! pc_ctx pc = None.

(** What timers the calls for [c] made after [s0] have set, and that none of
    them has taken the timeout or the cancellation branch. *)
Record timer_inv (h : CacheEmptyHandler Backend) (c : string) s0 s : Prop := {
  inv_now : (now s0 ≤ now s)%Z;
  inv_deadline : ∀ t ctx c' l d,
    new_call c s0 s t (AtSelect ctx c' l d) →
    (now s0 + lockTimeout h ≤ d)%Z;
  inv_no_fallback : ∀ t pc,
    new_call c s0 s t pc →
    match pc with
    | AtFallback _ _ _ | Exited ExitFallback _ _ _ _
    | Exited ExitCanceled _ _ _ _ => False
    | _ => True
    end
}.

End PerChannel.

Global Instance Event_eq_dec : EqDecision Event.
Proof. solve_decision. Defined.

(** ** A test setup

    The setup of the package's tests: one proxy registered under "test". The
    backend behind it counts the calls it has served and answers "populated"
    on every other call, starting with the first: two calls are two different
    answers. *)

Definition populated (b : bool) : NotifyCacheEmptyResponse :=
  {| Result := Some {| Populated := b |} |}.

Definition counting_proxy : CacheEmptyProxy nat :=
  {| ProxyCacheEmpty := λ _ _ n, (Returns (Some (populated (Nat.even n))) None, S n);
     Protocol := "http";
     UseBase64 := false;
     IncludeMeta := false |}.

(** A backend that fails every call. *)
Definition failing_proxy : CacheEmptyProxy nat :=
  {| ProxyCacheEmpty :=
       λ _ _ n, (Returns None (Some (ErrorString "backend down")), S n);
     Protocol := "grpc";
     UseBase64 := false;
     IncludeMeta := false |}.

Definition test_config : CacheEmptyHandlerConfig nat :=
  {| Proxies := {[ "test" := Some counting_proxy ]}; LockTimeout := 0%Z |}.

Definition test_handler : CacheEmptyHandler nat :=
  NewCacheEmptyHandler test_config.

(** A registry in a pending configuration state: a nil slot and a usable
    one. *)
Definition mixed_registry : gmap string (option (CacheEmptyProxy nat)) :=
  {[ "a" := None; "b" := Some counting_proxy ]}.

(** A registry with two usable entries. *)
Definition double_registry : gmap string (option (CacheEmptyProxy nat)) :=
  {[ "a" := Some counting_proxy; "b" := Some failing_proxy ]}.

(** A registry with a nil slot only. *)
Definition nil_registry : gmap string (option (CacheEmptyProxy nat)) :=
  {[ "broken" := None ]}.

Definition test_request : NotifyCacheEmptyRequest :=
  {| Channel := "test:channel" |}.

Definition world0 : World nat := {| backend := 0; calls := []; logs := [] |}.

(** Two calls for one channel, both issued at the start; the second runs its
    load-or-store right after the first, the leader, has removed the entry
    (and before the leader has even opened the completion signal). No time
    passes at all. *)
Definition two_calls_straddle : list Event :=
  [ EvHandle 0 0 "test:channel"; EvHandle 1 0 "test:channel";
    EvGetOrCreateLock 0; EvLeaderDispatch 0 ["test"]; EvLeaderDelete 0;
    EvGetOrCreateLock 1 ].

Definition two_calls_finish : list Event :=
  [ EvLeaderDispatch 1 ["test"]; EvLeaderClose 0; EvLeaderDelete 1;
    EvLeaderClose 1 ].

(** After those two: three more calls for the same channel, all in before
    their leader's dispatch returns; then the leader cleans up and the
    followers wake. *)
Definition three_calls_arrive : list Event :=
  [ EvHandle 2 0 "test:channel"; EvHandle 3 0 "test:channel";
    EvHandle 4 0 "test:channel";
    EvGetOrCreateLock 3; EvGetOrCreateLock 2; EvGetOrCreateLock 4;
    EvNewTimer 2; EvTick (100 * Millisecond)%Z;
    EvLeaderDispatch 3 ["test"] ].

Definition three_calls_finish : list Event :=
  [ EvNewTimer 4; EvLeaderDelete 3; EvLeaderClose 3;
    EvSelectDone 4; EvSelectDone 2 ].

(** A follower waits past the lock-wait timeout while its leader hangs. *)
Definition follower_waits_too_long : list Event :=
  [ EvHandle 0 0 "test:channel"; EvGetOrCreateLock 0;
    EvTick (100 * Millisecond)%Z;
    EvHandle 1 1 "test:channel"; EvGetOrCreateLock 1; EvNewTimer 1;
    EvTick (5 * Second)%Z ].

(** A follower's context is cancelled while it waits. *)
Definition follower_is_cancelled : list Event :=
  [ EvHandle 0 0 "test:channel"; EvGetOrCreateLock 0;
    EvHandle 1 1 "test:channel"; EvGetOrCreateLock 1; EvNewTimer 1;
    EvTick Second; EvCancel 1 ContextCanceled ].

(** The states these executions end in. *)
Definition two_calls_mid : State nat :=
  Eval vm_compute in
    default (init 0) (run test_handler (init 0) two_calls_straddle).

Definition two_calls_end : State nat :=
  Eval vm_compute in
    default (init 0)
      (run test_handler (init 0) (two_calls_straddle ++ two_calls_finish)).

Definition waiting_too_long : State nat :=
  Eval vm_compute in
    default (init 0) (run test_handler (init 0) follower_waits_too_long).

Definition cancelled_waiting : State nat :=
  Eval vm_compute in
    default (init 0) (run test_handler (init 0) follower_is_cancelled).

Definition three_calls_mid : State nat :=
  Eval vm_compute in
    default (init 0) (run test_handler two_calls_end three_calls_arrive).

Definition three_calls_end : State nat :=
  Eval vm_compute in
    default (init 0)
      (run test_handler two_calls_end
         (three_calls_arrive ++ three_calls_finish)).

(** ** The length of a call *)

(** How many steps a call at most still has to take before it is over. *)
Definition steps_left (pc : PC) : nat :=
  match pc with
  | AtEntry _ _ => 4
  | AtDispatch _ _ _ | AtNewTimer _ _ _ => 3
  | AtDelete _ _ _ _ | AtSelect _ _ _ _ => 2
  | AtClose _ _ _ _ | AtFallback _ _ _ => 1
  | Exited _ _ _ _ _ => 0
  end.

(** The outcome a call carries from its dispatch on, if it has one yet. *)
Definition outcome_of (pc : PC) : option Outcome :=
  match pc with
  | AtDelete _ _ _ ret | AtClose _ _ _ ret | Exited _ _ _ _ ret => Some ret
  | _ => None
  end.

Section Provenance.

Context {Backend : Type}.

(** No proxy of the registry ever answers with the error [e0]. *)
Definition never_answers
    (proxies : gmap string (option (CacheEmptyProxy Backend))) (e0 : error)
  : Prop :=
  ∀ name p ctx req b r,
    proxies !! name = Some (Some p) →
    (ProxyCacheEmpty p ctx req b).1 ≠ Returns r (Some e0).

(** The error [e0] is nowhere: not on a lock, not in the outcome of a call,
    and the errors of the contexts that are done are context errors. *)
Record error_free (e0 : error) (s : State Backend) : Prop := {
  free_locks : ∀ l lk, heap s !! l = Some lk → err lk ≠ Some e0;
  free_calls : ∀ t pc r,
    threads s !! t = Some pc → outcome_of pc ≠ Some (Returns r (Some e0));
  free_ctx : ∀ ctx e, ctxErr s !! ctx = Some e → is_ctx_error e = true
}.

End Provenance.

(** ** The HTTP binding *)

Section HTTPBinding.

(** The application backend, and the two representations the binding leaves
    to the rest of the package: header sets and status-to-code transforms. *)
Context {Backend Headers Transform : Type}.

(** Modelled from the spec: the [Config] type is not part of the sources at
    hand; these are the fields the two bindings read: the endpoint address,
    the call timeout, the binary-encoding and connection-metadata flags, and
    the HTTP status-to-code transform table. *)
Record HTTPOptions := { StatusToCodeTransforms : list Transform }.

(** Modelled from the spec: the proxy configuration (see above). *)
Record Config := {
  Endpoint : string;
  Timeout : Duration;
  BinaryEncoding : bool;
  IncludeConnectionMeta : bool;
  HTTP : HTTPOptions
}.

(** One HTTP request as [CallHTTP] is asked to make it. *)
Record HTTPRequest := {
  url : string;
  headers : Headers;
  body : list Byte.byte
}.

(** The backend together with the requests [CallHTTP] has been asked to make,
    oldest first (a record kept for the statements below). *)
Record Wire := { remote : Backend; sent : list HTTPRequest }.

(** The [HTTPCaller] interface. *)
Record HTTPCaller := {
  CallHTTP :
    Context → string → Headers → list Byte.byte → Backend →
    (list Byte.byte * option error) * Backend
}.

(** The helpers of the package the binding calls, which are not part of the
    sources at hand: the JSON encoder and decoder, the builder of the request
    headers and the transform of a failed call. *)
Record HTTPHelpers := {
  EncodeNotifyCacheEmptyRequest :
    NotifyCacheEmptyRequest → list Byte.byte * option error;
  DecodeNotifyCacheEmptyResponse :
    list Byte.byte → option NotifyCacheEmptyResponse * option error;
  httpRequestHeaders : Context → Config → Headers;
  transformCacheEmptyResponse :
    error → list Transform → option NotifyCacheEmptyResponse * option error
}.

Record HTTPCacheEmptyProxy := { config : Config; httpCaller : HTTPCaller }.

(** The method [ProxyCacheEmpty] of [HTTPCacheEmptyProxy]. *)
Definition HTTP_ProxyCacheEmpty (k : HTTPHelpers) (p : HTTPCacheEmptyProxy)
    (ctx : Context) (req : NotifyCacheEmptyRequest) (wire : Wire)
  : Outcome * Wire :=
  let '(data, err) := EncodeNotifyCacheEmptyRequest k req in
  match err with
  | Some e => (Returns None (Some e), wire)
  | None =>
      let hs := httpRequestHeaders k ctx (config p) in
      let '((respData, err), b) :=
        CallHTTP (httpCaller p) ctx (Endpoint (config p)) hs data
          (remote wire) in
      let wire1 :=
        {| remote := b;
           sent := sent wire ++ [{| url := Endpoint (config p);
                                    headers := hs; body := data |}] |} in
      match err with
      | Some e =>
          let '(resp, err) :=
            transformCacheEmptyResponse k e
              (StatusToCodeTransforms (HTTP (config p))) in
          (Returns resp err, wire1)
      | None =>
          let '(resp, err) := DecodeNotifyCacheEmptyResponse k respData in
          (Returns resp err, wire1)
      end
  end.

(** An [HTTPCacheEmptyProxy] as a value of the [CacheEmptyProxy]
    interface, with its three other methods. *)
Definition HTTP_interface (k : HTTPHelpers) (p : HTTPCacheEmptyProxy)
  : CacheEmptyProxy Wire :=
  {| ProxyCacheEmpty := HTTP_ProxyCacheEmpty k p;
     Protocol := "http";
     UseBase64 := BinaryEncoding (config p);
     IncludeMeta := IncludeConnectionMeta (config p) |}.

(** Every usable entry of the registry is an HTTP proxy. *)
Definition http_registry (k : HTTPHelpers)
    (proxies : gmap string (option (CacheEmptyProxy Wire))) : Prop :=
  ∀ name p, proxies !! name = Some (Some p) → ∃ hp, p = HTTP_interface k hp.

(** The request the proxy [hp] makes for a call with context [ctx] and
    request [req], when the request can be encoded. *)
Definition http_request (k : HTTPHelpers) (hp : HTTPCacheEmptyProxy)
    (ctx : Context) (req : NotifyCacheEmptyRequest) : option HTTPRequest :=
  match EncodeNotifyCacheEmptyRequest k req with
  | (data, None) =>
      Some {| url := Endpoint (config hp);
              headers := httpRequestHeaders k ctx (config hp);
              body := data |}
  | (_, Some _) => None
  end.

(** The HTTP requests against the transport calls on record: at most one
    request per call, and each request is the one a registered proxy makes
    for a transport call on record, with the context and the request of that
    call. *)
Record wire_inv (k : HTTPHelpers)
    (proxies : gmap string (option (CacheEmptyProxy Wire))) (w : World Wire)
  : Prop := {
  wire_bound : length (sent (backend w)) ≤ length (calls w);
  wire_requests : ∀ r,
    r ∈ sent (backend w) →
    ∃ name hp ctx req,
      (name, ctx, req) ∈ calls w
      ∧ proxies !! name = Some (Some (HTTP_interface k hp))
      ∧ http_request k hp ctx req = Some r
}.

End HTTPBinding.

Arguments HTTPOptions : clear implicits.
Arguments Config : clear implicits.
Arguments HTTPRequest : clear implicits.
Arguments Wire : clear implicits.
Arguments HTTPCaller : clear implicits.
Arguments HTTPHelpers : clear implicits.
Arguments HTTPCacheEmptyProxy : clear implicits.

(** ** The gRPC binding *)

Section GRPCBinding.

(** The application backend, the representation of status-to-code transforms
    (a part of [Config]), and the context a remote call is made under, with
    the metadata [grpcRequestContext] attaches. *)
Context {Backend Transform CallContext : Type}.

(** [context.WithTimeout(ctx, d)]: a context derived from [parent] that is
    done [timeout] after it was made, at the latest. *)
Record DerivedContext := { parent : Context; timeout : Duration }.

(** One remote call as the client is asked to make it. *)
Record RemoteCall := {
  call_context : CallContext;
  call_request : NotifyCacheEmptyRequest
}.

(** The backend together with the remote calls the client has been asked to
    make, oldest first (a record kept for the statements below). *)
Record Link := { peer : Backend; remote_calls : list RemoteCall }.

(** The one method of [proxyproto.CentrifugoProxyClient] the binding uses. *)
Record CentrifugoProxyClient := {
  NotifyCacheEmpty :
    CallContext → NotifyCacheEmptyRequest → Backend → Outcome * Backend
}.

Record GRPCCacheEmptyProxy := {
  grpc_config : Config Transform;
  client : CentrifugoProxyClient
}.

(** The method [ProxyCacheEmpty] of [GRPCCacheEmptyProxy]; the helper
    [grpcRequestContext] is not part of the sources at hand. (The deferred
    [cancel] releases the derived context when the call is over.) *)
Definition GRPC_ProxyCacheEmpty
    (grpcRequestContext : DerivedContext → Config Transform → CallContext)
    (p : GRPCCacheEmptyProxy)
    (ctx : Context) (req : NotifyCacheEmptyRequest) (link : Link)
  : Outcome * Link :=
  let ctx1 := {| parent := ctx; timeout := Timeout (grpc_config p) |} in
  let cctx := grpcRequestContext ctx1 (grpc_config p) in
  let '(o, b) := NotifyCacheEmpty (client p) cctx req (peer link) in
  (o, {| peer := b;
         remote_calls :=
           remote_calls link
             ++ [{| call_context := cctx; call_request := req |}] |}).

(** A [GRPCCacheEmptyProxy] as a value of the [CacheEmptyProxy] interface,
    with its three other methods. *)
Definition GRPC_interface
    (grpcRequestContext : DerivedContext → Config Transform → CallContext)
    (p : GRPCCacheEmptyProxy) : CacheEmptyProxy Link :=
  {| ProxyCacheEmpty := GRPC_ProxyCacheEmpty grpcRequestContext p;
     Protocol := "grpc";
     UseBase64 := BinaryEncoding (grpc_config p);
     IncludeMeta := IncludeConnectionMeta (grpc_config p) |}.

(** Every usable entry of the registry is a gRPC proxy. *)
Definition grpc_registry
    (grpcRequestContext : DerivedContext → Config Transform → CallContext)
    (proxies : gmap string (option (CacheEmptyProxy Link))) : Prop :=
  ∀ name p, proxies !! name = Some (Some p) →
            ∃ gp, p = GRPC_interface grpcRequestContext gp.

(** The remote call the proxy [gp] makes for a call with context [ctx] and
    request [req]. *)
Definition grpc_call
    (grpcRequestContext : DerivedContext → Config Transform → CallContext)
    (gp : GRPCCacheEmptyProxy)
    (ctx : Context) (req : NotifyCacheEmptyRequest) : RemoteCall :=
  {| call_context :=
       grpcRequestContext
         {| parent := ctx; timeout := Timeout (grpc_config gp) |}
         (grpc_config gp);
     call_request := req |}.

(** The remote calls against the transport calls on record: each transport
    call has made the one remote call of a registered proxy for its context
    and its request. *)
Definition link_inv
    (grpcRequestContext : DerivedContext → Config Transform → CallContext)
    (proxies : gmap string (option (CacheEmptyProxy Link)))
    (w : World Link) : Prop :=
  Forall2
    (λ (rc : RemoteCall) (tc : string * Context * NotifyCacheEmptyRequest),
       ∃ gp,
         proxies !! tc.1.1
         = Some (Some (GRPC_interface grpcRequestContext gp))
         ∧ rc = grpc_call grpcRequestContext gp tc.1.2 tc.2)
    (remote_calls (backend w)) (calls w).

End GRPCBinding.

Arguments DerivedContext : clear implicits.
Arguments RemoteCall : clear implicits.
Arguments Link : clear implicits.
Arguments CentrifugoProxyClient : clear implicits.
Arguments GRPCCacheEmptyProxy : clear implicits.

(** ** Winding up the calls of one lock *)

(** A follower of lock [l] that is waiting for the completion signal, or was
    woken by it. *)
Definition follows (l : loc) (pc : PC) : bool :=
  match pc with
  | AtNewTimer _ _ l' | AtSelect _ _ l' _ | Exited ExitShared _ _ l' _ =>
      bool_decide (l' = l)
  | _ => false
  end.

(** The steps a leader has yet to take, from where it is; [order] is the
    order in which its dispatch, if it is yet to come, ranges over the
    registry. *)
Definition leader_rest (order : list string) (t : tid) (pc : PC)
  : list Event :=
  match pc with
  | AtDispatch _ _ _ =>
      [EvLeaderDispatch t order; EvLeaderDelete t; EvLeaderClose t]
  | AtDelete _ _ _ _ => [EvLeaderDelete t; EvLeaderClose t]
  | AtClose _ _ _ _ => [EvLeaderClose t]
  | _ => []
  end.

(** The steps of a waiting follower of lock [l] that receives on
    [lock.done]. *)
Definition follower_rest (l : loc) (t : tid) (pc : PC) : list Event :=
  match pc with
  | AtNewTimer _ _ l' =>
      if decide (l' = l) then [EvNewTimer t; EvSelectDone t] else []
  | AtSelect _ _ l' _ => if decide (l' = l) then [EvSelectDone t] else []
  | _ => []
  end.

(** Where those steps leave the follower, when the lock holds [lk]. *)
Definition woken (l : loc) (lk : channelLock) (pc : PC) : PC :=
  match pc with
  | AtNewTimer ctx c l' | AtSelect ctx c l' _ =>
      if decide (l' = l)
      then Exited ExitShared ctx c l (Returns (result lk) (err lk))
      else pc
  | _ => pc
  end.

(** The leader [t0] of lock [l] finishes, then every waiting follower of [l]
    receives on [lock.done]; no time passes meanwhile. *)
Definition wind_up {Backend : Type} (order : list string) (t0 : tid) (l : loc)
    (s : State Backend) : list Event :=
  from_option (leader_rest order t0) [] (threads s !! t0)
  ++ concat ((λ tp, follower_rest l tp.1 tp.2) <$> map_to_list (threads s)).

(** The call is at one of its two invocations of [handleCacheEmpty]: whether
    and when it goes on is up to the proxy. *)
Definition at_dispatch (pc : PC) : bool :=
  match pc with
  | AtDispatch _ _ _ | AtFallback _ _ _ => true
  | _ => false
  end.

(** ** Further test setups *)

(** The follower of [follower_waits_too_long], as it is about to start its
    timer, and what happens from there. *)
Definition follower_joins : list Event :=
  [ EvHandle 0 0 "test:channel"; EvGetOrCreateLock 0;
    EvTick (100 * Millisecond)%Z;
    EvHandle 1 1 "test:channel"; EvGetOrCreateLock 1 ].

Definition follower_joined : State nat :=
  Eval vm_compute in
    default (init 0) (run test_handler (init 0) follower_joins).

Definition follower_waits : list Event := [ EvTick (5 * Second)%Z ].

(** The state one step after [two_calls_mid]: the second leader has made its
    dispatch. *)
Definition two_calls_next : State nat :=
  Eval vm_compute in
    default (init 0)
      (step test_handler two_calls_mid (EvLeaderDispatch 1 ["test"])).

(** Two calls for two channels, as in the test with different channels: each
    becomes the leader for its own channel. *)
Definition two_channels : list Event :=
  [ EvHandle 0 0 "channel1"; EvHandle 1 0 "channel2";
    EvGetOrCreateLock 0; EvGetOrCreateLock 1 ].

Definition two_channels_mid : State nat :=
  Eval vm_compute in
    default (init 0) (run test_handler (init 0) two_channels).

Definition two_channels_next : State nat :=
  Eval vm_compute in
    default (init 0)
      (step test_handler two_channels_mid (EvLeaderDispatch 0 ["test"])).

(** A call whose context is cancelled before the call is even made. *)
Definition cancelled_before_entry : list Event :=
  [ EvCancel 5 ContextCanceled; EvHandle 0 5 "test:channel" ].

Definition cancelled_at_entry : State nat :=
  Eval vm_compute in
    default (init 0) (run test_handler (init 0) cancelled_before_entry).

(** A handler configured with a negative lock-wait timeout, and a follower
    that has just joined a leader's lock. *)
Definition hasty_config : CacheEmptyHandlerConfig nat :=
  {| Proxies := {[ "test" := Some counting_proxy ]};
     LockTimeout := (-1 * Millisecond)%Z |}.

Definition hasty_handler : CacheEmptyHandler nat :=
  NewCacheEmptyHandler hasty_config.

Definition hasty_follower_joins : list Event :=
  [ EvHandle 0 0 "test:channel"; EvGetOrCreateLock 0;
    EvTick (100 * Millisecond)%Z;
    EvHandle 1 0 "test:channel"; EvGetOrCreateLock 1 ].

Definition hasty_joined : State nat :=
  Eval vm_compute in
    default (init 0) (run hasty_handler (init 0) hasty_follower_joins).

(** A follower that is woken late: its leader is over after one second, well
    within the lock-wait timeout, but the follower runs its [select] only
    when its timer has fired as well, and takes the timer branch. *)
Definition leader_answers_in_time : list Event :=
  [ EvHandle 0 0 "test:channel"; EvHandle 1 0 "test:channel";
    EvGetOrCreateLock 0; EvGetOrCreateLock 1; EvNewTimer 1;
    EvTick Second;
    EvLeaderDispatch 0 ["test"]; EvLeaderDelete 0; EvLeaderClose 0 ].

Definition follower_wakes_late : list Event :=
  [ EvTick (5 * Second)%Z; EvSelectTimer 1; EvFallbackDispatch 1 ["test"] ].

Definition answered_in_time : State nat :=
  Eval vm_compute in
    default (init 0) (run test_handler (init 0) leader_answers_in_time).

Definition woken_late : State nat :=
  Eval vm_compute in
    default (init 0) (run test_handler answered_in_time follower_wakes_late).

(** Two calls with two contexts for two channels; the first has made its
    dispatch. *)
Definition bound_calls : list Event :=
  [ EvHandle 0 3 "news"; EvHandle 1 4 "chat";
    EvGetOrCreateLock 0; EvGetOrCreateLock 1;
    EvLeaderDispatch 0 ["test"] ].

(** Stand-ins for the helpers of the HTTP binding: the body is the channel
    name, the headers are the content type and the context they were built
    for, a failed call is passed on as it is, and any non-empty answer
    decodes to a populated result. *)
Definition test_helpers
  : HTTPHelpers (Context * list (string * string)) (nat * nat) :=
  {| EncodeNotifyCacheEmptyRequest :=
       λ req, (String.list_byte_of_string (Channel req), None);
     DecodeNotifyCacheEmptyResponse :=
       λ data, match data with
               | [] => (None, Some (ErrorString "unexpected end of input"))
               | _ => (Some (populated true), None)
               end;
     httpRequestHeaders :=
       λ ctx _, (ctx, [("Content-Type", "application/json")]);
     transformCacheEmptyResponse := λ e _, (None, Some e) |}.

(** A caller whose server echoes the body and counts the requests. *)
Definition test_caller : HTTPCaller nat (Context * list (string * string)) :=
  {| CallHTTP := λ _ _ _ data n, ((data, None), S n) |}.

Definition test_proxy_config : Config (nat * nat) :=
  {| Endpoint := "http://127.0.0.1:3000/cache_empty";
     Timeout := Second;
     BinaryEncoding := false;
     IncludeConnectionMeta := false;
     HTTP := {| StatusToCodeTransforms := [] |} |}.

Definition test_http_proxy
  : HTTPCacheEmptyProxy nat (Context * list (string * string)) (nat * nat) :=
  {| config := test_proxy_config; httpCaller := test_caller |}.

Definition http_handler
  : CacheEmptyHandler (Wire nat (Context * list (string * string))) :=
  NewCacheEmptyHandler
    {| Proxies :=
         {[ "test" := Some (HTTP_interface test_helpers test_http_proxy) ]};
       LockTimeout := 0%Z |}.

Definition http_mid : State (Wire nat (Context * list (string * string))) :=
  Eval vm_compute in
    default (init {| remote := 0; sent := [] |})
      (run http_handler (init {| remote := 0; sent := [] |}) bound_calls).

Definition http_end : State (Wire nat (Context * list (string * string))) :=
  Eval vm_compute in
    default (init {| remote := 0; sent := [] |})
      (step http_handler http_mid (EvLeaderDispatch 1 ["test"])).

(** Stand-ins for the gRPC binding: the context of a remote call is the
    parent context with the timeout, and the client's server answers every
    call and counts them. *)
Definition test_request_context (ctx : DerivedContext)
    (cfg : Config (nat * nat)) : Context * Duration :=
  (parent ctx, timeout ctx).

Definition test_client : CentrifugoProxyClient nat (Context * Duration) :=
  {| NotifyCacheEmpty :=
       λ _ _ n, (Returns (Some (populated true)) None, S n) |}.

Definition test_grpc_proxy
  : GRPCCacheEmptyProxy nat (nat * nat) (Context * Duration) :=
  {| grpc_config := test_proxy_config; client := test_client |}.

Definition grpc_handler
  : CacheEmptyHandler (Link nat (Context * Duration)) :=
  NewCacheEmptyHandler
    {| Proxies :=
         {[ "test" :=
              Some (GRPC_interface test_request_context test_grpc_proxy) ]};
       LockTimeout := 0%Z |}.

Definition grpc_mid : State (Link nat (Context * Duration)) :=
  Eval vm_compute in
    default (init {| peer := 0; remote_calls := [] |})
      (run grpc_handler (init {| peer := 0; remote_calls := [] |})
         bound_calls).

Definition grpc_end : State (Link nat (Context * Duration)) :=
  Eval vm_compute in
    default (init {| peer := 0; remote_calls := [] |})
      (step grpc_handler grpc_mid (EvLeaderDispatch 1 ["test"])).
(** * Properties of the dispatch function *)

Section DispatchProperties.

Context {Backend : Type}.

Implicit Types (w : World Backend) (p : CacheEmptyProxy Backend).
Implicit Types (proxies : gmap string (option (CacheEmptyProxy Backend))).
Implicit Types (entries nils rest : list (string * option (CacheEmptyProxy Backend))).

Lemma skip_nils_nil w : skip_nils [] w = w.
Proof. destruct w. unfold skip_nils. simpl. by rewrite app_nil_r. Qed.

Lemma skip_nils_cons name nils w :
  skip_nils ((name, None) :: nils) w
  = skip_nils nils (add_log (log_nil_proxy name) w).
Proof. unfold skip_nils, add_log. simpl. by rewrite <- app_assoc. Qed.

(** Nil slots are passed over: each leaves one log line and nothing else. *)
Lemma loop_skip_nils ctx req nils rest w :
  Forall (λ e, e.2 = None) nils →
  handleCacheEmpty_loop ctx req (nils ++ rest) w
  = handleCacheEmpty_loop ctx req rest (skip_nils nils w).
Proof.
  intros Hn. revert w. induction Hn as [|[name v] nils Hv _ IH]; intros w.
  - by rewrite skip_nils_nil.
  - simpl in Hv. subst v. simpl. rewrite IH. by rewrite skip_nils_cons.
Qed.

(** A sequence of entries is all nil slots, or has a first usable entry. *)
Lemma entries_cases entries :
  Forall (λ e, e.2 = None) entries
  ∨ ∃ nils name p rest,
      entries = nils ++ (name, Some p) :: rest ∧ Forall (λ e, e.2 = None) nils.
Proof.
  induction entries as [|[name [p|]] entries IH].
  - by left.
  - right. exists [], name, p, entries. by split.
  - destruct IH as [IH|(nils & n & p & rest & -> & Hn)].
    + left. by constructor.
    + right. exists ((name, None) :: nils), n, p, rest. split; [done|].
      by constructor.
Qed.

Lemma elem_of_range_entries proxies order name v :
  (name, v) ∈ range_entries proxies order
  ↔ name ∈ order ∧ proxies !! name = Some v.
Proof.
  unfold range_entries. rewrite list_elem_of_omap. split.
  - intros (k & Hk & Hl). destruct (proxies !! k) as [v'|] eqn:E; [|done].
    simpl in Hl. by simplify_eq.
  - intros [Hk Hl]. exists name. split; [done|]. by rewrite Hl.
Qed.

Lemma range_order_elem proxies order name :
  range_order proxies order → name ∈ order ↔ is_Some (proxies !! name).
Proof.
  unfold range_order. intros ->. rewrite list_elem_of_fmap. split.
  - intros ([k v] & -> & Hkv). apply elem_of_map_to_list in Hkv. by eexists.
  - intros [v Hv]. exists (name, v). split; [done|].
    by apply elem_of_map_to_list.
Qed.

Lemma range_entries_no_usable proxies order :
  no_usable proxies → Forall (λ e, e.2 = None) (range_entries proxies order).
Proof.
  intros Hno. apply Forall_forall. intros [name v] Hin.
  apply elem_of_range_entries in Hin as [_ Hl]. simpl. by eapply Hno.
Qed.

(** With a usable entry in the registry, every execution of the loop meets
    one. *)
Lemma range_entries_usable proxies order name p :
  range_order proxies order → proxies !! name = Some (Some p) →
  ∃ nils name' p' rest,
    range_entries proxies order = nils ++ (name', Some p') :: rest
    ∧ Forall (λ e, e.2 = None) nils.
Proof.
  intros Ho Hl. destruct (entries_cases (range_entries proxies order))
    as [Hall|?]; [|done].
  exfalso. assert ((name, Some p) ∈ range_entries proxies order) as Hin.
  { apply elem_of_range_entries. split; [|done].
    apply (range_order_elem _ _ _ Ho). by eexists. }
  rewrite Forall_forall in Hall. by specialize (Hall _ Hin).
Qed.

Lemma loop_first_usable ctx req nils name p rest w :
  Forall (λ e, e.2 = None) nils →
  handleCacheEmpty_loop ctx req (nils ++ (name, Some p) :: rest) w
  = let '(o, b) := ProxyCacheEmpty p ctx req (backend w) in
    (dispatch_result o,
     {| backend := b;
        calls := calls w ++ [(name, ctx, req)];
        logs := logs (skip_nils nils w) ++ error_line o name (Channel req) |}).
Proof.
  intros Hn. rewrite loop_skip_nils by done. simpl.
  destruct (ProxyCacheEmpty p ctx req (backend w)) as [[resp [e|]|] b];
    simpl; unfold add_log; simpl; by rewrite ?app_nil_r.
Qed.

(** C6. Whatever the registry and whatever the order in which the loop meets
    its entries: when the entries met are nil slots [nils], then the usable
    proxy [p] under [name], then [rest], the dispatch logs one line per nil
    slot and goes on, makes exactly one transport call, to [p], and returns
    from it at once: the error (with a nil response) when the call fails, the
    response when it succeeds. Nothing in the result depends on [rest]: no
    later entry is tried. *)
Theorem handleCacheEmpty_first_usable_wins
    ctx req proxies order nils name p rest w :
  range_entries proxies order = nils ++ (name, Some p) :: rest →
  Forall (λ e, e.2 = None) nils →
  handleCacheEmpty ctx req proxies order w
  = let '(o, b) := ProxyCacheEmpty p ctx req (backend w) in
    (match o with
     | Returns _ (Some e) => Returns None (Some e)
     | Returns resp None => Returns resp None
     | Panics => Panics
     end,
     {| backend := b;
        calls := calls w ++ [(name, ctx, req)];
        logs := logs w ++ ((log_nil_proxy ∘ fst) <$> nils)
                  ++ match o with
                     | Returns _ (Some e) =>
                         [log_proxy_error e name (Channel req)]
                     | _ => []
                     end |}).
Proof.
  intros Hsplit Hn. unfold handleCacheEmpty. rewrite Hsplit.
  rewrite loop_first_usable by done.
  destruct (ProxyCacheEmpty p ctx req (backend w)) as [o b].
  unfold dispatch_result, error_line, skip_nils. simpl.
  by rewrite <- app_assoc.
Qed.

Lemma handleCacheEmpty_no_usable ctx req proxies order w :
  no_usable proxies →
  handleCacheEmpty ctx req proxies order w
  = (Returns (Some {| Result := Some {| Populated := false |} |}) None,
     skip_nils (range_entries proxies order) w).
Proof.
  intros Hno. unfold handleCacheEmpty.
  rewrite <- (app_nil_r (range_entries proxies order)) at 1.
  rewrite loop_skip_nils; [done|]. by apply range_entries_no_usable.
Qed.

(** C7. For a registry without a usable entry (empty, or nil slots only), in
    whatever order the loop meets the slots, the dispatch returns the default
    response, whose result is the zero result, and a nil error; it makes no
    transport call and leaves the backend alone; all it does is to log one
    line per nil slot. *)
Theorem handleCacheEmpty_no_backend_default ctx req proxies order w :
  no_usable proxies →
  let '(o, w') := handleCacheEmpty ctx req proxies order w in
  o = Returns (Some {| Result := Some {| Populated := false |} |}) None
  ∧ calls w' = calls w
  ∧ backend w' = backend w
  ∧ logs w' = logs w ++ ((log_nil_proxy ∘ fst) <$> range_entries proxies order).
Proof.
  intros Hno. by rewrite handleCacheEmpty_no_usable.
Qed.

(** C10. On the no-backend path the response returned is a non-nil pointer
    to a response whose [Result] field is non-nil, next to a nil error. *)
Theorem handleCacheEmpty_default_result_not_nil ctx req proxies order w :
  no_usable proxies →
  ∃ resp res,
    (handleCacheEmpty ctx req proxies order w).1 = Returns (Some resp) None
    ∧ Result resp = Some res.
Proof.
  intros Hno. rewrite handleCacheEmpty_no_usable by done.
  by eexists _, _.
Qed.

(** C9, as amended. For a registry with at most one usable entry, any two
    executions of the dispatch, in whatever orders their loops meet the
    entries, call the same proxy (or none) with the same effect on the
    backend and return the same result. *)
Theorem handleCacheEmpty_order_irrelevant ctx req proxies order1 order2 w :
  at_most_one_usable proxies →
  range_order proxies order1 → range_order proxies order2 →
  let r1 := handleCacheEmpty ctx req proxies order1 w in
  let r2 := handleCacheEmpty ctx req proxies order2 w in
  r1.1 = r2.1 ∧ backend r1.2 = backend r2.2 ∧ calls r1.2 = calls r2.2.
Proof.
  intros Hone Ho1 Ho2. cbv zeta. unfold handleCacheEmpty.
  assert (∀ o o' nils name p rest,
    range_order proxies o → range_order proxies o' →
    range_entries proxies o = nils ++ (name, Some p) :: rest →
    Forall (λ e, e.2 = None) (range_entries proxies o') → False) as Hmix.
  { intros o o' nils name p rest Ho Ho' Hs Hall.
    assert ((name, Some p) ∈ range_entries proxies o) as Hin.
    { rewrite Hs. apply elem_of_app. right. left. }
    apply elem_of_range_entries in Hin as [_ Hl].
    assert ((name, Some p) ∈ range_entries proxies o') as Hin'.
    { apply elem_of_range_entries. split; [|done].
      apply (range_order_elem _ _ _ Ho'). by eexists. }
    rewrite Forall_forall in Hall. by specialize (Hall _ Hin'). }
  destruct (entries_cases (range_entries proxies order1))
    as [H1|(nils1 & n1 & p1 & rest1 & E1 & Hn1)];
  destruct (entries_cases (range_entries proxies order2))
    as [H2|(nils2 & n2 & p2 & rest2 & E2 & Hn2)].
  - rewrite <- (app_nil_r (range_entries proxies order1)).
    rewrite <- (app_nil_r (range_entries proxies order2)).
    by rewrite !loop_skip_nils.
  - exfalso. by eapply (Hmix order2 order1).
  - exfalso. by eapply (Hmix order1 order2).
  - assert (proxies !! n1 = Some (Some p1)) as L1.
    { eapply elem_of_range_entries. rewrite E1. apply elem_of_app.
      right. left. }
    assert (proxies !! n2 = Some (Some p2)) as L2.
    { eapply elem_of_range_entries. rewrite E2. apply elem_of_app.
      right. left. }
    assert (n1 = n2) as <- by by eapply Hone.
    assert (p1 = p2) as <- by congruence.
    rewrite E1, E2, !loop_first_usable by done.
    by destruct (ProxyCacheEmpty p1 ctx req (backend w)).
Qed.

End DispatchProperties.

(** * Properties of the coordinator *)

Section CoordinatorProperties.

Context {Backend : Type}.

Implicit Types (s : State Backend) (h : CacheEmptyHandler Backend).
Implicit Types (pc : PC) (t : tid) (l : loc) (c : string).

(** The two ways [getOrCreateLock] ends. *)
Lemma getOrCreateLock_spec c s s1 l (first : bool) :
  getOrCreateLock c s = (s1, l, first) →
  let new := fresh (dom (heap s)) in
  (channelLocks s !! c = None ∧ first = true ∧ l = new
   ∧ s1 = set_channelLocks (<[c := new]> (channelLocks s))
            (set_heap (<[new := empty_lock]> (heap s)) s))
  ∨ (channelLocks s !! c = Some l ∧ first = false
     ∧ s1 = set_channelLocks (channelLocks s)
              (set_heap (<[new := empty_lock]> (heap s)) s)).
Proof.
  unfold getOrCreateLock, LoadOrStore. simpl.
  destruct (channelLocks s !! c) as [actual|] eqn:E; intros [= <- <- <-].
  - right. done.
  - left. done.
Qed.

Lemma fresh_lock_not_in_heap s : heap s !! fresh (dom (heap s)) = None.
Proof. apply not_elem_of_dom. apply is_fresh. Qed.

Lemma alter_store (hp : gmap loc channelLock) l lk r e :
  hp !! l = Some lk →
  alter (λ lk, {| result := r; err := e; done := done lk |}) l hp
  = <[l := {| result := r; err := e; done := done lk |}]> hp.
Proof.
  intros Hl. apply map_eq. intros i. destruct (decide (i = l)) as [->|Hne].
  - by rewrite lookup_alter_eq, lookup_insert_eq, Hl.
  - by rewrite lookup_alter_ne, lookup_insert_ne.
Qed.

(** Every step of the function is one of the rules. *)
Lemma step_sound h s e s' : step h s e = Some s' → step_spec h s e s'.
Proof.
  destruct e; simpl; intros H.
  - case_decide; simplify_eq. by constructor.
  - destruct (ctxErr s !! ctx) eqn:E; [done|].
    destruct (is_ctx_error e) eqn:E'; simplify_eq. by constructor.
  - destruct (threads s !! t) eqn:E; simplify_eq. by constructor.
  - destruct (threads s !! t) as [[]|] eqn:E; try done.
    destruct (getOrCreateLock channel s) as [[s1 l] first] eqn:G.
    apply getOrCreateLock_spec in G as [(Hc & -> & -> & ->)|(Hc & -> & ->)];
      simplify_eq.
    + by constructor.
    + exact (SpecJoin h s t ctx channel l E Hc).
  - destruct (threads s !! t) as [[]|] eqn:E; try done.
    case_decide; [|done].
    destruct (handleCacheEmpty _ _ _ _ _) as [[r e|] w] eqn:D.
    + simpl in H. rewrite lookup_alter_eq in H.
      destruct (heap s !! lock) as [lk|] eqn:L; simpl in H; [|done].
      simplify_eq. rewrite (alter_store _ _ lk) by done.
      by eapply SpecLeaderReturns.
    + simplify_eq. by apply SpecLeaderPanics.
  - destruct (threads s !! t) as [[]|] eqn:E; simplify_eq. by constructor.
  - destruct (threads s !! t) as [[]|] eqn:E; try done.
    destruct (heap s !! lock) as [lk|] eqn:L; simpl in H; [|done].
    destruct (done lk) eqn:Dn; simplify_eq.
    + by eapply SpecLeaderCloseClosed.
    + by eapply SpecLeaderClose.
  - destruct (threads s !! t) as [[]|] eqn:E; simplify_eq. by constructor.
  - destruct (threads s !! t) as [[]|] eqn:E; try done.
    destruct (heap s !! lock) as [lk|] eqn:L; simpl in H; [|done].
    destruct (done lk) eqn:Dn; simplify_eq. by eapply SpecSelectDone.
  - destruct (threads s !! t) as [[]|] eqn:E; try done.
    case_decide; simplify_eq. by eapply SpecSelectTimer.
  - destruct (threads s !! t) as [[]|] eqn:E; try done.
    destruct (ctxErr s !! ctx) as [e|] eqn:L; simpl in H; [|done].
    simplify_eq. by eapply SpecSelectCtx.
  - destruct (threads s !! t) as [[]|] eqn:E; try done.
    case_decide; [|done].
    destruct (handleCacheEmpty _ _ _ _ _) as [o w] eqn:D.
    simplify_eq. by eapply SpecFallback.
Qed.

(** Every rule is a step of the function. *)
Lemma step_complete h s e s' : step_spec h s e s' → step h s e = Some s'.
Proof.
  destruct 1; simpl; unfold getOrCreateLock, LoadOrStore; simpl;
    repeat match goal with
    | H : _ !! _ = _ |- _ => rewrite ?lookup_alter_eq, H; simpl
    | H : handleCacheEmpty _ _ _ _ _ = _ |- _ => rewrite H; clear H; simpl
    | H : is_ctx_error _ = _ |- _ => rewrite H; clear H; simpl
    | H : done _ = _ |- _ => rewrite H; clear H; simpl
    | |- context [decide ?P] => rewrite (decide_True (P := P)) by done; simpl
    end; try done.
  by erewrite alter_store.
Qed.

(** ** Roles *)

Lemma entry_leader pc c l :
  entry_of pc = Some (c, l) → leader_of pc = Some l ∧ pc_channel pc = c.
Proof. destruct pc; simpl; intros; by simplify_eq. Qed.

Lemma leader_expected pc l :
  leader_of pc = Some l → is_Some (expected_lock pc).
Proof. destruct pc as [| | | | | | |[]]; simpl; intros; by simplify_eq. Qed.

Lemma follower_not_leader pc l : follower_of pc = Some l → leader_of pc = None.
Proof. destruct pc as [| | | | | | |[]]; simpl; intros; by simplify_eq. Qed.

(** ** The lock invariant holds in every reachable state *)

Lemma lock_inv_init (b : Backend) : lock_inv (init b).
Proof. constructor; simpl; intros *; by rewrite lookup_empty. Qed.

(** A step that moves one call along without changing its role, the map or
    the locks. *)
Lemma lock_inv_move s s' t pc pc' :
  lock_inv s →
  threads s !! t = Some pc →
  threads s' = <[t := pc']> (threads s) →
  heap s' = heap s → channelLocks s' = channelLocks s →
  entry_of pc' = entry_of pc → leader_of pc' = leader_of pc →
  follower_of pc' = follower_of pc → pc_channel pc' = pc_channel pc →
  expected_lock pc' = expected_lock pc →
  (∀ ctx c l ret, pc' = Exited ExitShared ctx c l ret →
     ∃ lk, heap s !! l = Some lk ∧ done lk = true
           ∧ ret = Returns (result lk) (err lk)) →
  lock_inv s'.
Proof.
  intros [I1 I2 I3 I4 I5 I6] Ht Hth Hhp Hm He Hl Hf Hc Hx Hs.
  assert (∀ t0 pc0, threads s !! t0 = Some pc0 →
            ∃ pc0', threads s' !! t0 = Some pc0'
                    ∧ entry_of pc0' = entry_of pc0
                    ∧ leader_of pc0' = leader_of pc0
                    ∧ pc_channel pc0' = pc_channel pc0) as Hfwd.
  { intros t0 pc0 H0. rewrite Hth. destruct (decide (t0 = t)) as [->|Hne].
    - exists pc'. rewrite lookup_insert_eq. by simplify_eq.
    - exists pc0. by rewrite lookup_insert_ne. }
  assert (∀ t0 pc0', threads s' !! t0 = Some pc0' →
            ∃ pc0, threads s !! t0 = Some pc0
                   ∧ entry_of pc0' = entry_of pc0
                   ∧ leader_of pc0' = leader_of pc0
                   ∧ follower_of pc0' = follower_of pc0
                   ∧ pc_channel pc0' = pc_channel pc0
                   ∧ expected_lock pc0' = expected_lock pc0
                   ∧ (t0 ≠ t → pc0' = pc0)) as Hbwd.
  { intros t0 pc0' H0. rewrite Hth in H0.
    apply lookup_insert_Some in H0 as [[<- <-]|[Hne H0]].
    - exists pc. by repeat split.
    - exists pc0'. by repeat split. }
  constructor; rewrite ?Hhp, ?Hm.
  - intros c l Hcl. destruct (I1 c l Hcl) as (t0 & pc0 & H0 & E0).
    destruct (Hfwd _ _ H0) as (pc0' & H0' & E' & _). exists t0, pc0'.
    split; [done|congruence].
  - intros t0 pc0' c l H0 E0.
    destruct (Hbwd _ _ H0) as (pc0 & H0' & E' & _). eapply (I2 _ pc0); [done|congruence].
  - intros t1 t2 pc1 pc2 l H1 H2 L1 L2.
    destruct (Hbwd _ _ H1) as (pc1' & H1' & _ & L1' & _).
    destruct (Hbwd _ _ H2) as (pc2' & H2' & _ & L2' & _).
    eapply (I3 _ _ _ _ l); [exact H1'|exact H2'|congruence|congruence].
  - intros t0 pc0' l H0 L0.
    destruct (Hbwd _ _ H0) as (pc0 & H0' & _ & L' & _ & _ & X' & _).
    rewrite X'. eapply (I4 _ pc0); [done|congruence].
  - intros t0 pc0' l H0 F0.
    destruct (Hbwd _ _ H0) as (pc0 & H0' & _ & _ & F' & C' & _).
    destruct (I5 t0 pc0 l H0') as (t1 & pc1 & H1 & L1 & C1); [congruence|].
    destruct (Hfwd _ _ H1) as (pc1' & H1' & _ & L1' & C1').
    exists t1, pc1'. split; [done|]. split; congruence.
  - intros t0 ctx c l ret H0.
    destruct (Hbwd _ _ H0) as (pc0 & H0' & _ & _ & _ & _ & _ & Hsame).
    destruct (decide (t0 = t)) as [->|Hne].
    + rewrite Hth, lookup_insert_eq in H0. simplify_eq. by eapply Hs.
    + rewrite <- (Hsame Hne) in H0'. by eapply I6.
Qed.

Lemma lock_inv_handle s t ctx c :
  lock_inv s → threads s !! t = None → lock_inv (set_pc t (AtEntry ctx c) s).
Proof.
  intros [I1 I2 I3 I4 I5 I6] Ht.
  assert (∀ t0 pc0, threads s !! t0 = Some pc0 →
            <[t:=AtEntry ctx c]> (threads s) !! t0 = Some pc0) as Hfwd.
  { intros. rewrite lookup_insert_ne; [done|congruence]. }
  constructor; simpl.
  - intros c0 l Hcl. destruct (I1 _ _ Hcl) as (t0 & pc0 & H0 & E0).
    exists t0, pc0. eauto.
  - intros t0 pc0 c0 l [[<- <-]|[_ H0]]%lookup_insert_Some E0; [done|].
    by eapply I2.
  - intros t1 t2 pc1 pc2 l [[<- <-]|[_ H1]]%lookup_insert_Some
      [[<- <-]|[_ H2]]%lookup_insert_Some L1 L2; try done.
    by eapply I3.
  - intros t0 pc0 l [[<- <-]|[_ H0]]%lookup_insert_Some L0; [done|].
    by eapply I4.
  - intros t0 pc0 l [[<- <-]|[_ H0]]%lookup_insert_Some F0; [done|].
    destruct (I5 _ _ _ H0 F0) as (t1 & pc1 & H1 & L1 & C1).
    exists t1, pc1. eauto.
  - intros t0 ctx0 c0 l ret [[<- ?]|[_ H0]]%lookup_insert_Some; [done|].
    by eapply I6.
Qed.

Lemma lock_inv_install s t ctx c :
  lock_inv s → threads s !! t = Some (AtEntry ctx c) →
  channelLocks s !! c = None →
  lock_inv
    (set_pc t (AtDispatch ctx c (fresh (dom (heap s))))
       (set_channelLocks (<[c := fresh (dom (heap s))]> (channelLocks s))
          (set_heap (<[fresh (dom (heap s)) := empty_lock]> (heap s)) s))).
Proof.
  intros [I1 I2 I3 I4 I5 I6] Ht Hc.
  pose proof (fresh_lock_not_in_heap s) as Hnew.
  set (new := fresh (dom (heap s))) in *.
  constructor; simpl.
  - intros c0 l [[<- <-]|[Hne Hcl]]%lookup_insert_Some.
    + exists t, (AtDispatch ctx c new). by rewrite lookup_insert_eq.
    + destruct (I1 _ _ Hcl) as (t0 & pc0 & H0 & E0). exists t0, pc0.
      split; [|done]. rewrite lookup_insert_ne; [done|].
      intros ->. by simplify_eq.
  - intros t0 pc0 c0 l [[<- <-]|[Hne H0]]%lookup_insert_Some E0.
    + simpl in E0. simplify_eq. by rewrite lookup_insert_eq.
    + pose proof (I2 _ _ _ _ H0 E0) as Hm.
      rewrite lookup_insert_ne; [done|]. intros ->. congruence.
  - intros t1 t2 pc1 pc2 l [[<- <-]|[Hne1 H1]]%lookup_insert_Some
      [[<- <-]|[Hne2 H2]]%lookup_insert_Some L1 L2; try done.
    + simpl in L1. simplify_eq. pose proof (I4 _ _ _ H2 L2) as Hl.
      destruct (leader_expected _ _ L2) as [lk Hlk]. congruence.
    + simpl in L2. simplify_eq. pose proof (I4 _ _ _ H1 L1) as Hl.
      destruct (leader_expected _ _ L1) as [lk Hlk]. congruence.
    + by eapply I3.
  - intros t0 pc0 l [[<- <-]|[Hne H0]]%lookup_insert_Some L0.
    + simpl in *. simplify_eq. by rewrite lookup_insert_eq.
    + pose proof (I4 _ _ _ H0 L0) as Hl.
      destruct (leader_expected _ _ L0) as [lk Hlk].
      rewrite lookup_insert_ne; [done|]. intros <-. congruence.
  - intros t0 pc0 l [[<- <-]|[Hne H0]]%lookup_insert_Some F0; [done|].
    destruct (I5 _ _ _ H0 F0) as (t1 & pc1 & H1 & L1 & C1).
    exists t1, pc1. split; [|done]. rewrite lookup_insert_ne; [done|].
    intros ->. by simplify_eq.
  - intros t0 ctx0 c0 l ret [[<- ?]|[Hne H0]]%lookup_insert_Some; [done|].
    destruct (I6 _ _ _ _ _ H0) as (lk & Hlk & ?). exists lk.
    split; [|done]. rewrite lookup_insert_ne; [done|]. intros <-. congruence.
Qed.

Lemma lock_inv_join s t ctx c l :
  lock_inv s → threads s !! t = Some (AtEntry ctx c) →
  channelLocks s !! c = Some l →
  lock_inv
    (set_pc t (AtNewTimer ctx c l)
       (set_heap (<[fresh (dom (heap s)) := empty_lock]> (heap s)) s)).
Proof.
  intros [I1 I2 I3 I4 I5 I6] Ht Hc.
  pose proof (fresh_lock_not_in_heap s) as Hnew.
  set (new := fresh (dom (heap s))) in *.
  assert (∀ t0 pc0 l0, threads s !! t0 = Some pc0 → leader_of pc0 = Some l0 →
            <[t:=AtNewTimer ctx c l]> (threads s) !! t0 = Some pc0) as Hfwd.
  { intros t0 pc0 l0 H0 L0. rewrite lookup_insert_ne; [done|].
    intros ->. by simplify_eq. }
  constructor; simpl.
  - intros c0 l0 Hcl. destruct (I1 _ _ Hcl) as (t0 & pc0 & H0 & E0).
    exists t0, pc0. split; [|done]. apply entry_leader in E0 as [L0 _]. eauto.
  - intros t0 pc0 c0 l0 [[<- <-]|[Hne H0]]%lookup_insert_Some E0; [done|].
    by eapply I2.
  - intros t1 t2 pc1 pc2 l0 [[<- <-]|[Hne1 H1]]%lookup_insert_Some
      [[<- <-]|[Hne2 H2]]%lookup_insert_Some L1 L2; try done.
    by eapply I3.
  - intros t0 pc0 l0 [[<- <-]|[Hne H0]]%lookup_insert_Some L0; [done|].
    pose proof (I4 _ _ _ H0 L0) as Hl.
    destruct (leader_expected _ _ L0) as [lk Hlk].
    rewrite lookup_insert_ne; [done|]. intros <-. congruence.
  - intros t0 pc0 l0 [[<- <-]|[Hne H0]]%lookup_insert_Some F0.
    + simpl in F0. simplify_eq.
      destruct (I1 _ _ Hc) as (t1 & pc1 & H1 & E1).
      apply entry_leader in E1 as [L1 C1]. exists t1, pc1. eauto.
    + destruct (I5 _ _ _ H0 F0) as (t1 & pc1 & H1 & L1 & C1).
      exists t1, pc1. eauto.
  - intros t0 ctx0 c0 l0 ret [[<- ?]|[Hne H0]]%lookup_insert_Some; [done|].
    destruct (I6 _ _ _ _ _ H0) as (lk & Hlk & ?). exists lk.
    split; [|done]. rewrite lookup_insert_ne; [done|]. intros <-. congruence.
Qed.

(** A leader moves on, keeping its role, and writes its own lock, which is
    still open. *)
Lemma lock_inv_leader_write s s' t pc pc' l lk' :
  lock_inv s →
  threads s !! t = Some pc →
  leader_of pc = Some l →
  (∀ lk, heap s !! l = Some lk → done lk = false) →
  threads s' = <[t := pc']> (threads s) →
  heap s' = <[l := lk']> (heap s) → channelLocks s' = channelLocks s →
  entry_of pc' = entry_of pc → leader_of pc' = leader_of pc →
  pc_channel pc' = pc_channel pc →
  expected_lock pc' = Some lk' →
  lock_inv s'.
Proof.
  intros [I1 I2 I3 I4 I5 I6] Ht Hl Hopen Hth Hhp Hm He Hl' Hc Hx.
  assert (∀ t0 pc0, threads s !! t0 = Some pc0 →
            ∃ pc0', threads s' !! t0 = Some pc0'
                    ∧ entry_of pc0' = entry_of pc0
                    ∧ leader_of pc0' = leader_of pc0
                    ∧ pc_channel pc0' = pc_channel pc0) as Hfwd.
  { intros t0 pc0 H0. rewrite Hth. destruct (decide (t0 = t)) as [->|Hne].
    - exists pc'. rewrite lookup_insert_eq. by simplify_eq.
    - exists pc0. by rewrite lookup_insert_ne. }
  assert (∀ t0 pc0', threads s' !! t0 = Some pc0' →
            (t0 = t ∧ pc0' = pc') ∨ (t0 ≠ t ∧ threads s !! t0 = Some pc0'))
    as Hbwd.
  { intros t0 pc0' H0. rewrite Hth in H0.
    apply lookup_insert_Some in H0 as [[<- <-]|[Hne H0]]; eauto. }
  constructor; rewrite ?Hhp, ?Hm.
  - intros c0 l0 Hcl. destruct (I1 c0 l0 Hcl) as (t0 & pc0 & H0 & E0).
    destruct (Hfwd _ _ H0) as (pc0' & H0' & E' & _). exists t0, pc0'.
    split; [done|congruence].
  - intros t0 pc0' c0 l0 H0 E0. destruct (Hbwd _ _ H0) as [[-> ->]|[Hne H0']].
    + eapply (I2 _ pc); [done|congruence].
    + by eapply I2.
  - intros t1 t2 pc1 pc2 l0 H1 H2 L1 L2.
    destruct (Hbwd _ _ H1) as [[-> ->]|[Hne1 H1']];
      destruct (Hbwd _ _ H2) as [[-> ->]|[Hne2 H2']]; try done.
    + eapply (I3 _ _ pc pc2 l0); [done|done|congruence|done].
    + eapply (I3 _ _ pc1 pc l0); [done|done|done|congruence].
    + by eapply I3.
  - intros t0 pc0' l0 H0 L0. destruct (Hbwd _ _ H0) as [[-> ->]|[Hne H0']].
    + assert (l0 = l) as -> by congruence. by rewrite lookup_insert_eq.
    + rewrite lookup_insert_ne; [by eapply I4|].
      intros <-. apply Hne. by eapply (I3 _ _ pc0' pc l).
  - intros t0 pc0' l0 H0 F0. destruct (Hbwd _ _ H0) as [[-> ->]|[Hne H0']].
    + apply follower_not_leader in F0. congruence.
    + destruct (I5 _ _ _ H0' F0) as (t1 & pc1 & H1 & L1 & C1).
      destruct (Hfwd _ _ H1) as (pc1' & H1' & _ & L1' & C1').
      exists t1, pc1'. split; [done|]. split; congruence.
  - intros t0 ctx c l0 ret H0. destruct (Hbwd _ _ H0) as [[-> Hpc]|[Hne H0']].
    + rewrite <- Hpc in Hl'. simpl in Hl'. congruence.
    + destruct (I6 _ _ _ _ _ H0') as (lk & Hlk & Hd & Hr). exists lk.
      split; [|done]. rewrite lookup_insert_ne; [done|].
      intros <-. specialize (Hopen _ Hlk). congruence.
Qed.

Lemma lock_inv_delete s t ctx c l ret :
  lock_inv s → threads s !! t = Some (AtDelete ctx c l ret) →
  lock_inv (set_pc t (AtClose ctx c l ret)
              (set_channelLocks (delete c (channelLocks s)) s)).
Proof.
  intros [I1 I2 I3 I4 I5 I6] Ht.
  assert (∀ t0 pc0, threads s !! t0 = Some pc0 →
            ∃ pc0', <[t:=AtClose ctx c l ret]> (threads s) !! t0 = Some pc0'
                    ∧ leader_of pc0' = leader_of pc0
                    ∧ pc_channel pc0' = pc_channel pc0) as Hfwd.
  { intros t0 pc0 H0. destruct (decide (t0 = t)) as [->|Hne].
    - eexists. rewrite lookup_insert_eq. by simplify_eq.
    - exists pc0. by rewrite lookup_insert_ne. }
  constructor; simpl.
  - intros c0 l0 [Hne Hcl]%lookup_delete_Some.
    destruct (I1 _ _ Hcl) as (t0 & pc0 & H0 & E0). exists t0, pc0.
    split; [|done]. rewrite lookup_insert_ne; [done|].
    intros ->. simplify_eq. simpl in E0. congruence.
  - intros t0 pc0 c0 l0 [[<- <-]|[Hne H0]]%lookup_insert_Some E0; [done|].
    pose proof (I2 _ _ _ _ H0 E0) as Hm.
    rewrite lookup_delete_ne; [done|]. intros <-.
    pose proof (I2 _ _ c l Ht eq_refl) as Hm'.
    apply entry_leader in E0 as [L0 _]. apply Hne.
    eapply (I3 _ _ _ _ l); [exact Ht|exact H0|done|congruence].
  - intros t1 t2 pc1 pc2 l0 [[<- <-]|[Hne1 H1]]%lookup_insert_Some
      [[<- <-]|[Hne2 H2]]%lookup_insert_Some L1 L2; try done.
    + by eapply (I3 _ _ _ _ l0 Ht H2).
    + by eapply (I3 _ _ _ _ l0 H1 Ht).
    + by eapply I3.
  - intros t0 pc0 l0 [[<- <-]|[Hne H0]]%lookup_insert_Some L0.
    + by apply (I4 _ _ _ Ht).
    + by eapply I4.
  - intros t0 pc0 l0 [[<- <-]|[Hne H0]]%lookup_insert_Some F0; [done|].
    destruct (I5 _ _ _ H0 F0) as (t1 & pc1 & H1 & L1 & C1).
    destruct (Hfwd _ _ H1) as (pc1' & H1' & L1' & C1').
    exists t1, pc1'. split; [done|]. split; congruence.
  - intros t0 ctx0 c0 l0 ret0 [[<- ?]|[Hne H0]]%lookup_insert_Some; [done|].
    by eapply I6.
Qed.

Lemma lock_inv_step h s e s' : lock_inv s → step_spec h s e s' → lock_inv s'.
Proof.
  intros Hinv Hstep. destruct Hstep.
  - (* tick *) destruct Hinv. by constructor.
  - (* cancel *) destruct Hinv. by constructor.
  - (* a new call *) by apply lock_inv_handle.
  - (* install *) by apply lock_inv_install.
  - (* join *) by apply lock_inv_join.
  - (* the leader's dispatch returns *)
    pose proof (inv_leader_lock _ Hinv _ _ l H eq_refl) as Hl. simpl in Hl.
    eapply (lock_inv_leader_write s _ t _ _ l); [exact Hinv|eassumption|
      done| |reflexivity|reflexivity|reflexivity|reflexivity|reflexivity|
      reflexivity|].
    + intros lk0 ?. by simplify_eq.
    + simpl. by simplify_eq.
  - (* the leader's dispatch panics *)
    eapply lock_inv_move; [exact Hinv|eassumption|reflexivity..|]. done.
  - (* delete *) by apply lock_inv_delete.
  - (* close *)
    pose proof (inv_leader_lock _ Hinv _ _ l H eq_refl) as Hl. simpl in Hl.
    eapply (lock_inv_leader_write s _ t _ _ l); [exact Hinv|eassumption|
      done| |reflexivity|reflexivity|reflexivity|reflexivity|reflexivity|
      reflexivity|].
    + intros lk0 ?. by simplify_eq.
    + simpl. simplify_eq. by destruct ret.
  - (* close of a closed channel: does not happen *)
    pose proof (inv_leader_lock _ Hinv _ _ l H eq_refl) as Hl. simpl in Hl.
    simplify_eq. by destruct ret.
  - eapply lock_inv_move; [exact Hinv|eassumption|reflexivity..|]. done.
  - eapply lock_inv_move; [exact Hinv|eassumption|reflexivity..|].
    intros; simplify_eq. eauto.
  - eapply lock_inv_move; [exact Hinv|eassumption|reflexivity..|]. done.
  - eapply lock_inv_move; [exact Hinv|eassumption|reflexivity..|]. done.
  - eapply lock_inv_move; [exact Hinv|eassumption|reflexivity..|]. done.
Qed.

(** ** Executions *)

Lemma run_app h s evs1 evs2 :
  run h s (evs1 ++ evs2) = s1 ← run h s evs1; run h s1 evs2.
Proof.
  revert s. induction evs1 as [|e evs1 IH]; intros s; simpl; [done|].
  destruct (step h s e) as [s1|]; simpl; [apply IH|done].
Qed.

(** A property kept by every step holds along every execution. *)
Lemma run_invariant h (P : State Backend → Prop) :
  (∀ s e s', P s → step_spec h s e s' → P s') →
  ∀ evs s s', P s → run h s evs = Some s' → P s'.
Proof.
  intros Hstep. induction evs as [|e evs IH]; intros s s' HP Hrun;
    simpl in Hrun.
  - by simplify_eq.
  - destruct (step h s e) as [s1|] eqn:E; simpl in Hrun; [|done].
    eapply IH; [|done]. eapply Hstep; [done|]. by apply step_sound.
Qed.

Lemma run_lock_inv h s evs s' :
  lock_inv s → run h s evs = Some s' → lock_inv s'.
Proof. apply run_invariant. intros. by eapply lock_inv_step. Qed.

(** ** The record of dispatches *)

Lemma handleCacheEmpty_calls ctx req
    (proxies : gmap string (option (CacheEmptyProxy Backend))) order w o w' :
  range_order proxies order →
  handleCacheEmpty ctx req proxies order w = (o, w') →
  (has_usable proxies → ∃ name, calls w' = calls w ++ [(name, ctx, req)])
  ∧ (no_usable proxies → calls w' = calls w).
Proof.
  intros Ho Hd. split.
  - intros (name & p & Hl).
    destruct (range_entries_usable _ _ _ _ Ho Hl)
      as (nils & name' & p' & rest & Hs & Hn).
    unfold handleCacheEmpty in Hd. rewrite Hs, loop_first_usable in Hd by done.
    destruct (ProxyCacheEmpty p' ctx req (backend w)) as [o' b].
    simplify_eq. by exists name'.
  - intros Hno. rewrite handleCacheEmpty_no_usable in Hd by done.
    by simplify_eq.
Qed.

Lemma dispatch_inv_init h (b : Backend) : dispatch_inv h (init b).
Proof.
  constructor; simpl; try done.
  - constructor.
  - intros t. split; [by intros ?%elem_of_nil|].
    intros (pc & H & _). by rewrite lookup_empty in H.
  - intros t req ?%elem_of_nil. done.
Qed.

(** A step that makes no dispatch. *)
Lemma dispatch_inv_move h s s' t pc' :
  dispatch_inv h s →
  match threads s !! t with
  | Some pc => post_dispatch pc' = post_dispatch pc
               ∧ pc_channel pc' = pc_channel pc
  | None => post_dispatch pc' = false
  end →
  threads s' = <[t := pc']> (threads s) →
  dispatched s' = dispatched s →
  calls (world s') = calls (world s) →
  dispatch_inv h s'.
Proof.
  intros [D1 D2 D3 D4 D5] Hpc Hth Hd Hw.
  constructor; rewrite ?Hd, ?Hw; try done.
  - intros t0. rewrite D2, Hth. destruct (decide (t0 = t)) as [->|Hne].
    + rewrite lookup_insert_eq. destruct (threads s !! t) as [pc|].
      * destruct Hpc as [Hp _]. split; intros (pc0 & ? & ?); simplify_eq;
          eexists; split; try done; congruence.
      * split; intros (pc0 & ? & ?); simplify_eq. congruence.
    + by rewrite lookup_insert_ne.
  - intros t0 req Hin. destruct (D3 _ _ Hin) as (pc0 & H0 & ->).
    rewrite Hth. destruct (decide (t0 = t)) as [->|Hne].
    + rewrite lookup_insert_eq. rewrite H0 in Hpc. destruct Hpc as [_ Hc].
      exists pc'. by rewrite Hc.
    + exists pc0. by rewrite lookup_insert_ne.
Qed.

(** A step that makes a dispatch. *)
Lemma dispatch_inv_dispatch h s s' t pc pc' order o w :
  dispatch_inv h s →
  threads s !! t = Some pc →
  post_dispatch pc = false → post_dispatch pc' = true →
  pc_channel pc' = pc_channel pc →
  range_order (proxies h) order →
  handleCacheEmpty (pc_ctx pc) {| Channel := pc_channel pc |} (proxies h)
    order (world s) = (o, w) →
  threads s' = <[t := pc']> (threads s) →
  dispatched s' = dispatched s ++ [(t, {| Channel := pc_channel pc |})] →
  world s' = w →
  dispatch_inv h s'.
Proof.
  intros [D1 D2 D3 D4 D5] Ht Hpre Hpost Hc Ho Hh Hth Hd Hw.
  destruct (handleCacheEmpty_calls _ _ _ _ _ _ _ Ho Hh) as [Hu Hn].
  assert (t ∉ (dispatched s).*1) as Hnot.
  { rewrite D2. intros (pc0 & ? & ?). simplify_eq. congruence. }
  constructor; rewrite ?Hd, ?Hw, ?fmap_app; simpl.
  - apply NoDup_app. split; [done|]. split; [|apply NoDup_singleton].
    intros t0 H0 ->%list_elem_of_singleton. done.
  - intros t0. rewrite elem_of_app, list_elem_of_singleton, D2, Hth.
    destruct (decide (t0 = t)) as [->|Hne].
    + rewrite lookup_insert_eq. split; [eauto|]. by right.
    + rewrite lookup_insert_ne by done. split; [|by left].
      by intros [?|?].
  - intros t0 req [Hin|[= -> ->]%list_elem_of_singleton]%elem_of_app.
    + destruct (D3 _ _ Hin) as (pc0 & H0 & ->). rewrite Hth.
      assert (t0 ≠ t) as Hne.
      { intros ->. apply Hnot. apply list_elem_of_fmap. by eexists (_, _). }
      exists pc0. by rewrite lookup_insert_ne.
    + exists pc'. rewrite Hth, lookup_insert_eq. by rewrite Hc.
  - intros Hus. destruct (Hu Hus) as [name ->]. rewrite fmap_app. simpl.
    by rewrite D4.
  - intros Hno. rewrite (Hn Hno). by apply D5.
Qed.

Lemma dispatch_inv_step h s e s' :
  dispatch_inv h s → step_spec h s e s' → dispatch_inv h s'.
Proof.
  intros Hinv Hstep. destruct Hstep;
    try (eapply (dispatch_inv_move h s _ t); [exact Hinv| |reflexivity..];
         match goal with H : threads _ !! _ = _ |- _ => by rewrite H end).
  1-2: by (destruct Hinv; constructor).
  1-3: match goal with
       | |- dispatch_inv _ (set_pc _ ?pc' _) =>
           eapply (dispatch_inv_dispatch h s _ t _ pc');
             [exact Hinv|eassumption|reflexivity|reflexivity|reflexivity|
              eassumption|eassumption|reflexivity..]
       end.
Qed.

Lemma run_dispatch_inv h s evs s' :
  dispatch_inv h s → run h s evs = Some s' → dispatch_inv h s'.
Proof. apply run_invariant. intros. by eapply dispatch_inv_step. Qed.

End CoordinatorProperties.

(** * One channel's calls, from a state in which the channel is idle *)

Section Windows.

Context {Backend : Type}.

Implicit Types (s : State Backend) (h : CacheEmptyHandler Backend).
Implicit Types (pc : PC) (t : tid) (l : loc) (c : string).

Lemma pc_lock_role pc l :
  pc_lock pc = Some l → leader_of pc = Some l ∨ follower_of pc = Some l.
Proof. destruct pc as [| | | | | | |[]]; simpl; intros; simplify_eq; eauto. Qed.

(** ** What stays along an execution *)

Lemma evolves_refl pc : evolves pc pc.
Proof. by repeat split. Qed.

Lemma evolves_trans pc1 pc2 pc3 :
  evolves pc1 pc2 → evolves pc2 pc3 → evolves pc1 pc3.
Proof.
  intros (C1 & X1 & E1 & L1) (C2 & X2 & E2 & L2). repeat split.
  - congruence.
  - congruence.
  - intros He. pose proof (E1 He) as ->. by apply E2.
  - intros l Hl. by apply L2, L1.
Qed.

Lemma step_thread_stable h s e s' t pc :
  step_spec h s e s' → threads s !! t = Some pc →
  ∃ pc', threads s' !! t = Some pc' ∧ evolves pc pc'.
Proof.
  intros Hstep Ht. destruct Hstep; simpl;
    try (exists pc; split; [done|apply evolves_refl]);
    match goal with
    | |- context [<[?t1 := ?pc1]> _] =>
        destruct (decide (t = t1)) as [->|Hne];
          [exists pc1; rewrite lookup_insert_eq; simplify_eq;
           (split; [done|by repeat split])
          |exists pc; rewrite lookup_insert_ne by done;
           (split; [done|apply evolves_refl])]
    end.
Qed.

Lemma run_thread_stable h evs s s' t pc :
  run h s evs = Some s' → threads s !! t = Some pc →
  ∃ pc', threads s' !! t = Some pc' ∧ evolves pc pc'.
Proof.
  revert s pc. induction evs as [|e evs IH]; intros s pc Hrun Ht;
    simpl in Hrun.
  - simplify_eq. exists pc. split; [done|apply evolves_refl].
  - destruct (step h s e) as [s1|] eqn:E; simpl in Hrun; [|done].
    destruct (step_thread_stable _ _ _ _ _ _ (step_sound _ _ _ _ E) Ht)
      as (pc1 & H1 & E1).
    destruct (IH _ _ Hrun H1) as (pc' & H' & E'). exists pc'.
    split; [done|by eapply evolves_trans].
Qed.

Lemma new_call_stable h evs c s0 s s' t pc :
  run h s evs = Some s' → new_call c s0 s t pc →
  ∃ pc', new_call c s0 s' t pc' ∧ evolves pc pc'.
Proof.
  intros Hrun (H0 & Ht & Hc).
  destruct (run_thread_stable _ _ _ _ _ _ Hrun Ht) as (pc' & Ht' & Hev).
  exists pc'. split; [|done]. repeat split; try done.
  destruct Hev as (-> & _). done.
Qed.

Lemma now_step h s e s' : step_spec h s e s' → (now s ≤ now s')%Z.
Proof. destruct 1; simpl; lia. Qed.

Lemma ctxErr_step h s e s' ctx err :
  step_spec h s e s' → ctxErr s !! ctx = Some err →
  ctxErr s' !! ctx = Some err.
Proof.
  destruct 1; simpl; try done. intros Hc.
  rewrite lookup_insert_ne; [done|]. intros ->. congruence.
Qed.

Lemma dispatched_step h s e s' :
  step_spec h s e s' → ∃ d, dispatched s' = dispatched s ++ d.
Proof.
  destruct 1; simpl; try (exists []; by rewrite app_nil_r); by eexists.
Qed.

Lemma now_run h evs s s' : run h s evs = Some s' → (now s ≤ now s')%Z.
Proof.
  revert s. induction evs as [|e evs IH]; intros s Hrun; simpl in Hrun.
  - simplify_eq. lia.
  - destruct (step h s e) as [s1|] eqn:E; simpl in Hrun; [|done].
    pose proof (now_step _ _ _ _ (step_sound _ _ _ _ E)).
    specialize (IH _ Hrun). lia.
Qed.

Lemma ctxErr_run h evs s s' ctx err :
  run h s evs = Some s' → ctxErr s !! ctx = Some err →
  ctxErr s' !! ctx = Some err.
Proof.
  revert s. induction evs as [|e evs IH]; intros s Hrun Hc; simpl in Hrun.
  - by simplify_eq.
  - destruct (step h s e) as [s1|] eqn:E; simpl in Hrun; [|done].
    eapply IH; [done|]. by eapply ctxErr_step; [apply step_sound|].
Qed.

Lemma dispatched_run h evs s s' :
  run h s evs = Some s' → ∃ d, dispatched s' = dispatched s ++ d.
Proof.
  revert s. induction evs as [|e evs IH]; intros s Hrun; simpl in Hrun.
  - simplify_eq. exists []. by rewrite app_nil_r.
  - destruct (step h s e) as [s1|] eqn:E; simpl in Hrun; [|done].
    destruct (dispatched_step _ _ _ _ (step_sound _ _ _ _ E)) as [d1 H1].
    destruct (IH _ Hrun) as [d2 H2]. exists (d1 ++ d2).
    by rewrite H2, H1, app_assoc.
Qed.

(** ** Timers *)

Lemma quiet_run_back h c s0 evs s s' :
  run h s evs = Some s' → quiet h c s0 s' → quiet h c s0 s.
Proof.
  intros Hrun [Hn Hc]. split.
  - pose proof (now_run _ _ _ _ Hrun). lia.
  - intros t pc Hnew.
    destruct (new_call_stable _ _ _ _ _ _ _ _ Hrun Hnew)
      as (pc' & Hnew' & _ & Hx & _).
    specialize (Hc _ _ Hnew'). rewrite Hx in Hc.
    destruct (ctxErr s !! pc_ctx pc) as [err|] eqn:E; [|done].
    by rewrite (ctxErr_run _ _ _ _ _ _ Hrun E) in Hc.
Qed.

Lemma timer_inv_start h c s0 : timer_inv h c s0 s0.
Proof.
  constructor; [lia|intros * (H0 & H1 & _); congruence..].
Qed.

Lemma timer_inv_step h c s0 s e s' :
  timer_inv h c s0 s → step_spec h s e s' → quiet h c s0 s →
  timer_inv h c s0 s'.
Proof.
  intros [T1 T2 T3] Hstep [Hq1 Hq2]. unfold new_call in *.
  destruct Hstep; constructor; unfold new_call in *; simpl in *;
    try done; try lia;
    try (intros t9 ctx9 c9 l9 d9
           (Hnew & [[<- ?]|[_ Hold]]%lookup_insert_Some & Hc0);
         simplify_eq; try lia; by (eapply T2; eauto));
    try (intros t0 pc0 (Hnew & [[<- <-]|[_ Hold]]%lookup_insert_Some & Hc0);
         [done|by (eapply T3; eauto)]).
  - intros t0 pc0 (Hnew & [[<- <-]|[_ Hold]]%lookup_insert_Some & Hc0);
      [|by (eapply T3; eauto)].
    match goal with H : threads s !! _ = Some _ |- _ =>
      pose proof (T2 _ _ _ _ _ (conj Hnew (conj H Hc0))) end. lia.
  - intros t0 pc0 (Hnew & [[<- <-]|[_ Hold]]%lookup_insert_Some & Hc0);
      [|by (eapply T3; eauto)].
    match goal with H : threads s !! _ = Some _ |- _ =>
      pose proof (Hq2 _ _ (conj Hnew (conj H Hc0))) as Hq end.
    simpl in Hq. congruence.
  - intros t0 pc0 (Hnew & [[<- <-]|[_ Hold]]%lookup_insert_Some & Hc0);
      [|by (eapply T3; eauto)].
    match goal with H : threads s !! _ = Some _ |- _ =>
      by pose proof (T3 _ _ (conj Hnew (conj H Hc0))) end.
Qed.

Lemma timer_inv_run h c s0 evs s s' :
  timer_inv h c s0 s → run h s evs = Some s' → quiet h c s0 s' →
  timer_inv h c s0 s'.
Proof.
  revert s. induction evs as [|e evs IH]; intros s Hinv Hrun Hq.
  - simpl in Hrun. by simplify_eq.
  - pose proof (quiet_run_back _ _ _ _ _ _ Hrun Hq) as Hq0.
    simpl in Hrun.
    destruct (step h s e) as [s1|] eqn:E; simpl in Hrun; [|done].
    eapply IH; [|done|done].
    eapply timer_inv_step; [done|by apply step_sound|done].
Qed.

(** ** The lock the new calls hold *)

Lemma hold_current_start c s0 : hold_current c s0 s0.
Proof. intros t pc l (H0 & H1 & _). congruence. Qed.

(** As long as no leader for [c] removes the entry, the new calls for [c]
    all hold the lock in the map. *)
Lemma hold_current_step h s0 s e s' c :
  hold_current c s0 s → step_spec h s e s' →
  (∀ t pc, e = EvLeaderDelete t → threads s !! t = Some pc →
           pc_channel pc ≠ c) →
  hold_current c s0 s'.
Proof.
  intros W Hstep Hno. unfold hold_current, new_call in *.
  destruct Hstep; simpl in *; try done;
    intros t9 pc9 l9 (Hnew & [[<- <-]|[Hne Hold]]%lookup_insert_Some & C9) L9;
    simpl in *; simplify_eq;
    try (by (eapply W; eauto));
    try (match goal with H : threads s !! _ = Some _ |- _ =>
           by (eapply (W _ _ _ (conj Hnew (conj H eq_refl)))) end).
  - by rewrite lookup_insert_eq.
  - pose proof (W _ _ _ (conj Hnew (conj Hold eq_refl)) L9) as Hm.
    rewrite lookup_insert_ne; [done|]. intros ->. congruence.
  - done.
  - match goal with H : threads s !! _ = Some (AtDelete _ _ _ _) |- _ =>
      by specialize (Hno _ _ eq_refl H eq_refl) end.
  - rewrite lookup_delete_ne; [by (eapply W; eauto)|]. intros ->.
    match goal with H : threads s !! _ = Some (AtDelete _ _ _ _) |- _ =>
      by specialize (Hno _ _ eq_refl H eq_refl) end.
Qed.

Lemma hold_current_run h evs s0 s s' c :
  hold_current c s0 s → run h s evs = Some s' →
  none_by c s' EvLeaderDelete evs →
  hold_current c s0 s'.
Proof.
  revert s. induction evs as [|e evs IH]; intros s W Hrun Hno;
    simpl in Hrun.
  - by simplify_eq.
  - destruct (step h s e) as [s1|] eqn:E; simpl in Hrun; [|done].
    eapply IH; [|done|].
    + eapply hold_current_step; [done|by apply step_sound|].
      intros t pc -> Ht Hc.
      destruct (step_thread_stable _ _ _ _ _ _ (step_sound _ _ _ _ E) Ht)
        as (pc1 & H1 & C1 & _).
      destruct (run_thread_stable _ _ _ _ _ _ Hrun H1) as (pc' & H' & C' & _).
      eapply (Hno t pc'); [done|congruence|left].
    + intros t pc Ht Hc Hin. eapply Hno; [done..|by right].
Qed.

(** As long as no call for [c] runs [getOrCreateLock], the new calls for
    [c] keep the locks they hold. *)
Lemma hold_lock_step h s0 s e s' c lk :
  hold_lock c s0 lk s → step_spec h s e s' →
  (∀ t pc, e = EvGetOrCreateLock t → threads s !! t = Some pc →
           pc_channel pc ≠ c) →
  hold_lock c s0 lk s'.
Proof.
  intros W Hstep Hno. unfold hold_lock, new_call in *.
  destruct Hstep; simpl in *; try done;
    intros t9 pc9 l9 (Hnew & [[<- <-]|[Hne Hold]]%lookup_insert_Some & C9) L9;
    simpl in *; simplify_eq;
    try (by (eapply W; eauto));
    try (match goal with H : threads s !! _ = Some _ |- _ =>
           by (eapply (W _ _ _ (conj Hnew (conj H eq_refl)))) end).
  all: match goal with H : threads _ !! _ = Some (AtEntry _ _) |- _ =>
         by specialize (Hno _ _ eq_refl H eq_refl) end.
Qed.

Lemma hold_lock_run h evs s0 s s' c l :
  hold_lock c s0 l s → run h s evs = Some s' →
  none_by c s' EvGetOrCreateLock evs →
  hold_lock c s0 l s'.
Proof.
  revert s. induction evs as [|e evs IH]; intros s W Hrun Hno;
    simpl in Hrun.
  - by simplify_eq.
  - destruct (step h s e) as [s1|] eqn:E; simpl in Hrun; [|done].
    eapply IH; [|done|].
    + eapply hold_lock_step; [done|by apply step_sound|].
      intros t pc -> Ht Hc.
      destruct (step_thread_stable _ _ _ _ _ _ (step_sound _ _ _ _ E) Ht)
        as (pc1 & H1 & C1 & _).
      destruct (run_thread_stable _ _ _ _ _ _ Hrun H1) as (pc' & H' & C' & _).
      eapply (Hno t pc'); [done|congruence|left].
    + intros t pc Ht Hc Hin. eapply Hno; [done..|by right].
Qed.

(** The calls for [c] of the idle state are over and stay as they are; any
    other call for [c] is a new one. *)
Lemma call_new_or_old h evs c s0 s t pc :
  idle c s0 → run h s0 evs = Some s →
  threads s !! t = Some pc → pc_channel pc = c →
  new_call c s0 s t pc ∨ (threads s0 !! t = Some pc ∧ exited pc = true).
Proof.
  intros Hidle Hrun Ht Hc.
  destruct (threads s0 !! t) as [pc0|] eqn:E0; [right|by left].
  destruct (run_thread_stable _ _ _ _ _ _ Hrun E0)
    as (pc' & Ht' & C' & _ & X' & _).
  simplify_eq. assert (exited pc0 = true) as Hex.
  { apply (Hidle _ _ E0). congruence. }
  specialize (X' Hex). by subst pc.
Qed.

(** ** Counting the dispatches for one channel *)

Lemma requests_for_none (d : list (tid * NotifyCacheEmptyRequest)) c :
  (∀ t req, (t, req) ∈ d → Channel req ≠ c) → requests_for c d.*2 = [].
Proof.
  unfold requests_for. induction d as [|[t req] d IH]; intros Hd; [done|].
  simpl. rewrite filter_cons_False.
  - apply IH. intros t' req' Hin. apply (Hd t'). by right.
  - apply (Hd t). left.
Qed.

Lemma requests_for_one (d : list (tid * NotifyCacheEmptyRequest)) t0 c :
  NoDup d.*1 → t0 ∈ d.*1 →
  (∀ t req, (t, req) ∈ d → Channel req = c ↔ t = t0) →
  requests_for c d.*2 = [{| Channel := c |}].
Proof.
  unfold requests_for. induction d as [|[t req] d IH]; intros Hnd Hin Hd.
  - by apply elem_of_nil in Hin.
  - rewrite fmap_cons in Hnd, Hin. rewrite fmap_cons. cbn [fst snd] in *.
    apply NoDup_cons in Hnd as [Hnot Hnd].
    destruct (decide (t = t0)) as [->|Hne].
    + assert (Channel req = c) as Hc by (apply (Hd t0); [left|done]).
      rewrite filter_cons_True by done.
      assert (requests_for c d.*2 = []) as Hz.
      { apply requests_for_none. intros t' req' Hin' Hc'. apply Hnot.
        assert (t' = t0) as <- by (apply (Hd t' req'); [by right|done]).
        apply list_elem_of_fmap. by exists (t', req'). }
      unfold requests_for in Hz. rewrite Hz.
      destruct req. simpl in Hc. by subst.
    + rewrite filter_cons_False.
      * apply IH; [done| |].
        -- apply elem_of_cons in Hin as [?|?]; [congruence|done].
        -- intros t' req' Hin'. apply Hd. by right.
      * intros Hc. apply Hne. apply (Hd t req); [left|done].
Qed.

Lemma requests_for_app c reqs1 reqs2 :
  requests_for c (reqs1 ++ reqs2)
  = requests_for c reqs1 ++ requests_for c reqs2.
Proof. apply filter_app. Qed.

(** From an idle state on, the one new call for [c] that has dispatched
    accounts for the one new dispatch for [c]. *)
Lemma window_dispatches h evs c s0 s t0 pc0 :
  idle c s0 → run h s0 evs = Some s →
  dispatch_inv h s0 → dispatch_inv h s →
  new_call c s0 s t0 pc0 → post_dispatch pc0 = true →
  (∀ t pc, new_call c s0 s t pc → post_dispatch pc = true → t = t0) →
  dispatches_for c s = dispatches_for c s0 ++ [{| Channel := c |}].
Proof.
  intros Hidle Hrun HD0 [D1 D2 D3 _ _] (Hn0 & Ht0 & Hc0) Hp0 Honly.
  destruct (dispatched_run _ _ _ _ Hrun) as [d Hd].
  unfold dispatches_for. rewrite Hd, fmap_app, requests_for_app. f_equal.
  rewrite Hd, fmap_app in D1. apply NoDup_app in D1 as (_ & Hdisj & Hndd).
  assert (t0 ∉ (dispatched s0).*1) as Hnot0.
  { intros Hin. apply (inv_disp_threads _ _ HD0) in Hin as (pc & ? & _).
    congruence. }
  apply (requests_for_one _ t0); [done| |].
  - assert (t0 ∈ (dispatched s).*1) as Hin by (apply D2; eauto).
    rewrite Hd, fmap_app in Hin. by apply elem_of_app in Hin as [?|?].
  - intros t req Hin.
    assert ((t, req) ∈ dispatched s) as Hin'.
    { rewrite Hd. apply elem_of_app. by right. }
    destruct (D3 _ _ Hin') as (pc & Ht & ->). simpl. split.
    + intros Hc.
      assert (post_dispatch pc = true) as Hp.
      { assert (t ∈ (dispatched s).*1) as Hi.
        { apply list_elem_of_fmap. by eexists (_, _). }
        apply D2 in Hi as (pc' & ? & ?). by simplify_eq. }
      destruct (call_new_or_old _ _ _ _ _ _ _ Hidle Hrun Ht Hc)
        as [Hnew|[Hold _]].
      * by eapply Honly.
      * exfalso. apply (Hdisj t).
        -- apply (inv_disp_threads _ _ HD0). eauto.
        -- apply list_elem_of_fmap. by eexists (_, _).
    + intros ->. by simplify_eq.
Qed.

End Windows.

(** * How far a call has come, and how the calls of one lock wind up *)

Section Progress.

Context {Backend : Type}.

Implicit Types (s : State Backend) (h : CacheEmptyHandler Backend).
Implicit Types (pc : PC) (t : tid) (l : loc) (c : string).

(** A step leaves a call where it is or takes it further. *)
Lemma step_pc_progress h s e s' t pc :
  step_spec h s e s' → threads s !! t = Some pc →
  ∃ pc', threads s' !! t = Some pc'
         ∧ (pc' = pc ∨ steps_left pc' < steps_left pc).
Proof.
  intros Hstep Ht. destruct Hstep; simpl;
    try (exists pc; split; [done|by left]);
    match goal with
    | |- context [<[?t1 := ?pc1]> _] =>
        destruct (decide (t = t1)) as [->|Hne];
          [exists pc1; rewrite lookup_insert_eq; simplify_eq;
           (split; [done|right; simpl; lia])
          |exists pc; rewrite lookup_insert_ne by done;
           (split; [done|by left])]
    end.
Qed.

(** A follower found in [select] is there since it started its timer: the
    deadline is the one it set. *)
Lemma armed_deadline h evs s s' t ctx c l d0 ctx' c' l' d :
  threads s !! t = Some (AtSelect ctx c l d0) →
  run h s evs = Some s' →
  threads s' !! t = Some (AtSelect ctx' c' l' d) →
  d = d0.
Proof.
  intros Ht Hrun Ht'.
  assert (∃ pc, threads s' !! t = Some pc
                ∧ (pc = AtSelect ctx c l d0 ∨ steps_left pc < 2))
    as (pc & Hpc & [->|Hlt]).
  { apply (run_invariant h
             (λ s, ∃ pc, threads s !! t = Some pc
                         ∧ (pc = AtSelect ctx c l d0 ∨ steps_left pc < 2)))
      with (evs := evs) (s := s); [|by eauto|done].
    clear. intros s e s' (pc & Ht & Hq) Hstep.
    destruct (step_pc_progress _ _ _ _ _ _ Hstep Ht) as (pc' & Ht' & Hp).
    exists pc'. split; [done|].
    destruct Hp as [->|Hlt]; [done|]. right.
    destruct Hq as [->|Hq]; simpl in *; lia. }
  - by simplify_eq.
  - simplify_eq. simpl in Hlt. lia.
Qed.

End Progress.

(** * Winding up *)

Section WindUp.

Context {Backend : Type}.

Implicit Types (s : State Backend) (h : CacheEmptyHandler Backend).
Implicit Types (pc : PC) (t : tid) (l : loc) (c : string).

Lemma usable_or_not
    (proxies : gmap string (option (CacheEmptyProxy Backend))) :
  has_usable proxies ∨ no_usable proxies.
Proof.
  destruct (entries_cases (map_to_list proxies))
    as [Hall|(nils & name & p & rest & Hs & _)].
  - right. intros name v Hv. apply elem_of_map_to_list in Hv.
    rewrite Forall_forall in Hall. exact (Hall _ Hv).
  - left. exists name, p. apply elem_of_map_to_list. rewrite Hs.
    apply elem_of_app. right. left.
Qed.

Lemma run_cons h s e s1 evs s2 :
  step h s e = Some s1 → run h s1 evs = Some s2 →
  run h s (e :: evs) = Some s2.
Proof. intros H1 H2. simpl. by rewrite H1. Qed.

(** From an idle state on, as long as no new call for [c] has dispatched,
    there is no new dispatch for [c]. *)
Lemma window_no_dispatch h evs c s0 s :
  idle c s0 → run h s0 evs = Some s →
  dispatch_inv h s0 → dispatch_inv h s →
  (∀ t pc, new_call c s0 s t pc → post_dispatch pc = false) →
  dispatches_for c s = dispatches_for c s0.
Proof.
  intros Hidle Hrun HD0 [D1 D2 D3 _ _] Hnone.
  destruct (dispatched_run _ _ _ _ Hrun) as [d Hd].
  unfold dispatches_for. rewrite Hd, fmap_app, requests_for_app.
  rewrite (requests_for_none d c); [by rewrite app_nil_r|].
  intros t req Hin Hc.
  assert ((t, req) ∈ dispatched s) as Hin'.
  { rewrite Hd. apply elem_of_app. by right. }
  destruct (D3 _ _ Hin') as (pc & Ht & ->). simpl in Hc.
  assert (post_dispatch pc = true) as Hp.
  { assert (t ∈ (dispatched s).*1) as Hi.
    { apply list_elem_of_fmap. by eexists (_, _). }
    apply D2 in Hi as (pc' & ? & ?). by simplify_eq. }
  destruct (call_new_or_old _ _ _ _ _ _ _ Hidle Hrun Ht Hc)
    as [Hnew|[Hold _]].
  - rewrite (Hnone _ _ Hnew) in Hp. done.
  - rewrite Hd, fmap_app in D1. apply NoDup_app in D1 as (_ & Hdisj & _).
    apply (Hdisj t).
    + apply (inv_disp_threads _ _ HD0). eauto.
    + apply list_elem_of_fmap. by eexists (_, _).
Qed.

(** While no timer has fired and no context is done, the new calls for [c]
    other than the leader of their lock wait for its signal or were woken by
    it. *)
Lemma window_shape h c s0 s l t0 pc0 :
  lock_inv s → timer_inv h c s0 s → hold_lock c s0 l s →
  new_call c s0 s t0 pc0 → leader_of pc0 = Some l →
  (∀ t pc, new_call c s0 s t pc → is_Some (pc_lock pc)) →
  ∀ t pc, new_call c s0 s t pc → t ≠ t0 → follows l pc = true.
Proof.
  intros [I1 I2 I3 I4 I5 I6] [T1 T2 T3] W Hn0 Hl0 Hlock t pc Hn Hne.
  destruct (Hlock _ _ Hn) as [l' Hl'].
  assert (l' = l) as -> by by eapply W.
  specialize (T3 _ _ Hn).
  destruct Hn0 as (_ & Ht0 & _). pose proof Hn as (_ & Ht & _).
  assert (leader_of pc = Some l → False) as Hnl.
  { intros Hl. apply Hne. by eapply (I3 _ _ _ _ l Ht Ht0). }
  destruct pc as [| | | | | | |[]]; simpl in *; simplify_eq; try done;
    by rewrite bool_decide_eq_true_2.
Qed.

(** What a call of a lock returned is what the leader of the lock left on
    it. *)
Lemma window_pair s l t0 pc0 t pc re :
  lock_inv s → threads s !! t0 = Some pc0 → leader_of pc0 = Some l →
  threads s !! t = Some pc → t = t0 ∨ follows l pc = true →
  returned pc = Some re →
  ∃ ctx0 o, pc0 = Exited ExitLeader ctx0 (pc_channel pc0) l o
            ∧ re = (result (stored o true), err (stored o true)).
Proof.
  intros [I1 I2 I3 I4 I5 I6] Ht0 Hl0 Ht [->|Hf] Hret.
  - assert (pc0 = pc) as -> by congruence.
    destruct pc as [| | | | | | |[] ctx c l' [r e|]]; simpl in *;
      simplify_eq. by exists ctx, (Returns r e).
  - destruct pc as [| | | | | | |[] ctx c l' [r e|]]; simpl in *;
      simplify_eq. apply bool_decide_eq_true_1 in Hf as ->.
    destruct (I6 _ _ _ _ _ Ht) as (lk & Hlk & Hdone & [= -> ->]).
    pose proof (I4 _ _ l Ht0 Hl0) as Hx. rewrite Hlk in Hx.
    destruct pc0 as [| |? ? ? o|? ? ? o| | | |[] ctx0 c0 ? o];
      simpl in *; simplify_eq; try (by destruct o).
    exists ctx0, o. by split.
Qed.

Lemma leader_closes h s t0 ctx c l o :
  lock_inv s → threads s !! t0 = Some (AtClose ctx c l o) →
  ∃ s', step h s (EvLeaderClose t0) = Some s'
        ∧ threads s' !! t0 = Some (Exited ExitLeader ctx c l o)
        ∧ (∀ t, t ≠ t0 → threads s' !! t = threads s !! t)
        ∧ heap s' !! l = Some (stored o true)
        ∧ now s' = now s.
Proof.
  intros HL Ht.
  pose proof (inv_leader_lock _ HL _ _ l Ht eq_refl) as Hlk. simpl in Hlk.
  eexists. split.
  { apply step_complete. eapply SpecLeaderClose; [done..|]. by destruct o. }
  simpl. rewrite !lookup_insert_eq. split; [done|]. split.
  - intros t Hne. by rewrite lookup_insert_ne.
  - by destruct o.
Qed.

Lemma leader_deletes h s t0 ctx c l o :
  lock_inv s → threads s !! t0 = Some (AtDelete ctx c l o) →
  ∃ s', run h s [EvLeaderDelete t0; EvLeaderClose t0] = Some s'
        ∧ threads s' !! t0 = Some (Exited ExitLeader ctx c l o)
        ∧ (∀ t, t ≠ t0 → threads s' !! t = threads s !! t)
        ∧ heap s' !! l = Some (stored o true)
        ∧ now s' = now s.
Proof.
  intros HL Ht.
  set (s1 := set_pc t0 (AtClose ctx c l o)
               (set_channelLocks (delete c (channelLocks s)) s)).
  assert (step_spec h s (EvLeaderDelete t0) s1) as H1
    by by eapply SpecLeaderDelete.
  pose proof (lock_inv_step _ _ _ _ HL H1) as HL1.
  assert (threads s1 !! t0 = Some (AtClose ctx c l o)) as Ht1
    by apply lookup_insert_eq.
  destruct (leader_closes h s1 t0 ctx c l o HL1 Ht1)
    as (s' & Hs' & Hpc & Hoth & Hhp & Hnow).
  exists s'. split.
  { eapply run_cons; [by apply step_complete|].
    eapply run_cons; [exact Hs'|reflexivity]. }
  split; [done|]. split; [|done].
  intros t Hne. rewrite (Hoth t Hne). simpl. by rewrite lookup_insert_ne.
Qed.

Lemma leader_dispatches h s order t0 ctx c l :
  lock_inv s → threads s !! t0 = Some (AtDispatch ctx c l) →
  range_order (proxies h) order →
  ∃ s' o,
    run h s [EvLeaderDispatch t0 order; EvLeaderDelete t0; EvLeaderClose t0]
    = Some s'
    ∧ threads s' !! t0 = Some (Exited ExitLeader ctx c l o)
    ∧ (∀ t, t ≠ t0 → threads s' !! t = threads s !! t)
    ∧ heap s' !! l = Some (stored o true)
    ∧ now s' = now s.
Proof.
  intros HL Ht Ho.
  pose proof (inv_leader_lock _ HL _ _ l Ht eq_refl) as Hlk. simpl in Hlk.
  assert (∃ s1 o, step_spec h s (EvLeaderDispatch t0 order) s1
                  ∧ threads s1 !! t0 = Some (AtDelete ctx c l o)
                  ∧ (∀ t, t ≠ t0 → threads s1 !! t = threads s !! t)
                  ∧ now s1 = now s) as (s1 & o & H1 & Ht1 & Hoth1 & Hnow1).
  { destruct (handleCacheEmpty ctx {| Channel := c |} (proxies h) order
                (world s)) as [[r e|] w] eqn:Hd.
    - eexists _, (Returns r e). split; [by eapply SpecLeaderReturns|].
      simpl. rewrite lookup_insert_eq. split; [done|]. split; [|done].
      intros t Hne. by rewrite lookup_insert_ne.
    - eexists _, Panics. split; [by eapply SpecLeaderPanics|].
      simpl. rewrite lookup_insert_eq. split; [done|]. split; [|done].
      intros t Hne. by rewrite lookup_insert_ne. }
  pose proof (lock_inv_step _ _ _ _ HL H1) as HL1.
  destruct (leader_deletes h s1 t0 ctx c l o HL1 Ht1)
    as (s' & Hs' & Hpc & Hoth & Hhp & Hnow).
  exists s', o. split.
  { eapply run_cons; [by apply step_complete|done]. }
  split; [done|]. split; [|split; [done|congruence]].
  intros t Hne. by rewrite (Hoth t Hne), (Hoth1 t Hne).
Qed.

(** The leader of a lock can always take its remaining steps in a row; then
    it is over and its lock is signalled. *)
Lemma leader_winds_up h s order t0 pc0 l :
  lock_inv s → threads s !! t0 = Some pc0 → leader_of pc0 = Some l →
  range_order (proxies h) order →
  ∃ s' o,
    run h s (leader_rest order t0 pc0) = Some s'
    ∧ threads s' !! t0
      = Some (Exited ExitLeader (pc_ctx pc0) (pc_channel pc0) l o)
    ∧ (∀ t, t ≠ t0 → threads s' !! t = threads s !! t)
    ∧ heap s' !! l = Some (stored o true)
    ∧ now s' = now s.
Proof.
  intros HL Ht Hl Ho.
  destruct pc0 as [|ctx c l'|ctx c l' o|ctx c l' o| | | |[] ctx c l' o];
    simpl in Hl; simplify_eq; cbn [leader_rest pc_ctx pc_channel].
  - by apply leader_dispatches.
  - destruct (leader_deletes h s t0 ctx c l o HL Ht) as (s' & H).
    by exists s', o.
  - destruct (leader_closes h s t0 ctx c l o HL Ht) as (s' & Hs' & H).
    exists s', o. split; [|done]. eapply run_cons; [exact Hs'|reflexivity].
  - exists s, o. split; [done|]. split; [done|]. split; [done|].
    split; [|done]. by rewrite (inv_leader_lock _ HL _ _ l Ht eq_refl).
Qed.

Lemma leader_rest_nil l l' t pc :
  leader_of pc = Some l' → follower_rest l t pc = [].
Proof. by destruct pc as [| | | | | | |[]]. Qed.

Lemma woken_channel l lk pc : pc_channel (woken l lk pc) = pc_channel pc.
Proof. destruct pc; simpl; try done; by case_decide. Qed.

Lemma follows_no_dispatch l pc : follows l pc = true → post_dispatch pc = false.
Proof. by destruct pc as [| | | | | | |[]]. Qed.

Lemma follower_rest_woken l lk t pc :
  follower_rest l t pc = [] → woken l lk pc = pc.
Proof. destruct pc; simpl; try done; by case_decide. Qed.

(** A waiting follower of a lock that is signalled can take its remaining
    steps in a row, and returns what is on the lock. *)
Lemma follower_wakes h s l lk t pc :
  threads s !! t = Some pc → heap s !! l = Some lk → done lk = true →
  ∃ s', run h s (follower_rest l t pc) = Some s'
        ∧ threads s' !! t = Some (woken l lk pc)
        ∧ (∀ t', t' ≠ t → threads s' !! t' = threads s !! t')
        ∧ heap s' = heap s ∧ now s' = now s.
Proof.
  intros Ht Hlk Hdone.
  destruct pc as [| | | |ctx c l'|ctx c l' d| |]; simpl;
    try (by exists s); (case_decide as Hl; [subst l'|by exists s]).
  - set (s1 := set_pc t (AtSelect ctx c l (now s + lockTimeout h)%Z) s).
    assert (step_spec h s (EvNewTimer t) s1) as H1 by by eapply SpecNewTimer.
    assert (threads s1 !! t = Some (AtSelect ctx c l (now s + lockTimeout h)%Z))
      as Ht1 by apply lookup_insert_eq.
    eexists. split.
    { eapply run_cons; [by apply step_complete|].
      eapply run_cons; [|reflexivity].
      apply step_complete. by eapply SpecSelectDone. }
    simpl. rewrite lookup_insert_eq. split; [done|]. split; [|done].
    intros t' Hne. by rewrite !lookup_insert_ne.
  - eexists. split.
    { eapply run_cons; [|reflexivity].
      apply step_complete. by eapply SpecSelectDone. }
    simpl. rewrite lookup_insert_eq. split; [done|]. split; [|done].
    intros t' Hne. by rewrite lookup_insert_ne.
Qed.

Lemma followers_wake h l lk (fs : list (tid * PC)) :
  NoDup fs.*1 →
  ∀ s, heap s !! l = Some lk → done lk = true →
    (∀ t pc, (t, pc) ∈ fs → follower_rest l t pc ≠ [] →
             threads s !! t = Some pc) →
    ∃ s', run h s (concat ((λ tp, follower_rest l tp.1 tp.2) <$> fs))
          = Some s'
          ∧ heap s' = heap s ∧ now s' = now s
          ∧ (∀ t pc, (t, pc) ∈ fs → follower_rest l t pc ≠ [] →
                     threads s' !! t = Some (woken l lk pc))
          ∧ (∀ t, (∀ pc, (t, pc) ∈ fs → follower_rest l t pc = []) →
                  threads s' !! t = threads s !! t).
Proof.
  induction fs as [|[t pc] fs IH]; intros Hnd s Hlk Hdone Hfs.
  - exists s. split; [done|]. split; [done|]. split; [done|]. split; [|done].
    intros t pc Hin. by apply elem_of_nil in Hin.
  - rewrite fmap_cons in Hnd. apply NoDup_cons in Hnd as [Hnot Hnd].
    rewrite fmap_cons. cbn [concat fst snd]. rewrite run_app.
    destruct (decide (follower_rest l t pc = [])) as [Hnil|Hsome].
    + rewrite Hnil. simpl.
      destruct (IH Hnd s Hlk Hdone) as (s' & Hrun & Hhp & Hnow & Hw & Hk).
      { intros t' pc' Hin. apply Hfs. by right. }
      exists s'. split; [done|]. split; [done|]. split; [done|]. split.
      * intros t' pc' [[= -> ->]|Hin]%elem_of_cons Hr; [done|by apply Hw].
      * intros t' Ht'. apply Hk. intros pc' Hin. apply Ht'. by right.
    + assert (threads s !! t = Some pc) as Ht by (apply Hfs; [left|done]).
      destruct (follower_wakes h s l lk t pc Ht Hlk Hdone)
        as (s1 & Hrun1 & Ht1 & Hoth1 & Hhp1 & Hnow1).
      rewrite Hrun1. simpl.
      destruct (IH Hnd s1) as (s' & Hrun & Hhp & Hnow & Hw & Hk);
        [congruence|done| |].
      { intros t' pc' Hin Hr. rewrite Hoth1; [apply Hfs; [by right|done]|].
        intros ->. apply Hnot, list_elem_of_fmap. by exists (t, pc'). }
      exists s'. split; [done|]. split; [congruence|]. split; [congruence|].
      split.
      * intros t' pc' [[= -> ->]|Hin]%elem_of_cons Hr; [|by apply Hw].
        rewrite Hk; [done|]. intros pc' Hin. destruct Hnot.
        apply list_elem_of_fmap. by exists (t, pc').
      * intros t' Ht'. assert (t' ≠ t) as Hne.
        { intros ->. by apply Hsome, Ht'; left. }
        rewrite Hk; [by apply Hoth1|]. intros pc' Hin. apply Ht'. by right.
Qed.

(** The calls of a lock wind up: the leader finishes and the followers that
    wait receive the signal, without any time passing. *)
Lemma wind_up_runs h s order t0 pc0 l :
  lock_inv s → threads s !! t0 = Some pc0 → leader_of pc0 = Some l →
  range_order (proxies h) order →
  ∃ s3 o,
    run h s (wind_up order t0 l s) = Some s3
    ∧ now s3 = now s
    ∧ heap s3 !! l = Some (stored o true)
    ∧ ∀ t, threads s3 !! t
           = (λ pc, if decide (t = t0)
                    then Exited ExitLeader (pc_ctx pc0) (pc_channel pc0) l o
                    else woken l (stored o true) pc) <$> threads s !! t.
Proof.
  intros HL Ht0 Hl0 Ho. unfold wind_up. rewrite Ht0. simpl.
  destruct (leader_winds_up h s order t0 pc0 l HL Ht0 Hl0 Ho)
    as (s1 & o & Hrun1 & Ht1 & Hoth1 & Hhp1 & Hnow1).
  rewrite run_app, Hrun1. simpl.
  assert (done (stored o true) = true) as Hdone by by destruct o.
  destruct (followers_wake h l (stored o true) (map_to_list (threads s))
              (NoDup_fst_map_to_list _) s1 Hhp1 Hdone)
    as (s3 & Hrun & Hhp & Hnow & Hw & Hk).
  { intros t pc Hin%elem_of_map_to_list Hr. rewrite Hoth1; [done|].
    intros ->. assert (pc = pc0) as -> by congruence.
    by rewrite (leader_rest_nil l l t0 pc0) in Hr. }
  exists s3, o. split; [done|]. split; [congruence|]. split; [congruence|].
  intros t. destruct (threads s !! t) as [pc|] eqn:Ht; simpl.
  - destruct (decide (follower_rest l t pc = [])) as [Hnil|Hsome].
    + rewrite Hk.
      * case_decide as Hd; [by subst t|]. rewrite Hoth1 by done.
        by rewrite (follower_rest_woken _ _ t).
      * intros pc' Hin%elem_of_map_to_list. by simplify_eq.
    + rewrite (Hw t pc); [|by apply elem_of_map_to_list|done].
      case_decide as Hd; [|done]. subst t.
      assert (pc = pc0) as -> by congruence.
      by rewrite (leader_rest_nil l l t0 pc0) in Hsome.
  - rewrite Hk.
    + rewrite Hoth1; [done|]. intros ->. congruence.
    + intros pc' Hin%elem_of_map_to_list. congruence.
Qed.

End WindUp.

(** * The claims about the coordinator *)

Section CoordinatorClaims.

Context {Backend : Type}.

Implicit Types (s : State Backend) (h : CacheEmptyHandler Backend).
Implicit Types (pc : PC) (t : tid) (l : loc) (c : string).

Lemma reachable_lock_inv h (b : Backend) evs s :
  run h (init b) evs = Some s → lock_inv s.
Proof. apply run_lock_inv, lock_inv_init. Qed.

(** C1, as amended. Take a reachable state [s0] in which no call for
    channel [c] is in progress, and any execution from it in which at least
    one call for [c] is made. Suppose that there is a moment (after [evs1])
    by which every call for [c] has run its load-or-store while no leader for
    [c] has yet removed the entry; and that, to the end, the clock has
    advanced by less than the lock-wait timeout and the context of none of
    these calls is done. Nothing is supposed about how far the calls have
    come. Then:
    - one of the new calls is the leader of a lock, and every other one is a
      follower of that lock that waits for its signal or was woken by it;
    - at most one invocation of [handleCacheEmpty] and at most one transport
      call were made for [c], and exactly one once the leader's dispatch is
      over (with a usable proxy in the registry; no transport call at all
      without);
    - every new call that has returned, returned the pair the leader left on
      the lock;
    - a follower in [select] can receive the signal once it has fired, and
      then returns what is on the lock;
    - the calls can all finish without any time passing: the leader takes
      its remaining steps and every waiting follower receives the signal.
      Then every new call for [c] is over, exactly one invocation of
      [handleCacheEmpty] and one transport call were made for [c], and all
      the calls returned the same (response, error) pair, the one the
      leader's dispatch returned. *)
Theorem handle_single_flight h (b : Backend) evs0 s0 evs1 evs2 s c :
  run h (init b) evs0 = Some s0 →
  idle c s0 →
  run h s0 (evs1 ++ evs2) = Some s →
  (∃ t pc, new_call c s0 s t pc) →
  (∀ t pc, new_call c s0 s t pc → is_Some (pc_lock pc)) →
  none_by c s EvLeaderDelete evs1 →
  none_by c s EvGetOrCreateLock evs2 →
  quiet h c s0 s →
  ∃ t0 pc0 l,
    new_call c s0 s t0 pc0 ∧ leader_of pc0 = Some l
    ∧ (∀ t pc, new_call c s0 s t pc → t ≠ t0 → follows l pc = true)
    ∧ length (dispatches_for c s) ≤ length (dispatches_for c s0) + 1
    ∧ length (transport_calls_for c s)
      ≤ length (transport_calls_for c s0) + 1
    ∧ (post_dispatch pc0 = true →
       dispatches_for c s = dispatches_for c s0 ++ [{| Channel := c |}]
       ∧ (has_usable (proxies h) →
          transport_calls_for c s
          = transport_calls_for c s0 ++ [{| Channel := c |}]))
    ∧ (no_usable (proxies h) → transport_calls_for c s = [])
    ∧ (∀ t pc re,
         new_call c s0 s t pc → returned pc = Some re →
         ∃ ctx0 o, pc0 = Exited ExitLeader ctx0 c l o
                   ∧ re = (result (stored o true), err (stored o true)))
    ∧ (∀ t ctx d,
         new_call c s0 s t (AtSelect ctx c l d) → signalled s l = true →
         ∃ lk, heap s !! l = Some lk
               ∧ step h s (EvSelectDone t)
                 = Some (set_pc t (Exited ExitShared ctx c l
                                     (Returns (result lk) (err lk))) s))
    ∧ ∀ order,
        range_order (proxies h) order →
        ∃ s3 ctx0 o,
          run h s (wind_up order t0 l s) = Some s3
          ∧ now s3 = now s
          ∧ (∀ t, is_Some (threads s3 !! t) ↔ is_Some (threads s !! t))
          ∧ threads s3 !! t0 = Some (Exited ExitLeader ctx0 c l o)
          ∧ (∀ t pc,
               new_call c s0 s3 t pc → t ≠ t0 →
               ∃ ctx, pc = Exited ExitShared ctx c l
                             (Returns (result (stored o true))
                                (err (stored o true))))
          ∧ dispatches_for c s3 = dispatches_for c s0 ++ [{| Channel := c |}]
          ∧ (has_usable (proxies h) →
             transport_calls_for c s3
             = transport_calls_for c s0 ++ [{| Channel := c |}])
          ∧ (no_usable (proxies h) → transport_calls_for c s3 = [])
          ∧ (∀ r e, o = Returns r e →
                    ∀ t pc, new_call c s0 s3 t pc →
                            returned pc = Some (r, e)).
Proof.
  intros Hrun0 Hidle Hrun (t1 & pc1 & Hn1) Hlock Hno1 Hno2 Hq.
  pose proof (reachable_lock_inv _ _ _ _ Hrun0) as HL0.
  pose proof (run_dispatch_inv _ _ _ _ (dispatch_inv_init h b) Hrun0) as HD0.
  pose proof (run_lock_inv _ _ _ _ HL0 Hrun) as HL.
  pose proof (run_dispatch_inv _ _ _ _ HD0 Hrun) as HD.
  pose proof (timer_inv_run _ _ _ _ _ _ (timer_inv_start h c s0) Hrun Hq)
    as HT.
  pose proof Hrun as Hrun'. rewrite run_app in Hrun'.
  destruct (run h s0 evs1) as [s1|] eqn:R1; simpl in Hrun'; [|done].
  pose proof (run_lock_inv _ _ _ _ HL0 R1) as HL1.
  assert (hold_current c s0 s1) as W1.
  { eapply hold_current_run; [apply hold_current_start|done|].
    intros t pc Ht Hc.
    destruct (run_thread_stable _ _ _ _ _ _ Hrun' Ht)
      as (pc' & Ht' & Hc' & _).
    eapply Hno1; [done|congruence]. }
  assert (∀ l, hold_lock c s0 l s1 → hold_lock c s0 l s) as Hkeep.
  { intros l W. by eapply hold_lock_run. }
  destruct (Hlock _ _ Hn1) as [l1 Hl1].
  destruct (channelLocks s1 !! c) as [l|] eqn:Hm; cycle 1.
  { (* no new call holds a lock at that moment: then none ever does *)
    exfalso.
    assert (∀ l, hold_lock c s0 l s) as W.
    { intros l. apply Hkeep. intros t pc l' Hn Hl'.
      specialize (W1 _ _ _ Hn Hl'). congruence. }
    pose proof (W 0 _ _ _ Hn1 Hl1). pose proof (W 1 _ _ _ Hn1 Hl1).
    congruence. }
  (* the lock of the new calls, and its leader *)
  assert (hold_lock c s0 l s) as W.
  { apply Hkeep. intros t pc l' Hn Hl'. specialize (W1 _ _ _ Hn Hl').
    congruence. }
  destruct (inv_entry_owner _ HL1 _ _ Hm) as (t0 & pc1' & Ht1 & He1).
  pose proof (entry_leader _ _ _ He1) as [Hl1' Hc1].
  assert (new_call c s0 s1 t0 pc1') as Hn1'.
  { destruct (call_new_or_old _ _ _ _ _ _ _ Hidle R1 Ht1 Hc1)
      as [?|[_ Hex]]; [done|]. by destruct pc1'. }
  destruct (new_call_stable _ _ _ _ _ _ _ _ Hrun' Hn1')
    as (pc0 & Hn0 & _ & _ & _ & Hlead).
  specialize (Hlead _ Hl1').
  pose proof Hn0 as (Hnew0 & Ht0 & Hc0).
  pose proof (window_shape h c s0 s l t0 pc0 HL HT W Hn0 Hlead Hlock)
    as Hshape.
  assert (∀ t pc, new_call c s0 s t pc → post_dispatch pc = true → t = t0)
    as Honly.
  { intros t pc Hn Hp. destruct (decide (t = t0)) as [|Hne]; [done|].
    rewrite (follows_no_dispatch l pc) in Hp; [done|by eapply Hshape]. }
  assert (if post_dispatch pc0
          then dispatches_for c s
               = dispatches_for c s0 ++ [{| Channel := c |}]
          else dispatches_for c s = dispatches_for c s0) as Hdis.
  { destruct (post_dispatch pc0) eqn:Hp.
    - by eapply window_dispatches.
    - eapply window_no_dispatch; try done. intros t pc Hn.
      destruct (post_dispatch pc) eqn:Hp'; [|done].
      pose proof (Honly _ _ Hn Hp') as ->.
      destruct Hn as (_ & Ht & _). congruence. }
  assert (∀ s', dispatch_inv h s' → has_usable (proxies h) →
                transport_calls_for c s' = dispatches_for c s') as Htr.
  { intros s' HD' Hu. unfold transport_calls_for, dispatches_for.
    by rewrite (inv_calls_usable _ _ HD' Hu). }
  assert (∀ s', dispatch_inv h s' → no_usable (proxies h) →
                transport_calls_for c s' = []) as Htn.
  { intros s' HD' Hn. unfold transport_calls_for.
    by rewrite (inv_calls_none _ _ HD' Hn). }
  assert (length (dispatches_for c s) ≤ length (dispatches_for c s0) + 1)
    as Hlen.
  { destruct (post_dispatch pc0); rewrite Hdis, ?length_app; simpl; lia. }
  exists t0, pc0, l.
  split; [done|]. split; [done|]. split; [done|]. split; [done|].
  split; [|split; [|split; [|split; [|split]]]].
  - destruct (usable_or_not (proxies h)) as [Hu|Hn].
    + by rewrite (Htr s HD Hu), (Htr s0 HD0 Hu).
    + rewrite (Htn s HD Hn). simpl. lia.
  - intros Hp. rewrite Hp in Hdis. split; [done|].
    intros Hu. by rewrite (Htr s HD Hu), (Htr s0 HD0 Hu).
  - by apply Htn.
  - intros t pc re Hn Hret. pose proof Hn as (_ & Ht & _).
    rewrite <- Hc0.
    eapply (window_pair s l t0 pc0 t pc); try done.
    destruct (decide (t = t0)) as [|Hne]; [by left|right].
    by eapply Hshape.
  - intros t ctx d (_ & Ht & _) Hsig. unfold signalled in Hsig.
    destruct (heap s !! l) as [lk|] eqn:Hlk; [|done].
    exists lk. split; [done|]. apply step_complete.
    by eapply SpecSelectDone.
  - intros order Ho.
    destruct (wind_up_runs h s order t0 pc0 l HL Ht0 Hlead Ho)
      as (s3 & o & Hrun3 & Hnow3 & Hhp3 & Hth3).
    rewrite Hc0 in Hth3.
    assert (run h s0 ((evs1 ++ evs2) ++ wind_up order t0 l s) = Some s3)
      as Hrun03.
    { rewrite run_app, Hrun. exact Hrun3. }
    pose proof (run_lock_inv _ _ _ _ HL0 Hrun03) as HL3.
    pose proof (run_dispatch_inv _ _ _ _ HD0 Hrun03) as HD3.
    assert (threads s3 !! t0
            = Some (Exited ExitLeader (pc_ctx pc0) c l o)) as Ht3.
    { rewrite Hth3, Ht0. simpl. by rewrite decide_True. }
    assert (∀ t pc, new_call c s0 s3 t pc → t ≠ t0 →
              ∃ ctx, pc = Exited ExitShared ctx c l
                            (Returns (result (stored o true))
                               (err (stored o true)))) as Hsh3.
    { intros t pc3 (Hnew & Ht' & Hc') Hne.
      rewrite Hth3 in Ht'. destruct (threads s !! t) as [pc|] eqn:Ht;
        simpl in Ht'; [|done].
      rewrite decide_False in Ht' by done. injection Ht' as <-.
      rewrite woken_channel in Hc'.
      assert (follows l pc = true) as Hf by (by eapply (Hshape t pc)).
      destruct pc as [| | | |ctx c' l'|ctx c' l' d| |[] ctx c' l' ret];
        simpl in Hf, Hc'; try done; subst c';
        apply bool_decide_eq_true_1 in Hf as ->;
        simpl; rewrite ?decide_True by done; simpl; [by eexists..|].
      assert (threads s3 !! t = Some (Exited ExitShared ctx c l ret))
        as Ht3'.
      { rewrite Hth3, Ht. simpl. by rewrite decide_False. }
      destruct (inv_shared _ HL3 _ _ _ _ _ Ht3') as (lk & Hlk & _ & ->).
      rewrite Hhp3 in Hlk. simplify_eq. by eexists. }
    exists s3, (pc_ctx pc0), o.
    split; [done|]. split; [done|]. split.
    { intros t. rewrite Hth3. apply fmap_is_Some. }
    split; [done|]. split; [done|].
    assert (dispatches_for c s3
            = dispatches_for c s0 ++ [{| Channel := c |}]) as Hdis3.
    { eapply (window_dispatches h _ c s0 s3 t0); try done.
      intros t pc Hn Hp. destruct (decide (t = t0)) as [|Hne]; [done|].
      destruct (Hsh3 _ _ Hn Hne) as [ctx ->]. done. }
    split; [done|]. split; [|split].
    + intros Hu. by rewrite (Htr s3 HD3 Hu), (Htr s0 HD0 Hu).
    + by apply Htn.
    + intros r e -> t pc Hn. destruct (decide (t = t0)) as [->|Hne].
      * destruct Hn as (_ & Ht & _). rewrite Ht3 in Ht. by simplify_eq.
      * destruct (Hsh3 _ _ Hn Hne) as [ctx ->]. done.
Qed.

(** C2. In every reachable state:
    - a leader about to dispatch can always do so, and whatever the dispatch
      does (success, error, panic) the leader goes on to its cleanup;
    - a leader about to remove the entry has already stored the dispatch's
      pair on its lock, finds its entry in the map, and removes it;
    - a leader about to open the completion signal has stored the pair and
      removed the entry, and opens the signal;
    - a leader that is gone has left its lock signalled, holding the pair,
      and the map without its entry;
    - so every entry of the map belongs to a leader that has yet to remove
      it. *)
Theorem leader_cleanup h (b : Backend) evs s :
  run h (init b) evs = Some s →
  (∀ t ctx c l order,
     threads s !! t = Some (AtDispatch ctx c l) →
     range_order (proxies h) order →
     ∃ s' ret,
       step h s (EvLeaderDispatch t order) = Some s'
       ∧ ret = (handleCacheEmpty ctx {| Channel := c |} (proxies h) order
                  (world s)).1
       ∧ threads s' !! t = Some (AtDelete ctx c l ret)
       ∧ heap s' !! l = Some (stored ret false)
       ∧ channelLocks s' = channelLocks s)
  ∧ (∀ t ctx c l ret,
       threads s !! t = Some (AtDelete ctx c l ret) →
       heap s !! l = Some (stored ret false)
       ∧ channelLocks s !! c = Some l
       ∧ ∃ s', step h s (EvLeaderDelete t) = Some s'
               ∧ threads s' !! t = Some (AtClose ctx c l ret)
               ∧ channelLocks s' !! c = None
               ∧ heap s' = heap s)
  ∧ (∀ t ctx c l ret,
       threads s !! t = Some (AtClose ctx c l ret) →
       heap s !! l = Some (stored ret false)
       ∧ channelLocks s !! c ≠ Some l
       ∧ ∃ s', step h s (EvLeaderClose t) = Some s'
               ∧ threads s' !! t = Some (Exited ExitLeader ctx c l ret)
               ∧ heap s' !! l = Some (stored ret true)
               ∧ channelLocks s' = channelLocks s)
  ∧ (∀ t ctx c l ret,
       threads s !! t = Some (Exited ExitLeader ctx c l ret) →
       heap s !! l = Some (stored ret true)
       ∧ channelLocks s !! c ≠ Some l)
  ∧ (∀ c l, channelLocks s !! c = Some l →
            ∃ t pc, threads s !! t = Some pc ∧ entry_of pc = Some (c, l)).
Proof.
  intros Hrun. pose proof (reachable_lock_inv _ _ _ _ Hrun) as HL.
  destruct HL as [I1 I2 I3 I4 I5 I6].
  assert (∀ t pc c l, threads s !! t = Some pc → leader_of pc = Some l →
            entry_of pc = None → channelLocks s !! c ≠ Some l) as Hgone.
  { intros t pc c l Ht Hl He Hm.
    destruct (I1 _ _ Hm) as (t' & pc' & Ht' & He').
    pose proof (proj1 (entry_leader _ _ _ He')) as Hl'.
    assert (t' = t) as -> by by eapply (I3 _ _ _ _ l Ht' Ht).
    congruence. }
  repeat split.
  - intros t ctx c l order Ht Ho.
    pose proof (I4 _ _ l Ht eq_refl) as Hlk. simpl in Hlk.
    destruct (handleCacheEmpty ctx {| Channel := c |} (proxies h) order
                (world s)) as [[r e|] w] eqn:Hd.
    + eexists _, _. split.
      { apply step_complete. by eapply SpecLeaderReturns. }
      simpl. by rewrite !lookup_insert_eq.
    + eexists _, _. split.
      { apply step_complete. by eapply SpecLeaderPanics. }
      simpl. by rewrite lookup_insert_eq.
  - by apply (I4 _ _ l H eq_refl).
  - by apply (I2 _ _ _ _ H eq_refl).
  - eexists. split; [apply step_complete; by constructor|]. simpl.
    by rewrite lookup_insert_eq, lookup_delete_eq.
  - by apply (I4 _ _ l H eq_refl).
  - by eapply (Hgone _ _ _ _ H).
  - pose proof (I4 _ _ l H eq_refl) as Hlk. simpl in Hlk.
    eexists. split.
    { apply step_complete. eapply SpecLeaderClose; [done..|]. by destruct ret. }
    simpl. rewrite !lookup_insert_eq. by destruct ret.
  - by apply (I4 _ _ l H eq_refl).
  - by eapply (Hgone _ _ _ _ H).
  - done.
Qed.

(** C3, as amended. In every reachable state [s]:
    - the map holds at most one lock for [c], and at most one leader has yet
      to remove an entry for [c];
    - [getOrCreateLock] is one load-or-store: a call that runs it finds the
      entry of [c] and is handed that entry's lock, as a follower, or finds
      none and installs a fresh lock, as the leader;
    - when [s] is reached from a state [s0] in which no call for [c] was in
      progress, without any leader for [c] removing the entry since: among
      the calls for [c] made since that have run [getOrCreateLock], however
      many, one is the leader and every other is a follower of the leader's
      lock, the one in the map. *)
Theorem one_pending_call_per_channel h (b : Backend) evs0 s0 evs s c :
  run h (init b) evs0 = Some s0 →
  run h s0 evs = Some s →
  (∀ t1 t2 pc1 pc2 l1 l2,
     threads s !! t1 = Some pc1 → threads s !! t2 = Some pc2 →
     entry_of pc1 = Some (c, l1) → entry_of pc2 = Some (c, l2) →
     t1 = t2 ∧ l1 = l2 ∧ channelLocks s !! c = Some l1)
  ∧ (∀ t ctx,
       threads s !! t = Some (AtEntry ctx c) →
       ∃ s', step h s (EvGetOrCreateLock t) = Some s'
             ∧ match channelLocks s !! c with
               | Some l =>
                   threads s' !! t = Some (AtNewTimer ctx c l)
                   ∧ channelLocks s' = channelLocks s
               | None =>
                   ∃ l, threads s' !! t = Some (AtDispatch ctx c l)
                        ∧ channelLocks s' = <[c := l]> (channelLocks s)
                        ∧ heap s !! l = None
                        ∧ heap s' !! l = Some empty_lock
               end)
  ∧ (idle c s0 →
     none_by c s EvLeaderDelete evs →
     (∃ t pc l, new_call c s0 s t pc ∧ pc_lock pc = Some l) →
     ∃ t0 pc0 l,
       new_call c s0 s t0 pc0
       ∧ leader_of pc0 = Some l ∧ channelLocks s !! c = Some l
       ∧ ∀ t pc, new_call c s0 s t pc → t ≠ t0 →
                 pc_lock pc = None ∨ follower_of pc = Some l).
Proof.
  intros Hrun0 Hrun.
  pose proof (reachable_lock_inv _ _ _ _ Hrun0) as HL0.
  pose proof (run_lock_inv _ _ _ _ HL0 Hrun) as HL.
  destruct HL as [I1 I2 I3 I4 I5 I6].
  split; [|split].
  - intros t1 t2 pc1 pc2 l1 l2 H1 H2 E1 E2.
    pose proof (I2 _ _ _ _ H1 E1) as M1. pose proof (I2 _ _ _ _ H2 E2) as M2.
    assert (l1 = l2) as <- by congruence.
    apply entry_leader in E1 as [L1 _]. apply entry_leader in E2 as [L2 _].
    split; [|done]. by eapply (I3 _ _ _ _ l1 H1 H2).
  - intros t ctx Ht. destruct (channelLocks s !! c) as [l|] eqn:Hm.
    + eexists. split; [apply step_complete; by eapply SpecJoin|]. simpl.
      by rewrite lookup_insert_eq.
    + eexists. split; [apply step_complete; by eapply SpecInstall|]. simpl.
      exists (fresh (dom (heap s))). rewrite !lookup_insert_eq.
      by rewrite fresh_lock_not_in_heap.
  - intros Hidle Hno (t & pc & l & Hn & Hl).
    pose proof (hold_current_run _ _ _ _ _ c (hold_current_start c s0)
                  Hrun Hno) as W.
    pose proof (W _ _ _ Hn Hl) as Hm.
    destruct (I1 _ _ Hm) as (t0 & pc0 & Ht0 & E0).
    pose proof (entry_leader _ _ _ E0) as [L0 C0].
    assert (new_call c s0 s t0 pc0) as Hn0.
    { destruct (call_new_or_old _ _ _ _ _ _ _ Hidle Hrun Ht0 C0)
        as [?|[_ Hex]]; [done|]. by destruct pc0. }
    exists t0, pc0, l. repeat split; try done; try apply Hn0.
    intros t' pc' Hn' Hne.
    destruct (pc_lock pc') as [l'|] eqn:Hl'; [right|by left].
    assert (l' = l) as -> by (specialize (W _ _ _ Hn' Hl'); congruence).
    apply pc_lock_role in Hl' as [L'|F']; [|done].
    destruct Hne. destruct Hn' as (_ & Ht' & _).
    by eapply (I3 _ _ _ _ l Ht' Ht0).
Qed.

(** Events of goroutine [t] other than the one named cannot happen. *)
Lemma select_only h s t ctx c l d e s' :
  threads s !! t = Some (AtSelect ctx c l d) →
  actor e = Some t → step h s e = Some s' →
  (e = EvSelectDone t ∧ signalled s l = true)
  ∨ (e = EvSelectTimer t ∧ (d ≤ now s)%Z)
  ∨ (e = EvSelectCtx t ∧ is_Some (ctxErr s !! ctx)).
Proof.
  intros Ht Ha Hs. unfold signalled.
  destruct e; simpl in Ha; simplify_eq; simpl in Hs; rewrite Ht in Hs;
    try done.
  - left. destruct (heap s !! l) as [lk|]; simpl in Hs; [|done].
    by destruct (done lk).
  - right. left. by case_decide.
  - right. right. destruct (ctxErr s !! ctx); [by eexists|done].
Qed.

(** C4. Take a follower that starts its timer in state [s0] and is found
    still blocked in [select] in a later state [s], while the leader's
    completion signal has not fired and the follower's context is not done.
    The deadline of its timer is the configured lock-wait timeout after
    [s0]. Before that deadline the follower cannot take any step. Once the
    wait has reached the timeout, the follower can only take the timer branch.
    Taking it returns no error: it adds one line to the log, a warning with
    the channel and the timeout and the message of the source, and touches
    nothing else. From there the follower can only invoke [handleCacheEmpty],
    with a new request for the same channel, and what that invocation gives
    is what the follower returns; neither step touches the map or any
    lock. *)
Theorem follower_timeout_fallback h s0 evs s t ctx c l d :
  threads s0 !! t = Some (AtNewTimer ctx c l) →
  run h s0 (EvNewTimer t :: evs) = Some s →
  threads s !! t = Some (AtSelect ctx c l d) →
  signalled s l = false →
  ctxErr s !! ctx = None →
  d = (now s0 + lockTimeout h)%Z
  ∧ ((now s < now s0 + lockTimeout h)%Z →
     ∀ e, actor e = Some t → step h s e = None)
  ∧ ((now s0 + lockTimeout h ≤ now s)%Z →
     (∀ e s', actor e = Some t → step h s e = Some s' → e = EvSelectTimer t)
     ∧ ∃ s1,
         step h s (EvSelectTimer t) = Some s1
         ∧ threads s1 !! t = Some (AtFallback ctx c l)
         ∧ logs (world s1)
           = logs (world s)
               ++ [{| level := WarnLevel;
                      fields := [Str "channel" c;
                                 Dur "timeout" (lockTimeout h)];
                      msg := "timeout waiting for cache empty lock, making independent call" |}]
         ∧ calls (world s1) = calls (world s)
         ∧ backend (world s1) = backend (world s)
         ∧ dispatched s1 = dispatched s
         ∧ heap s1 = heap s ∧ channelLocks s1 = channelLocks s)
  ∧ ∀ s2 order,
      threads s2 !! t = Some (AtFallback ctx c l) →
      range_order (proxies h) order →
      (∀ e s', actor e = Some t → step h s2 e = Some s' →
               ∃ order', e = EvFallbackDispatch t order')
      ∧ ∃ s3,
          step h s2 (EvFallbackDispatch t order) = Some s3
          ∧ (let '(o, w) :=
               handleCacheEmpty ctx {| Channel := c |} (proxies h) order
                 (world s2) in
             threads s3 !! t = Some (Exited ExitFallback ctx c l o)
             ∧ world s3 = w)
          ∧ heap s3 = heap s2 ∧ channelLocks s3 = channelLocks s2.
Proof.
  intros Ht0 Hrun Ht Hsig Hctx.
  assert (d = (now s0 + lockTimeout h)%Z) as Hd.
  { simpl in Hrun. rewrite Ht0 in Hrun. simpl in Hrun.
    eapply armed_deadline; [|exact Hrun|exact Ht]. apply lookup_insert_eq. }
  split; [done|]. split; [|split].
  - intros Hearly e Ha. destruct (step h s e) as [s'|] eqn:Hs; [|done].
    destruct (select_only _ _ _ _ _ _ _ _ _ Ht Ha Hs)
      as [[_ ?]|[[_ ?]|[_ [? ?]]]]; [congruence|lia|congruence].
  - intros Hlate. split.
    + intros e s' Ha Hs.
      destruct (select_only _ _ _ _ _ _ _ _ _ Ht Ha Hs)
        as [[_ ?]|[[? _]|[_ [? ?]]]]; [congruence|done|congruence].
    + eexists. split.
      { apply step_complete. eapply SpecSelectTimer; [done|lia]. }
      simpl. by rewrite lookup_insert_eq.
  - intros s2 order Ht2 Ho. split.
    + intros e s' Ha Hs. destruct e; simpl in Ha; simplify_eq; simpl in Hs;
        rewrite Ht2 in Hs; try done. by eexists.
    + destruct (handleCacheEmpty ctx {| Channel := c |} (proxies h) order
                  (world s2)) as [o w] eqn:Hh.
      eexists. split; [apply step_complete; by eapply SpecFallback|].
      simpl. by rewrite lookup_insert_eq.
Qed.

(** The error of a context that is done is a context error. *)
Lemma ctx_errors h (b : Backend) evs s :
  run h (init b) evs = Some s →
  ∀ ctx e, ctxErr s !! ctx = Some e → is_ctx_error e = true.
Proof.
  intros Hrun.
  apply (run_invariant h (λ s, ∀ ctx e, ctxErr s !! ctx = Some e →
                                        is_ctx_error e = true))
    with (evs := evs) (s := init b); [| |done].
  - clear. intros s e s' IH Hstep. destruct Hstep; simpl; try done.
    intros ctx0 e0 [[<- <-]|[_ ?]]%lookup_insert_Some; [done|by eapply IH].
  - simpl. intros ctx e. by rewrite lookup_empty.
Qed.

(** C5. In a reachable state, a follower blocked in [select] whose context is
    done, while neither the leader's completion signal nor the timer has
    fired, can only take the [ctx.Done()] branch; it then returns at once a
    nil response and the context's error, which is a cancellation or a
    deadline error, and nothing else changes: no dispatch, no transport
    call, no log line. *)
Theorem follower_cancelled h (b : Backend) evs s t ctx c l d e :
  run h (init b) evs = Some s →
  threads s !! t = Some (AtSelect ctx c l d) →
  ctxErr s !! ctx = Some e →
  signalled s l = false →
  (now s < d)%Z →
  (∀ ev s', actor ev = Some t → step h s ev = Some s' → ev = EvSelectCtx t)
  ∧ step h s (EvSelectCtx t)
    = Some (set_pc t (Exited ExitCanceled ctx c l (Returns None (Some e))) s)
  ∧ (e = ContextCanceled ∨ e = ContextDeadlineExceeded)
  ∧ ∀ s', step h s (EvSelectCtx t) = Some s' →
          returned <$> threads s' !! t = Some (Some (None, Some e))
          ∧ world s' = world s ∧ dispatched s' = dispatched s
          ∧ heap s' = heap s ∧ channelLocks s' = channelLocks s.
Proof.
  intros Hrun Ht Hctx Hsig Hd.
  assert (step h s (EvSelectCtx t)
          = Some (set_pc t (Exited ExitCanceled ctx c l
                              (Returns None (Some e))) s)) as Hstep.
  { apply step_complete. by eapply SpecSelectCtx. }
  split; [|split; [done|split]].
  - intros ev s' Ha Hs.
    destruct (select_only _ _ _ _ _ _ _ _ _ Ht Ha Hs)
      as [[_ ?]|[[_ ?]|[? _]]]; [congruence|lia|done].
  - pose proof (ctx_errors _ _ _ _ Hrun _ _ Hctx) as He.
    destruct e; simpl in He; eauto; done.
  - intros s' Hs. rewrite Hstep in Hs. simplify_eq. simpl.
    by rewrite lookup_insert_eq.
Qed.

(** C8. When the configuration leaves [LockTimeout] unset (zero), the handler
    built by [NewCacheEmptyHandler] waits with the default bound of five
    seconds: the timer a follower starts is set to fire five seconds
    (5,000,000,000 ns) later, and its branch of the [select] can be taken
    from then on and not before. *)
Theorem default_lock_timeout (cfg : CacheEmptyHandlerConfig Backend)
    s t ctx c l :
  LockTimeout cfg = 0%Z →
  let h := NewCacheEmptyHandler cfg in
  lockTimeout h = (5 * Second)%Z
  ∧ (5 * Second = 5000000000)%Z
  ∧ (threads s !! t = Some (AtNewTimer ctx c l) →
     step h s (EvNewTimer t)
     = Some (set_pc t (AtSelect ctx c l (now s + 5000000000)%Z) s))
  ∧ (∀ d, threads s !! t = Some (AtSelect ctx c l d) →
          is_Some (step h s (EvSelectTimer t)) ↔ (d ≤ now s)%Z).
Proof.
  intros H0 h.
  assert (lockTimeout h = (5 * Second)%Z) as Hlt.
  { unfold h, NewCacheEmptyHandler. simpl. by rewrite H0. }
  split; [done|]. split; [done|]. split.
  - intros Ht. replace 5000000000%Z with (lockTimeout h) by by rewrite Hlt.
    apply step_complete. by eapply SpecNewTimer.
  - intros d Ht. simpl. rewrite Ht. case_decide.
    + split; [done|]. intros _. by eexists.
    + split; [|done]. by intros [? ?].
Qed.

End CoordinatorClaims.

(** * The claims on the test setup *)

(** Decide a closed decidable statement by evaluation. *)
Ltac by_evaluation :=
  apply (bool_decide_unpack _); vm_compute; exact I.

(** A statement about all the calls of a state, as one about its map of
    calls. *)
Ltac for_all_calls :=
  match goal with
  | |- ∀ t pc, threads ?s !! t = Some pc → @?P t pc =>
      change (map_Forall P (threads s)); by_evaluation
  end.

Lemma two_calls_run :
  run test_handler (init 0) (two_calls_straddle ++ two_calls_finish)
  = Some two_calls_end.
Proof. vm_compute. reflexivity. Defined.

Lemma three_calls_run :
  run test_handler two_calls_end (three_calls_arrive ++ three_calls_finish)
  = Some three_calls_end.
Proof. vm_compute. reflexivity. Defined.

(** A statement about all the new calls of a state, as one about its map of
    calls. *)
Ltac for_all_new_calls :=
  intros t pc (H0 & Ht & Hc); revert t pc Ht H0 Hc; for_all_calls.

Lemma three_calls_mid_run :
  run test_handler two_calls_end three_calls_arrive = Some three_calls_mid.
Proof. vm_compute. reflexivity. Defined.

(** After a first round on "test:channel" is over, three calls for it that
    overlap their leader's dispatch, 100 ms into the round: call 3 leads and
    has dispatched, call 2 waits in [select] and call 4 is about to start its
    timer. One more dispatch was made, and the three calls can finish with
    the same pair and no further dispatch. *)
Lemma handle_single_flight_witness :
  let s0 := two_calls_end in
  let s := three_calls_mid in
  let c := "test:channel" in
  (run test_handler (init 0) (two_calls_straddle ++ two_calls_finish)
   = Some s0
   ∧ idle c s0
   ∧ run test_handler s0 (three_calls_arrive ++ []) = Some s
   ∧ (∃ t pc, new_call c s0 s t pc)
   ∧ (∀ t pc, new_call c s0 s t pc → is_Some (pc_lock pc))
   ∧ none_by c s EvLeaderDelete three_calls_arrive
   ∧ none_by c s EvGetOrCreateLock []
   ∧ quiet test_handler c s0 s
   ∧ range_order (proxies test_handler) ["test"])
  ∧ ∃ t0 pc0 l,
      new_call c s0 s t0 pc0 ∧ leader_of pc0 = Some l
      ∧ (∀ t pc, new_call c s0 s t pc → t ≠ t0 → follows l pc = true)
      ∧ length (dispatches_for c s) ≤ length (dispatches_for c s0) + 1
      ∧ length (transport_calls_for c s)
        ≤ length (transport_calls_for c s0) + 1
      ∧ (∀ t pc re,
           new_call c s0 s t pc → returned pc = Some re →
           ∃ ctx0 o, pc0 = Exited ExitLeader ctx0 c l o
                     ∧ re = (result (stored o true), err (stored o true)))
      ∧ ∃ s3 ctx0 o,
          run test_handler s (wind_up ["test"] t0 l s) = Some s3
          ∧ now s3 = now s
          ∧ (∀ t, is_Some (threads s3 !! t) ↔ is_Some (threads s !! t))
          ∧ threads s3 !! t0 = Some (Exited ExitLeader ctx0 c l o)
          ∧ (∀ t pc,
               new_call c s0 s3 t pc → t ≠ t0 →
               ∃ ctx, pc = Exited ExitShared ctx c l
                             (Returns (result (stored o true))
                                (err (stored o true))))
          ∧ dispatches_for c s3
            = dispatches_for c s0 ++ [{| Channel := c |}]
          ∧ transport_calls_for c s3
            = transport_calls_for c s0 ++ [{| Channel := c |}]
          ∧ (∀ r e, o = Returns r e →
                    ∀ t pc, new_call c s0 s3 t pc →
                            returned pc = Some (r, e)).
Proof.
  intros s0 s c.
  assert (idle c s0) as Hidle by (unfold idle; for_all_calls).
  assert (run test_handler s0 (three_calls_arrive ++ []) = Some s) as Hrun
    by (vm_compute; reflexivity).
  assert (∃ t pc, new_call c s0 s t pc) as H1.
  { exists 2, (AtSelect 0 c 2 5000000000%Z). repeat split; reflexivity. }
  assert (∀ t pc, new_call c s0 s t pc → is_Some (pc_lock pc)) as H2
    by for_all_new_calls.
  assert (none_by c s EvLeaderDelete three_calls_arrive) as H3
    by (unfold none_by; for_all_calls).
  assert (none_by c s EvGetOrCreateLock []) as H4
    by (unfold none_by; for_all_calls).
  assert (quiet test_handler c s0 s) as H5
    by (split; [reflexivity|for_all_new_calls]).
  assert (range_order (proxies test_handler) ["test"]) as Ho by by_evaluation.
  assert (has_usable (proxies test_handler)) as Hu.
  { exists "test", counting_proxy. reflexivity. }
  split; [by repeat split; try exact two_calls_run|].
  destruct (handle_single_flight test_handler 0
              (two_calls_straddle ++ two_calls_finish) s0 three_calls_arrive
              [] s c two_calls_run Hidle Hrun H1 H2 H3 H4 H5)
    as (t0 & pc0 & l & Hn0 & Hl0 & Hfol & Hd & Ht & _ & _ & Hpair & _ & Hend).
  destruct (Hend ["test"] Ho)
    as (s3 & ctx0 & o & R3 & N3 & T3 & L3 & F3 & D3 & C3 & _ & P3).
  exists t0, pc0, l. split; [exact Hn0|]. split; [exact Hl0|].
  split; [exact Hfol|]. split; [exact Hd|]. split; [exact Ht|].
  split; [exact Hpair|]. exists s3, ctx0, o. split; [exact R3|].
  split; [exact N3|]. split; [exact T3|]. split; [exact L3|].
  split; [exact F3|]. split; [exact D3|]. split; [exact (C3 Hu)|exact P3].
Defined.

(** C1 as stated fails: two calls for "test:channel", both issued at the
    start and both over before any time has passed, while the backend
    answers at once. The second call runs its load-or-store after the
    first, the leader, has removed the entry: it becomes a leader too.
    Two transport calls are made, and the two calls return different
    pairs. *)
Lemma dedup_broken_across_removal :
  let s := two_calls_end in
  let c := "test:channel" in
  run test_handler (init 0) (two_calls_straddle ++ two_calls_finish) = Some s
  ∧ now s = 0%Z
  ∧ ctxErr s = ∅
  ∧ threads s !! 0
    = Some (Exited ExitLeader 0 c 0 (Returns (Some (populated true)) None))
  ∧ threads s !! 1
    = Some (Exited ExitLeader 0 c 1 (Returns (Some (populated false)) None))
  ∧ transport_calls_for c s = [{| Channel := c |}; {| Channel := c |}]
  ∧ ¬ (∃ r e, ∀ t pc, threads s !! t = Some pc → pc_channel pc = c →
                      returned pc = Some (r, e)).
Proof.
  intros s c. repeat split; try (vm_compute; reflexivity).
  intros (r & e & Hall).
  pose proof (Hall 0 _ eq_refl eq_refl) as H0.
  pose proof (Hall 1 _ eq_refl eq_refl) as H1.
  vm_compute in H0, H1. congruence.
Qed.

(** Inside the in-flight window, the timing matters to the end: both calls
    run their load-or-store at the start and the leader is over after one
    second, its signal given; the follower runs its [select] only after its
    timer has fired too, and [select] may then take the timer branch. Two
    transport calls are made and the two calls return different pairs. *)
Lemma late_wake_falls_back :
  let s1 := answered_in_time in
  let s := woken_late in
  let c := "test:channel" in
  run test_handler (init 0) leader_answers_in_time = Some s1
  ∧ now s1 = Second
  ∧ threads s1 !! 0
    = Some (Exited ExitLeader 0 c 0 (Returns (Some (populated true)) None))
  ∧ threads s1 !! 1 = Some (AtSelect 0 c 0 (5 * Second)%Z)
  ∧ signalled s1 0 = true
  ∧ run test_handler s1 follower_wakes_late = Some s
  ∧ ctxErr s = ∅
  ∧ threads s !! 1
    = Some (Exited ExitFallback 0 c 0 (Returns (Some (populated false)) None))
  ∧ transport_calls_for c s = [{| Channel := c |}; {| Channel := c |}].
Proof. intros s1 s c. repeat split; vm_compute; reflexivity. Qed.

Lemma two_calls_mid_run :
  run test_handler (init 0) two_calls_straddle = Some two_calls_mid.
Proof. vm_compute. reflexivity. Defined.

(** In the middle of that execution: the first leader, about to open its
    completion signal, has stored its pair and removed its entry; the entry
    now in the map belongs to the second leader. *)
Lemma leader_cleanup_witness :
  let s := two_calls_mid in
  let c := "test:channel" in
  run test_handler (init 0) two_calls_straddle = Some s
  ∧ threads s !! 0
    = Some (AtClose 0 c 0 (Returns (Some (populated true)) None))
  ∧ heap s !! 0 = Some {| result := Some (populated true); err := None;
                          done := false |}
  ∧ channelLocks s !! c ≠ Some 0
  ∧ (∃ s', step test_handler s (EvLeaderClose 0) = Some s'
           ∧ threads s' !! 0
             = Some (Exited ExitLeader 0 c 0
                       (Returns (Some (populated true)) None))
           ∧ heap s' !! 0 = Some {| result := Some (populated true);
                                    err := None; done := true |}
           ∧ channelLocks s' = channelLocks s)
  ∧ (∀ c' l, channelLocks s !! c' = Some l →
             ∃ t pc, threads s !! t = Some pc ∧ entry_of pc = Some (c', l)).
Proof.
  intros s c.
  destruct (leader_cleanup test_handler 0 two_calls_straddle s
              two_calls_mid_run) as (_ & _ & Hclose & _ & Howner).
  destruct (Hclose 0 0 c 0 (Returns (Some (populated true)) None) eq_refl)
    as (Hlk & Hgone & Hstep).
  split; [exact two_calls_mid_run|]. split; [reflexivity|].
  split; [exact Hlk|]. split; [exact Hgone|]. split; [exact Hstep|].
  exact Howner.
Defined.

(** C3 as stated fails: in the middle of that execution the two calls are
    both inside [handle], both observed that they installed the entry, and
    hold two different locks for the one channel, neither signalled. *)
Lemma two_leaders_in_flight :
  let s := two_calls_mid in
  let c := "test:channel" in
  run test_handler (init 0) two_calls_straddle = Some s
  ∧ threads s !! 0
    = Some (AtClose 0 c 0 (Returns (Some (populated true)) None))
  ∧ threads s !! 1 = Some (AtDispatch 0 c 1)
  ∧ (leader_of <$> threads s !! 0) = Some (Some 0)
  ∧ (leader_of <$> threads s !! 1) = Some (Some 1)
  ∧ signalled s 0 = false ∧ signalled s 1 = false.
Proof. intros s c. repeat split; vm_compute; reflexivity. Qed.

(** In the three-call execution, before the leader's removal: call 3 leads
    and calls 2 and 4 follow its lock, the one in the map. *)
Lemma one_pending_call_per_channel_witness :
  let s0 := two_calls_end in
  let s := three_calls_mid in
  let c := "test:channel" in
  (run test_handler (init 0) (two_calls_straddle ++ two_calls_finish)
   = Some s0
   ∧ run test_handler s0 three_calls_arrive = Some s
   ∧ idle c s0
   ∧ none_by c s EvLeaderDelete three_calls_arrive)
  ∧ ∃ t0 pc0 l,
      new_call c s0 s t0 pc0
      ∧ leader_of pc0 = Some l ∧ channelLocks s !! c = Some l
      ∧ ∀ t pc, new_call c s0 s t pc → t ≠ t0 →
                pc_lock pc = None ∨ follower_of pc = Some l.
Proof.
  intros s0 s c.
  assert (idle c s0) as Hidle by (unfold idle; for_all_calls).
  assert (none_by c s EvLeaderDelete three_calls_arrive) as Hno
    by (unfold none_by; for_all_calls).
  split; [by repeat split; try exact two_calls_run;
             try exact three_calls_mid_run|].
  destruct (one_pending_call_per_channel test_handler 0
              (two_calls_straddle ++ two_calls_finish) s0 three_calls_arrive
              s c two_calls_run three_calls_mid_run) as (_ & _ & Hwin).
  apply (Hwin Hidle Hno).
  exists 2, (AtSelect 0 c 2 5000000000%Z), 2. repeat split; reflexivity.
Defined.

Lemma follower_waits_run :
  run test_handler follower_joined (EvNewTimer 1 :: follower_waits)
  = Some waiting_too_long.
Proof. vm_compute. reflexivity. Defined.

(** The follower of the test that waits past the (default) timeout while the
    leader hangs: it joined at 100 ms and is found in [select] at 5.1 s. *)
Lemma follower_timeout_fallback_witness :
  let s0 := follower_joined in
  let s := waiting_too_long in
  let c := "test:channel" in
  (threads s0 !! 1 = Some (AtNewTimer 1 c 0)
   ∧ run test_handler s0 (EvNewTimer 1 :: follower_waits) = Some s
   ∧ threads s !! 1 = Some (AtSelect 1 c 0 5100000000%Z)
   ∧ signalled s 0 = false
   ∧ ctxErr s !! 1 = None
   ∧ (now s0 + lockTimeout test_handler ≤ now s)%Z)
  ∧ 5100000000%Z = (now s0 + lockTimeout test_handler)%Z
  ∧ (∀ e s', actor e = Some 1 → step test_handler s e = Some s' →
             e = EvSelectTimer 1)
  ∧ ∃ s1, step test_handler s (EvSelectTimer 1) = Some s1
          ∧ threads s1 !! 1 = Some (AtFallback 1 c 0)
          ∧ logs (world s1)
            = logs (world s)
                ++ [{| level := WarnLevel;
                       fields := [Str "channel" "test:channel";
                                  Dur "timeout" 5000000000%Z];
                       msg := "timeout waiting for cache empty lock, making independent call" |}]
          ∧ ∃ s3, step test_handler s1 (EvFallbackDispatch 1 ["test"])
                  = Some s3
                  ∧ threads s3 !! 1
                    = Some (Exited ExitFallback 1 c 0
                              (Returns (Some (populated true)) None))
                  ∧ heap s3 = heap s ∧ channelLocks s3 = channelLocks s.
Proof.
  intros s0 s c.
  assert (threads s0 !! 1 = Some (AtNewTimer 1 c 0)) as H0 by reflexivity.
  assert (threads s !! 1 = Some (AtSelect 1 c 0 5100000000%Z)) as H1
    by reflexivity.
  assert (signalled s 0 = false) as H3 by reflexivity.
  assert (ctxErr s !! 1 = None) as H4 by reflexivity.
  assert (now s0 + lockTimeout test_handler ≤ now s)%Z as H2
    by (vm_compute; discriminate).
  split; [by repeat split; try exact follower_waits_run|].
  destruct (follower_timeout_fallback test_handler s0 follower_waits s 1 1 c
              0 5100000000%Z H0 follower_waits_run H1 H3 H4)
    as (Hd & _ & Hlate & Hnext).
  destruct (Hlate H2) as (Honly & s1 & Hs1 & Ht1 & Hlog & _ & _ & _
                          & Hhp1 & Hm1).
  split; [exact Hd|]. split; [exact Honly|]. exists s1. split; [exact Hs1|].
  split; [exact Ht1|]. split; [exact Hlog|].
  assert (range_order (proxies test_handler) ["test"]) as Ho by by_evaluation.
  destruct (Hnext s1 ["test"] Ht1 Ho) as (_ & s3 & Hs3 & Hret & Hhp3 & Hm3).
  exists s3. split; [exact Hs3|].
  assert (world s1
          = add_log (log_lock_timeout c 5000000000%Z) (world s)) as Hw.
  { vm_compute in Hs1. injection Hs1 as <-. reflexivity. }
  rewrite Hw in Hret. vm_compute in Hret. destruct Hret as [Hret _].
  split; [exact Hret|]. split; congruence.
Defined.

Lemma cancelled_waiting_run :
  run test_handler (init 0) follower_is_cancelled = Some cancelled_waiting.
Proof. vm_compute. reflexivity. Defined.

(** A follower whose context is cancelled one second into its wait. *)
Lemma follower_cancelled_witness :
  let s := cancelled_waiting in
  let c := "test:channel" in
  (run test_handler (init 0) follower_is_cancelled = Some s
   ∧ threads s !! 1 = Some (AtSelect 1 c 0 5000000000%Z)
   ∧ ctxErr s !! 1 = Some ContextCanceled
   ∧ signalled s 0 = false
   ∧ (now s < 5000000000)%Z)
  ∧ (∀ ev s', actor ev = Some 1 → step test_handler s ev = Some s' →
              ev = EvSelectCtx 1)
  ∧ step test_handler s (EvSelectCtx 1)
    = Some (set_pc 1 (Exited ExitCanceled 1 c 0
                        (Returns None (Some ContextCanceled))) s).
Proof.
  intros s c.
  assert (threads s !! 1 = Some (AtSelect 1 c 0 5000000000%Z)) as H1
    by reflexivity.
  assert (ctxErr s !! 1 = Some ContextCanceled) as H2 by reflexivity.
  assert (signalled s 0 = false) as H3 by reflexivity.
  assert (now s < 5000000000)%Z as H4 by reflexivity.
  split; [by repeat split; try exact cancelled_waiting_run|].
  destruct (follower_cancelled test_handler 0 follower_is_cancelled s 1 1 c 0
              5000000000%Z ContextCanceled cancelled_waiting_run H1 H2 H3 H4)
    as (Honly & Hstep & _).
  split; [exact Honly|exact Hstep].
Defined.

(** The handler of the tests is built without a [LockTimeout]. *)
Lemma default_lock_timeout_witness :
  LockTimeout test_config = 0%Z
  ∧ lockTimeout (NewCacheEmptyHandler test_config) = (5 * Second)%Z
  ∧ (5 * Second = 5000000000)%Z.
Proof.
  split; [reflexivity|].
  destruct (default_lock_timeout test_config (init 0) 0 0 "c" 0 eq_refl)
    as (H1 & H2 & _).
  split; [exact H1|exact H2].
Defined.

(** ** The dispatch function on the test registries *)

(** The nil slot "a" is met first, logged and skipped; "b" is called. *)
Lemma handleCacheEmpty_first_usable_wins_witness :
  (range_entries mixed_registry ["a"; "b"]
   = [("a", None)] ++ ("b", Some counting_proxy) :: []
   ∧ Forall (λ e : string * option (CacheEmptyProxy nat), e.2 = None)
       [("a", None)])
  ∧ handleCacheEmpty 7 test_request mixed_registry ["a"; "b"] world0
    = (Returns (Some (populated true)) None,
       {| backend := 1;
          calls := [("b", 7, test_request)];
          logs := [log_nil_proxy "a"] |}).
Proof.
  assert (range_entries mixed_registry ["a"; "b"]
          = [("a", None)] ++ ("b", Some counting_proxy) :: []) as H1
    by reflexivity.
  assert (Forall (λ e : string * option (CacheEmptyProxy nat), e.2 = None)
            [("a", None)]) as H2 by (repeat constructor).
  split; [by split|].
  exact (handleCacheEmpty_first_usable_wins 7 test_request mixed_registry
           ["a"; "b"] [("a", None)] "b" counting_proxy [] world0 H1 H2).
Defined.

Lemma nil_registry_no_usable : no_usable nil_registry.
Proof.
  intros name v H. unfold nil_registry in H.
  apply lookup_singleton_Some in H as [_ <-]. reflexivity.
Defined.

Lemma handleCacheEmpty_no_backend_default_witness :
  no_usable nil_registry
  ∧ handleCacheEmpty 7 test_request nil_registry ["broken"] world0
    = (Returns (Some (populated false)) None,
       {| backend := 0; calls := []; logs := [log_nil_proxy "broken"] |}).
Proof.
  split; [exact nil_registry_no_usable|].
  pose proof (handleCacheEmpty_no_backend_default 7 test_request nil_registry
                ["broken"] world0 nil_registry_no_usable) as H.
  destruct (handleCacheEmpty 7 test_request nil_registry ["broken"] world0)
    as [o [b cs ls]].
  simpl in H. destruct H as (-> & -> & -> & ->). reflexivity.
Defined.

Lemma handleCacheEmpty_default_result_not_nil_witness :
  no_usable nil_registry
  ∧ ∃ resp res,
      (handleCacheEmpty 7 test_request nil_registry ["broken"] world0).1
      = Returns (Some resp) None
      ∧ Result resp = Some res.
Proof.
  split; [exact nil_registry_no_usable|].
  exact (handleCacheEmpty_default_result_not_nil 7 test_request nil_registry
           ["broken"] world0 nil_registry_no_usable).
Defined.

Lemma mixed_registry_one_usable : at_most_one_usable mixed_registry.
Proof.
  assert (∀ n p, mixed_registry !! n = Some (Some p) → n = "b") as Hb.
  { intros n p H. unfold mixed_registry in H.
    apply lookup_insert_Some in H as [[_ H]|[_ H]]; [discriminate H|].
    by apply lookup_singleton_Some in H as [<- _]. }
  intros n1 n2 p1 p2 H1 H2. rewrite (Hb _ _ H1), (Hb _ _ H2). reflexivity.
Defined.

(** With one usable entry, the two orders give the same result. *)
Lemma handleCacheEmpty_order_irrelevant_witness :
  (at_most_one_usable mixed_registry
   ∧ range_order mixed_registry ["a"; "b"]
   ∧ range_order mixed_registry ["b"; "a"])
  ∧ (handleCacheEmpty 7 test_request mixed_registry ["a"; "b"] world0).1
    = (handleCacheEmpty 7 test_request mixed_registry ["b"; "a"] world0).1.
Proof.
  assert (range_order mixed_registry ["a"; "b"]) as H1 by by_evaluation.
  assert (range_order mixed_registry ["b"; "a"]) as H2 by by_evaluation.
  split; [by repeat split; try exact mixed_registry_one_usable|].
  exact (proj1 (handleCacheEmpty_order_irrelevant 7 test_request
                  mixed_registry ["a"; "b"] ["b"; "a"] world0
                  mixed_registry_one_usable H1 H2)).
Defined.

(** C9 as stated fails: with two usable entries, two executions of the
    dispatch over the same registry, whose loops meet the keys in the two
    possible orders, call different proxies and return different results. *)
Lemma registry_order_matters :
  range_order double_registry ["a"; "b"]
  ∧ range_order double_registry ["b"; "a"]
  ∧ handleCacheEmpty 7 test_request double_registry ["a"; "b"] world0
    = (Returns (Some (populated true)) None,
       {| backend := 1; calls := [("a", 7, test_request)]; logs := [] |})
  ∧ handleCacheEmpty 7 test_request double_registry ["b"; "a"] world0
    = (Returns None (Some (ErrorString "backend down")),
       {| backend := 1; calls := [("b", 7, test_request)];
          logs := [log_proxy_error (ErrorString "backend down") "b"
                     "test:channel"] |}).
Proof.
  split; [by_evaluation|]. split; [by_evaluation|].
  split; reflexivity.
Qed.

(** * Further properties of the dispatch function *)

Section DispatchFurther.

Context {Backend : Type}.

Implicit Types (w : World Backend) (p : CacheEmptyProxy Backend).
Implicit Types (proxies : gmap string (option (CacheEmptyProxy Backend))).

(** The two ways a dispatch goes: past nil slots only, to the default; or
    past nil slots to a proxy of the registry, whose answer decides. *)
Lemma dispatch_cases ctx req proxies order w :
  (∃ nils,
     handleCacheEmpty ctx req proxies order w
     = (Returns (Some {| Result := Some {| Populated := false |} |}) None,
        skip_nils nils w))
  ∨ (∃ nils name p,
       proxies !! name = Some (Some p)
       ∧ handleCacheEmpty ctx req proxies order w
         = let '(o, b) := ProxyCacheEmpty p ctx req (backend w) in
           (dispatch_result o,
            {| backend := b;
               calls := calls w ++ [(name, ctx, req)];
               logs := logs (skip_nils nils w)
                         ++ error_line o name (Channel req) |})).
Proof.
  unfold handleCacheEmpty.
  destruct (entries_cases (range_entries proxies order))
    as [Hall|(nils & name & p & rest & Hs & Hn)].
  - left. exists (range_entries proxies order).
    rewrite <- (app_nil_r (range_entries proxies order)) at 1.
    by rewrite loop_skip_nils.
  - right. exists nils, name, p. split.
    + eapply elem_of_range_entries. rewrite Hs. apply elem_of_app.
      right. left.
    + rewrite Hs. by apply loop_first_usable.
Qed.

(** X1. Whatever the registry and the order in which it is ranged over, one
    dispatch: never returns a response together with an error; makes no
    transport call at all, leaving the backend as it is and returning the
    default response, or exactly one, to a usable proxy of the registry, with
    the context and the request it was given; and only ever adds lines to
    the log. *)
Theorem handleCacheEmpty_effects ctx req proxies order w :
  let '(o, w') := handleCacheEmpty ctx req proxies order w in
  (∀ r e, o = Returns r (Some e) → r = None)
  ∧ ((calls w' = calls w ∧ backend w' = backend w
      ∧ o = Returns (Some {| Result := Some {| Populated := false |} |}) None)
     ∨ (∃ name p,
          proxies !! name = Some (Some p)
          ∧ calls w' = calls w ++ [(name, ctx, req)]
          ∧ backend w' = (ProxyCacheEmpty p ctx req (backend w)).2))
  ∧ ∃ lines, logs w' = logs w ++ lines.
Proof.
  destruct (dispatch_cases ctx req proxies order w)
    as [(nils & ->)|(nils & name & p & Hl & ->)].
  - split; [by intros r e [= <- ?]|]. split; [by left|].
    simpl. by eexists.
  - destruct (ProxyCacheEmpty p ctx req (backend w)) as [o b] eqn:E.
    split; [|split].
    + intros r e. destruct o as [r' [e'|]|]; simpl; by intros [= <- <-].
    + right. exists name, p. by rewrite E.
    + simpl. rewrite <- app_assoc. by eexists.
Qed.

End DispatchFurther.

(** * Further properties of the coordinator *)

Section CoordinatorFurther.

Context {Backend : Type}.

Implicit Types (s : State Backend) (h : CacheEmptyHandler Backend).
Implicit Types (pc : PC) (t : tid) (l : loc) (c : string).

Lemma reachable_dispatch_inv h (b : Backend) evs s :
  run h (init b) evs = Some s → dispatch_inv h s.
Proof. apply run_dispatch_inv, dispatch_inv_init. Qed.

(** X2. In every reachable state, every invocation of [handleCacheEmpty] was
    made by a call of its own, for that call's channel, on the leader's or the
    fallback path; no call has invoked it twice; and a call that returned
    through the completion signal or through the cancellation branch has
    invoked it not at all. *)
Theorem each_call_dispatches_once h (b : Backend) evs s :
  run h (init b) evs = Some s →
  NoDup (dispatched s).*1
  ∧ (∀ t req, (t, req) ∈ dispatched s →
       ∃ pc, threads s !! t = Some pc
             ∧ req = {| Channel := pc_channel pc |}
             ∧ (is_Some (leader_of pc)
                ∨ ∃ ctx c l o, pc = Exited ExitFallback ctx c l o))
  ∧ (∀ t ctx c l o,
       threads s !! t = Some (Exited ExitShared ctx c l o)
       ∨ threads s !! t = Some (Exited ExitCanceled ctx c l o) →
       t ∉ (dispatched s).*1).
Proof.
  intros Hrun. destruct (reachable_dispatch_inv _ _ _ _ Hrun)
    as [D1 D2 D3 _ _].
  split; [done|]. split.
  - intros t req Hin. destruct (D3 _ _ Hin) as (pc & Ht & ->).
    exists pc. split; [done|]. split; [done|].
    assert (t ∈ (dispatched s).*1) as Hi.
    { apply list_elem_of_fmap. by eexists (_, _). }
    apply D2 in Hi as (pc' & Ht' & Hp). simplify_eq.
    destruct pc as [| | | | | | |[]]; simpl in *; try done; eauto 8.
  - intros t ctx c l o Ht Hin. apply D2 in Hin as (pc & Ht' & Hp).
    destruct Ht as [Ht|Ht]; by simplify_eq.
Qed.

(** The transport calls on record went to usable proxies of the registry. *)
Lemma calls_to_registry h s e s' :
  (∀ name ctx req, (name, ctx, req) ∈ calls (world s) →
                   ∃ p, proxies h !! name = Some (Some p)) →
  step_spec h s e s' →
  ∀ name ctx req, (name, ctx, req) ∈ calls (world s') →
                  ∃ p, proxies h !! name = Some (Some p).
Proof.
  intros IH Hstep.
  assert (∀ ctx req order o w,
            handleCacheEmpty ctx req (proxies h) order (world s) = (o, w) →
            ∀ name' ctx' req', (name', ctx', req') ∈ calls w →
                               ∃ p, proxies h !! name' = Some (Some p)) as Hd.
  { intros ctx req order o w Hh name' ctx' req' Hin.
    destruct (dispatch_cases ctx req (proxies h) order (world s))
      as [(nils & Hc)|(nils & name & p & Hl & Hc)]; rewrite Hc in Hh.
    - simplify_eq. by eapply IH.
    - destruct (ProxyCacheEmpty p ctx req (backend (world s))) as [o' b'].
      simplify_eq. simpl in Hin.
      apply elem_of_app in Hin as [Hin|[= -> -> ->]%list_elem_of_singleton];
        [by eapply IH|by eexists]. }
  destruct Hstep; simpl; try done; by eapply Hd.
Qed.

Lemma reachable_calls_to_registry h (b : Backend) evs s :
  run h (init b) evs = Some s →
  ∀ name ctx req, (name, ctx, req) ∈ calls (world s) →
                  ∃ p, proxies h !! name = Some (Some p).
Proof.
  apply (run_invariant h
           (λ s, ∀ name ctx req, (name, ctx, req) ∈ calls (world s) →
                                 ∃ p, proxies h !! name = Some (Some p))).
  - intros s1 e s2 IH Hstep. by eapply calls_to_registry.
  - simpl. intros name ctx req Hin. by apply elem_of_nil in Hin.
Qed.

(** Every transport call on record is the call of one dispatch. *)
Lemma calls_bounded h (b : Backend) evs s :
  run h (init b) evs = Some s →
  length (calls (world s)) ≤ length (dispatched s).
Proof.
  intros Hrun. destruct (reachable_dispatch_inv _ _ _ _ Hrun)
    as [_ _ _ D4 _].
  assert (calls (world s) = []
          ∨ ∃ name ctx req, (name, ctx, req) ∈ calls (world s)) as [Hc|Hc].
  { destruct (calls (world s)) as [|[[name ctx] req] cs]; [by left|].
    right. exists name, ctx, req. left. }
  - rewrite Hc. simpl. lia.
  - destruct Hc as (name & ctx & req & Hin). apply Nat.eq_le_incl.
    rewrite <- (length_fmap snd (calls (world s))).
    rewrite <- (length_fmap snd (dispatched s)). rewrite D4; [done|].
    destruct (reachable_calls_to_registry _ _ _ _ Hrun name ctx req Hin)
      as [p Hp]. by exists name, p.
Qed.

(** What a step does to the world: nothing but, at most, one more line of
    the log; or it is the dispatch of the call that takes the step. *)
Lemma step_world h s e s' :
  step_spec h s e s' →
  (calls (world s') = calls (world s)
   ∧ backend (world s') = backend (world s)
   ∧ dispatched s' = dispatched s
   ∧ ∀ t order, e ≠ EvLeaderDispatch t order
                ∧ e ≠ EvFallbackDispatch t order)
  ∨ ∃ t order pc pc',
      (e = EvLeaderDispatch t order ∨ e = EvFallbackDispatch t order)
      ∧ threads s !! t = Some pc ∧ threads s' !! t = Some pc'
      ∧ pc_ctx pc' = pc_ctx pc ∧ pc_channel pc' = pc_channel pc
      ∧ range_order (proxies h) order
      ∧ world s'
        = (handleCacheEmpty (pc_ctx pc) {| Channel := pc_channel pc |}
             (proxies h) order (world s)).2
      ∧ dispatched s'
        = dispatched s ++ [(t, {| Channel := pc_channel pc |})].
Proof.
  destruct 1; try (left; by repeat split); right.
  - exists t, order, (AtDispatch ctx c l), (AtDelete ctx c l (Returns r e)).
    simpl. rewrite lookup_insert_eq.
    match goal with H : handleCacheEmpty _ _ _ _ _ = _ |- _ => rewrite H end.
    by repeat split; try (by left).
  - exists t, order, (AtDispatch ctx c l), (AtDelete ctx c l Panics).
    simpl. rewrite lookup_insert_eq.
    match goal with H : handleCacheEmpty _ _ _ _ _ = _ |- _ => rewrite H end.
    by repeat split; try (by left).
  - exists t, order, (AtFallback ctx c l), (Exited ExitFallback ctx c l o).
    simpl. rewrite lookup_insert_eq.
    match goal with H : handleCacheEmpty _ _ _ _ _ = _ |- _ => rewrite H end.
    by repeat split; try (by right).
Qed.

(** Every transport call on record was made by a call that dispatched, with
    that call's context and for its channel. *)
Lemma calls_attributed h (b : Backend) evs s :
  run h (init b) evs = Some s →
  ∀ name ctx req, (name, ctx, req) ∈ calls (world s) →
    ∃ t pc, threads s !! t = Some pc ∧ (t, req) ∈ dispatched s
            ∧ pc_ctx pc = ctx ∧ req = {| Channel := pc_channel pc |}.
Proof.
  apply (run_invariant h
           (λ s, ∀ name ctx req, (name, ctx, req) ∈ calls (world s) →
              ∃ t pc, threads s !! t = Some pc ∧ (t, req) ∈ dispatched s
                      ∧ pc_ctx pc = ctx
                      ∧ req = {| Channel := pc_channel pc |})).
  - intros s1 e s2 IH Hstep.
    assert (∀ name ctx req, (name, ctx, req) ∈ calls (world s1) →
              ∃ t pc, threads s2 !! t = Some pc ∧ (t, req) ∈ dispatched s2
                      ∧ pc_ctx pc = ctx
                      ∧ req = {| Channel := pc_channel pc |}) as Hold.
    { intros name ctx req Hin.
      destruct (IH _ _ _ Hin) as (t & pc & Ht & Hd & Hx & Hr).
      destruct (step_thread_stable _ _ _ _ _ _ Hstep Ht)
        as (pc' & Ht' & Hc' & Hx' & _).
      destruct (dispatched_step _ _ _ _ Hstep) as [d Hd'].
      exists t, pc'. split; [done|]. split.
      { rewrite Hd'. apply elem_of_app. by left. }
      split; congruence. }
    destruct (step_world _ _ _ _ Hstep)
      as [(Hc & _)|(t & order & pc & pc' & _ & Ht & Ht' & Hx & Hc & _ & Hw
                    & Hd)].
    + intros name ctx req Hin. rewrite Hc in Hin. by eapply Hold.
    + intros name ctx req Hin. rewrite Hw in Hin.
      destruct (dispatch_cases (pc_ctx pc) {| Channel := pc_channel pc |}
                  (proxies h) order (world s1))
        as [(nils & Heq)|(nils & name' & p & Hl & Heq)];
        rewrite Heq in Hin.
      * by eapply Hold.
      * destruct (ProxyCacheEmpty p _ _ _) as [o' b']. simpl in Hin.
        apply elem_of_app in Hin
            as [Hin|[= -> -> ->]%list_elem_of_singleton];
          [by eapply Hold|].
        exists t, pc'. split; [done|]. split.
        { rewrite Hd. apply elem_of_app. right. left. }
        split; congruence.
  - simpl. intros name ctx req Hin. by apply elem_of_nil in Hin.
Qed.

(** X3. Only a dispatch touches the transport. A step of the handler other
    than a dispatch changes neither the record of transport calls nor the
    backend. The dispatch of a call makes no transport call, or exactly one,
    to a usable proxy of the registry with the context and for the channel of
    that call, and exactly one when the registry has a usable proxy. So, in
    every reachable state, every transport call on record went to a usable
    proxy of the registry and was made by a call that dispatched, with that
    call's context and for its channel; there are no more transport calls
    than dispatches; and there is none when the registry has no usable
    proxy. *)
Theorem transport_calls_match_dispatches h (b : Backend) evs s :
  run h (init b) evs = Some s →
  (∀ name ctx req,
     (name, ctx, req) ∈ calls (world s) →
     (∃ p, proxies h !! name = Some (Some p))
     ∧ ∃ t pc, threads s !! t = Some pc ∧ (t, req) ∈ dispatched s
               ∧ pc_ctx pc = ctx ∧ req = {| Channel := pc_channel pc |})
  ∧ length (calls (world s)) ≤ length (dispatched s)
  ∧ (no_usable (proxies h) → calls (world s) = [])
  ∧ ∀ e s',
      step h s e = Some s' →
      match e with
      | EvLeaderDispatch t _ | EvFallbackDispatch t _ =>
          ∃ pc,
            threads s !! t = Some pc
            ∧ ((calls (world s') = calls (world s)
                ∧ backend (world s') = backend (world s))
               ∨ ∃ name p,
                   proxies h !! name = Some (Some p)
                   ∧ calls (world s')
                     = calls (world s)
                         ++ [(name, pc_ctx pc,
                              {| Channel := pc_channel pc |})]
                   ∧ backend (world s')
                     = (ProxyCacheEmpty p (pc_ctx pc)
                          {| Channel := pc_channel pc |}
                          (backend (world s))).2)
            ∧ (has_usable (proxies h) →
               length (calls (world s')) = S (length (calls (world s))))
      | _ =>
          calls (world s') = calls (world s)
          ∧ backend (world s') = backend (world s)
      end.
Proof.
  intros Hrun. destruct (reachable_dispatch_inv _ _ _ _ Hrun)
    as [_ _ _ _ D5].
  split; [|split; [|split; [done|]]].
  - intros name ctx req Hin. split.
    + by eapply reachable_calls_to_registry.
    + by eapply calls_attributed.
  - by eapply calls_bounded.
  - intros e s' Hstep%step_sound.
    destruct (step_world _ _ _ _ Hstep)
      as [(Hc & Hb & _ & Hne)
         |(t & order & pc & pc' & He & Ht & _ & _ & _ & Ho & Hw & _)].
    + destruct e; try done; by destruct (Hne t order).
    + assert (∃ pc0,
                threads s !! t = Some pc0
                ∧ ((calls (world s') = calls (world s)
                    ∧ backend (world s') = backend (world s))
                   ∨ ∃ name p,
                       proxies h !! name = Some (Some p)
                       ∧ calls (world s')
                         = calls (world s)
                             ++ [(name, pc_ctx pc0,
                                  {| Channel := pc_channel pc0 |})]
                       ∧ backend (world s')
                         = (ProxyCacheEmpty p (pc_ctx pc0)
                              {| Channel := pc_channel pc0 |}
                              (backend (world s))).2)
                ∧ (has_usable (proxies h) →
                   length (calls (world s'))
                   = S (length (calls (world s))))) as Hgoal.
      { exists pc. split; [done|]. rewrite Hw. split.
        - destruct (dispatch_cases (pc_ctx pc)
                      {| Channel := pc_channel pc |} (proxies h) order
                      (world s))
            as [(nils & ->)|(nils & name & p & Hl & ->)]; [by left|].
          right. exists name, p. split; [done|].
          by destruct (ProxyCacheEmpty p _ _ _).
        - intros Hu.
          destruct (handleCacheEmpty (pc_ctx pc)
                      {| Channel := pc_channel pc |} (proxies h) order
                      (world s)) as [o w] eqn:Hd.
          destruct (handleCacheEmpty_calls _ _ _ _ _ _ _ Ho Hd)
            as [Hcalls _].
          destruct (Hcalls Hu) as [name Hn]. simpl.
          rewrite Hn, length_app. simpl. lia. }
      by destruct He as [-> | ->].
Qed.

(** X4. In every reachable state, a follower that returned through the
    completion signal of a lock returned what the leader of that lock, which
    is over, returned; and when the leader's dispatch panicked, so that there
    is nothing stored on the lock, it returned a nil response with a nil
    error. *)
Theorem follower_gets_leader_pair h (b : Backend) evs s t ctx c l ret :
  run h (init b) evs = Some s →
  threads s !! t = Some (Exited ExitShared ctx c l ret) →
  ∃ t0 ctx0 ret0,
    threads s !! t0 = Some (Exited ExitLeader ctx0 c l ret0)
    ∧ ret = match ret0 with
            | Returns r e => Returns r e
            | Panics => Returns None None
            end.
Proof.
  intros Hrun Ht. destruct (reachable_lock_inv _ _ _ _ Hrun)
    as [I1 I2 I3 I4 I5 I6].
  destruct (I6 _ _ _ _ _ Ht) as (lk & Hlk & Hdone & ->).
  destruct (I5 _ _ l Ht eq_refl) as (t0 & pc0 & Ht0 & Hl0 & Hc0).
  pose proof (I4 _ _ _ Ht0 Hl0) as Hx. rewrite Hlk in Hx.
  destruct pc0 as [| |? ? ? ret0|? ? ? ret0| | | |[] ? ? ? ret0];
    simpl in *; simplify_eq; try (by destruct ret0).
  exists t0, ctx0, ret0. split; [done|]. by destruct ret0.
Qed.

(** A lock whose completion signal has fired is never written again. *)
Lemma closed_lock_step h s e s' l lk :
  lock_inv s → step_spec h s e s' →
  heap s !! l = Some lk → done lk = true → heap s' !! l = Some lk.
Proof.
  intros HL Hstep Hlk Hdone.
  assert (l ≠ fresh (dom (heap s))) as Hfresh.
  { intros ->. by rewrite fresh_lock_not_in_heap in Hlk. }
  destruct Hstep; simpl; try done.
  - by rewrite lookup_insert_ne.
  - by rewrite lookup_insert_ne.
  - rewrite lookup_insert_ne; [done|]. intros ->.
    match goal with H : threads s !! _ = Some (AtDispatch _ _ _) |- _ =>
      pose proof (inv_leader_lock _ HL _ _ _ H eq_refl) as Hx end.
    simpl in Hx. by simplify_eq.
  - rewrite lookup_insert_ne; [done|]. intros ->. congruence.
Qed.

(** X5. The completion signal is one-shot and what it publishes is final: from
    a reachable state on, a lock whose [done] channel is closed stays exactly
    as it is, pair and signal, whatever happens next. *)
Theorem signal_one_shot h (b : Backend) evs0 s evs s' l lk :
  run h (init b) evs0 = Some s →
  run h s evs = Some s' →
  heap s !! l = Some lk → done lk = true →
  heap s' !! l = Some lk.
Proof.
  intros Hrun0 Hrun Hlk Hdone.
  pose proof (reachable_lock_inv _ _ _ _ Hrun0) as HL.
  clear Hrun0. revert s HL Hrun Hlk.
  induction evs as [|e evs IH]; intros s HL Hrun Hlk; simpl in Hrun.
  - by simplify_eq.
  - destruct (step h s e) as [s1|] eqn:E; simpl in Hrun; [|done].
    apply step_sound in E. eapply (IH s1); [|done|].
    + by eapply lock_inv_step.
    + by eapply closed_lock_step.
Qed.

(** The timer of a follower found in [select] was started in the past: its
    deadline is no later than the lock-wait timeout from now. *)
Lemma deadline_bound h (b : Backend) evs s :
  run h (init b) evs = Some s →
  ∀ t ctx c l dl, threads s !! t = Some (AtSelect ctx c l dl) →
                  (dl ≤ now s + lockTimeout h)%Z.
Proof.
  apply (run_invariant h
           (λ s, ∀ t ctx c l dl,
              threads s !! t = Some (AtSelect ctx c l dl) →
              (dl ≤ now s + lockTimeout h)%Z)).
  - intros s1 e s2 IH Hstep. destruct Hstep; simpl; try done;
      try (intros t9 ctx9 c9 l9 dl9 [[<- ?]|[_ Hold]]%lookup_insert_Some;
           simplify_eq; try lia; by eapply IH).
    intros t9 ctx9 c9 l9 dl9 Ht. specialize (IH _ _ _ _ _ Ht). lia.
  - simpl. intros t ctx c l dl. by rewrite lookup_empty.
Qed.

(** X6. Apart from the proxy call itself, nothing in [handle] blocks for
    longer than the lock-wait timeout: in every reachable state, every call
    that is not over and is not at one of its invocations of
    [handleCacheEmpty] can take a step of its own after a time [d] of at
    most the lock-wait timeout, and at once unless it is blocked in
    [select]. (Whether a call at a dispatch goes on is up to the proxy it
    calls.) *)
Theorem no_call_stuck h (b : Backend) evs s t pc :
  run h (init b) evs = Some s →
  threads s !! t = Some pc → exited pc = false → at_dispatch pc = false →
  ∃ d e, (0 ≤ d ≤ Z.max 0 (lockTimeout h))%Z
         ∧ ((∀ ctx c l dl, pc ≠ AtSelect ctx c l dl) → d = 0%Z)
         ∧ actor e = Some t
         ∧ is_Some (run h s [EvTick d; e]).
Proof.
  intros Hrun Ht Hex Hat.
  pose proof (reachable_lock_inv _ _ _ _ Hrun) as HL.
  assert (∀ d e s', (0 ≤ d)%Z →
            step_spec h {| now := (now s + d)%Z; ctxErr := ctxErr s;
                           channelLocks := channelLocks s; heap := heap s;
                           threads := threads s; world := world s;
                           dispatched := dispatched s |} e s' →
            is_Some (run h s [EvTick d; e])) as Hgo.
  { intros d e s' Hd Hs. simpl. rewrite decide_True by done. simpl.
    rewrite (step_complete _ _ _ _ Hs). by eexists. }
  destruct pc as [ctx c|ctx c l|ctx c l ret|ctx c l ret|ctx c l|ctx c l dl
                 |ctx c l|]; try done.
  - exists 0%Z, (EvGetOrCreateLock t). split; [lia|]. split; [done|].
    split; [done|].
    destruct (channelLocks s !! c) as [l|] eqn:Hm.
    + eapply Hgo; [done|]. by eapply SpecJoin.
    + eapply Hgo; [done|]. by eapply SpecInstall.
  - exists 0%Z, (EvLeaderDelete t). split; [lia|]. split; [done|].
    split; [done|]. eapply Hgo; [done|]. by eapply SpecLeaderDelete.
  - exists 0%Z, (EvLeaderClose t). split; [lia|]. split; [done|].
    split; [done|].
    pose proof (inv_leader_lock _ HL _ _ l Ht eq_refl) as Hlk. simpl in Hlk.
    eapply Hgo; [done|]. eapply SpecLeaderClose; [done..|]. by destruct ret.
  - exists 0%Z, (EvNewTimer t). split; [lia|]. split; [done|].
    split; [done|]. eapply Hgo; [done|]. by eapply SpecNewTimer.
  - pose proof (deadline_bound _ _ _ _ Hrun _ _ _ _ _ Ht) as Hdl.
    exists (Z.max 0 (dl - now s)), (EvSelectTimer t).
    split; [lia|]. split; [intros Hne; by destruct (Hne ctx c l dl)|].
    split; [done|].
    eapply Hgo; [lia|]. eapply SpecSelectTimer; [done|]. simpl. lia.
Qed.

(** X7. A call never loops or retries: every step of a call leaves it with
    strictly fewer steps to go, of at most four from the start, and a step of
    one call moves no other call. *)
Theorem call_steps_decrease h s e s' t :
  step h s e = Some s' → actor e = Some t →
  (∀ t', t' ≠ t → threads s' !! t' = threads s !! t')
  ∧ ∃ pc', threads s' !! t = Some pc'
           ∧ match threads s !! t with
             | None => steps_left pc' = 4
             | Some pc => steps_left pc' < steps_left pc
             end.
Proof.
  intros Hstep Ha. apply step_sound in Hstep.
  destruct Hstep; simpl in Ha; simplify_eq; simpl;
    (split; [intros t' Hne; by rewrite lookup_insert_ne|]);
    eexists; (split; [apply lookup_insert_eq|]);
    match goal with H : threads s !! _ = _ |- _ => rewrite H end;
    simpl; lia.
Qed.

(** The lock a call holds is allocated, and led by a call for the same
    channel. *)
Lemma held_lock_leader s t pc l :
  lock_inv s → threads s !! t = Some pc → pc_lock pc = Some l →
  is_Some (heap s !! l)
  ∧ ∃ t0 pc0, threads s !! t0 = Some pc0 ∧ leader_of pc0 = Some l
              ∧ pc_channel pc0 = pc_channel pc.
Proof.
  intros [I1 I2 I3 I4 I5 I6] Ht Hl.
  assert (∃ t0 pc0, threads s !! t0 = Some pc0 ∧ leader_of pc0 = Some l
                    ∧ pc_channel pc0 = pc_channel pc)
    as (t0 & pc0 & Ht0 & Hl0 & Hc0).
  { apply pc_lock_role in Hl as [Hl|Hf]; [by eauto|by eapply I5]. }
  split; [|by eauto]. rewrite (I4 _ _ _ Ht0 Hl0). by eapply leader_expected.
Qed.

(** X8. Calls for different channels do not interfere: in a reachable state,
    a step of a call for one channel changes neither the map entry of any
    other channel, nor any call for another channel, nor the lock such a
    call holds. *)
Theorem channels_isolated h (b : Backend) evs s e s' t pc :
  run h (init b) evs = Some s →
  step h s e = Some s' → actor e = Some t → threads s !! t = Some pc →
  ∀ c', c' ≠ pc_channel pc →
    channelLocks s' !! c' = channelLocks s !! c'
    ∧ ∀ t' pc', threads s !! t' = Some pc' → pc_channel pc' = c' →
        threads s' !! t' = Some pc'
        ∧ ∀ l', pc_lock pc' = Some l' → heap s' !! l' = heap s !! l'.
Proof.
  intros Hrun Hstep Ha Ht c' Hc'.
  pose proof (reachable_lock_inv _ _ _ _ Hrun) as HL.
  apply step_sound in Hstep.
  assert (∀ t' pc', threads s !! t' = Some pc' → pc_channel pc' = c' →
            t' ≠ t) as Hother.
  { intros t' pc' Ht' Hpc' ->. by simplify_eq. }
  assert (∀ t' pc' l', threads s !! t' = Some pc' → pc_channel pc' = c' →
            pc_lock pc' = Some l' →
            l' ≠ fresh (dom (heap s)) ∧ leader_of pc ≠ Some l') as Hlock.
  { intros t' pc' l' Ht' Hpc' Hl'.
    destruct (held_lock_leader _ _ _ _ HL Ht' Hl')
      as ([lk Hlk] & t0 & pc0 & Ht0 & Hl0 & Hc0).
    split.
    - intros ->. by rewrite fresh_lock_not_in_heap in Hlk.
    - intros Hl. assert (t = t0) as ->
        by by eapply (inv_leader_unique _ HL _ _ _ _ l' Ht Ht0).
      simplify_eq. }
  destruct Hstep; simpl in Ha; simplify_eq; simpl in *;
    (split; [try done|
             intros t' pc' Ht' Hpc';
             (split; [rewrite lookup_insert_ne; [done|];
                      intros <-; by eapply Hother|]);
             intros l' Hl';
             destruct (Hlock _ _ _ Ht' Hpc' Hl') as [Hf Hn];
             first [done|rewrite lookup_insert_ne; [done|congruence]]]).
  - by rewrite lookup_insert_ne.
  - by rewrite lookup_delete_ne.
Qed.

Lemma run_two h s e1 e2 s1 s2 :
  step h s e1 = Some s1 → step h s1 e2 = Some s2 →
  run h s [e1; e2] = Some s2.
Proof. intros H1 H2. simpl. rewrite H1. simpl. by rewrite H2. Qed.

(** While no call for a channel is in progress the map has no entry for
    it. *)
Lemma idle_no_entry c s : lock_inv s → idle c s → channelLocks s !! c = None.
Proof.
  intros HL Hidle. destruct (channelLocks s !! c) as [l|] eqn:E; [|done].
  destruct (inv_entry_owner _ HL _ _ E) as (t & pc & Ht & He).
  pose proof (proj2 (entry_leader _ _ _ He)) as Hc.
  specialize (Hidle _ _ Ht Hc). by destruct pc.
Qed.

(** X9. Nothing is cached past the calls in flight: in a reachable state in
    which no call for a channel is in progress, the map has no entry for the
    channel, and the next call for it is a leader again, on a lock that is
    newly allocated, empty and not signalled. *)
Theorem idle_next_call_leads h (b : Backend) evs s c t ctx :
  run h (init b) evs = Some s →
  idle c s →
  threads s !! t = None →
  channelLocks s !! c = None
  ∧ ∃ s' l,
      run h s [EvHandle t ctx c; EvGetOrCreateLock t] = Some s'
      ∧ threads s' !! t = Some (AtDispatch ctx c l)
      ∧ heap s !! l = None
      ∧ heap s' !! l = Some empty_lock
      ∧ channelLocks s' !! c = Some l.
Proof.
  intros Hrun Hidle Ht.
  pose proof (idle_no_entry _ _ (reachable_lock_inv _ _ _ _ Hrun) Hidle)
    as Hm.
  split; [done|]. eexists _, (fresh (dom (heap s))). split.
  - simpl. rewrite Ht. simpl. rewrite lookup_insert_eq.
    unfold getOrCreateLock, LoadOrStore. simpl. rewrite Hm. simpl. done.
  - simpl. rewrite !lookup_insert_eq. by rewrite fresh_lock_not_in_heap.
Qed.

(** X10. Only a zero [LockTimeout] is replaced by the default: any other
    value is kept as it is, and with a negative one the timer a follower
    starts has fired already, so that the follower can fall back to its own
    dispatch at once, before any time has passed. *)
Theorem negative_lock_timeout (cfg : CacheEmptyHandlerConfig Backend) :
  LockTimeout cfg ≠ 0%Z →
  let h := NewCacheEmptyHandler cfg in
  lockTimeout h = LockTimeout cfg
  ∧ ((LockTimeout cfg < 0)%Z →
     ∀ s t ctx c l,
       threads s !! t = Some (AtNewTimer ctx c l) →
       ∃ s2, run h s [EvNewTimer t; EvSelectTimer t] = Some s2
             ∧ threads s2 !! t = Some (AtFallback ctx c l)
             ∧ now s2 = now s).
Proof.
  intros Hnz h.
  assert (lockTimeout h = LockTimeout cfg) as Hlt.
  { unfold h, NewCacheEmptyHandler. simpl. by rewrite decide_False. }
  split; [done|]. intros Hneg s t ctx c l Ht.
  set (s1 := set_pc t (AtSelect ctx c l (now s + lockTimeout h)%Z) s).
  assert (step h s (EvNewTimer t) = Some s1) as H1.
  { apply step_complete. by eapply SpecNewTimer. }
  assert (threads s1 !! t = Some (AtSelect ctx c l (now s + lockTimeout h)%Z))
    as Ht1 by apply lookup_insert_eq.
  assert (now s + lockTimeout h ≤ now s1)%Z as Hfired.
  { rewrite Hlt. simpl. lia. }
  eexists. split.
  - apply (run_two _ _ _ _ s1); [done|].
    apply step_complete. by eapply SpecSelectTimer.
  - simpl. by rewrite lookup_insert_eq.
Qed.

(** X11. The context is consulted at the follower's wait only: a call whose
    context is already done, and which finds no entry for its channel,
    becomes the leader all the same and invokes a usable proxy of the
    registry, with that context. *)
Theorem done_context_still_dispatches h s t ctx c e order :
  threads s !! t = Some (AtEntry ctx c) →
  channelLocks s !! c = None →
  ctxErr s !! ctx = Some e →
  range_order (proxies h) order →
  has_usable (proxies h) →
  ∃ s' l name,
    run h s [EvGetOrCreateLock t; EvLeaderDispatch t order] = Some s'
    ∧ threads s' !! t
      = Some (AtDelete ctx c l
                (handleCacheEmpty ctx {| Channel := c |} (proxies h) order
                   (world s)).1)
    ∧ calls (world s')
      = calls (world s) ++ [(name, ctx, {| Channel := c |})]
    ∧ dispatched s' = dispatched s ++ [(t, {| Channel := c |})].
Proof.
  intros Ht Hm Hctx Ho Hu.
  destruct (handleCacheEmpty ctx {| Channel := c |} (proxies h) order
              (world s)) as [o w] eqn:Hd.
  destruct (handleCacheEmpty_calls _ _ _ _ _ _ _ Ho Hd) as [Hcalls _].
  destruct (Hcalls Hu) as [name Hname].
  set (s1 := set_pc t (AtDispatch ctx c (fresh (dom (heap s))))
               (set_channelLocks
                  (<[c := fresh (dom (heap s))]> (channelLocks s))
                  (set_heap (<[fresh (dom (heap s)) := empty_lock]> (heap s))
                     s))).
  assert (step h s (EvGetOrCreateLock t) = Some s1) as H1.
  { apply step_complete. by eapply SpecInstall. }
  assert (threads s1 !! t = Some (AtDispatch ctx c (fresh (dom (heap s)))))
    as Ht1 by apply lookup_insert_eq.
  assert (heap s1 !! fresh (dom (heap s)) = Some empty_lock) as Hl1
    by apply lookup_insert_eq.
  destruct o as [r e'|].
  - eexists _, (fresh (dom (heap s))), name. split.
    + apply (run_two _ _ _ _ s1); [done|].
      apply step_complete. by eapply SpecLeaderReturns.
    + simpl. by rewrite lookup_insert_eq.
  - eexists _, (fresh (dom (heap s))), name. split.
    + apply (run_two _ _ _ _ s1); [done|].
      apply step_complete. by eapply SpecLeaderPanics.
    + simpl. by rewrite lookup_insert_eq.
Qed.

(** An error a dispatch returns is the answer of a proxy of the registry. *)
Lemma dispatch_error_source ctx req
    (proxies : gmap string (option (CacheEmptyProxy Backend))) order w e0 o w' :
  never_answers proxies e0 →
  handleCacheEmpty ctx req proxies order w = (o, w') →
  ∀ r, o ≠ Returns r (Some e0).
Proof.
  intros Hnever Hd r Ho. subst o.
  destruct (dispatch_cases ctx req proxies order w)
    as [(nils & Hc)|(nils & name & p & Hl & Hc)]; rewrite Hc in Hd.
  - by simplify_eq.
  - pose proof (Hnever name p ctx req (backend w)) as Hn.
    destruct (ProxyCacheEmpty p ctx req (backend w)) as [[r' [e'|]|] b'];
      simpl in *; simplify_eq. by eapply Hn.
Qed.

Lemma error_free_init e0 (b : Backend) : error_free e0 (init b).
Proof. constructor; simpl; intros *; by rewrite lookup_empty. Qed.

Lemma error_free_step h e0 s e s' :
  never_answers (proxies h) e0 → is_ctx_error e0 = false →
  error_free e0 s → step_spec h s e s' → error_free e0 s'.
Proof.
  intros Hnever Hnc [F1 F2 F3] Hstep.
  pose proof (λ ctx req order o w, dispatch_error_source ctx req (proxies h)
                                     order (world s) e0 o w Hnever) as Hsrc.
  destruct Hstep; constructor; simpl; try done;
    try (intros l9 lk9 [[<- <-]|[_ Hold]]%lookup_insert_Some;
         [simpl|by eapply F1]);
    try (intros t9 pc9 r9 [[<- <-]|[_ Hold]]%lookup_insert_Some;
         [simpl|by eapply F2]);
    try done.
  - intros ctx9 e9 [[<- <-]|[_ Hold]]%lookup_insert_Some;
      [done|by eapply F3].
  - intros ->. by eapply Hsrc.
  - intros [= -> ->]. by eapply Hsrc.
  - match goal with H : threads s !! _ = Some _ |- _ =>
      by eapply (F2 _ _ r9 H) end.
  - match goal with H : heap s !! _ = Some _ |- _ => by eapply (F1 _ _ H) end.
  - match goal with H : threads s !! _ = Some _ |- _ =>
      by eapply (F2 _ _ r9 H) end.
  - intros [= _ Herr].
    match goal with H : heap s !! _ = Some _ |- _ => by eapply (F1 _ _ H) end.
  - intros [= _ ->].
    match goal with H : ctxErr s !! _ = Some _ |- _ =>
      apply F3 in H end. congruence.
  - intros [= ->]. by eapply Hsrc.
Qed.

(** X12. The coordinator invents no error: if no proxy of the registry ever
    answers with a given error, and that error is not one of the two context
    errors, then no call ever returns it. *)
Theorem no_invented_errors h (b : Backend) evs s e0 t pc r :
  never_answers (proxies h) e0 →
  is_ctx_error e0 = false →
  run h (init b) evs = Some s →
  threads s !! t = Some pc →
  returned pc ≠ Some (r, Some e0).
Proof.
  intros Hnever Hnc Hrun Ht Hret.
  assert (error_free e0 s) as [_ F2 _].
  { apply (run_invariant h (error_free e0)) with (evs := evs) (s := init b);
      [|apply error_free_init|done].
    intros. by eapply error_free_step. }
  apply (F2 _ _ r Ht).
  destruct pc as [| | | | | | |? ? ? ? []]; simpl in *; by simplify_eq.
Qed.

End CoordinatorFurther.

(** * The HTTP binding under the coordinator *)

Section HTTPFurther.

Context {Backend Headers Transform : Type}.

Implicit Types (k : HTTPHelpers Headers Transform).
Implicit Types (hp : HTTPCacheEmptyProxy Backend Headers Transform).
Implicit Types (wire : Wire Backend Headers).

(** One call of the proxy: nothing is sent, and the backend is not reached,
    when the request cannot be encoded; otherwise one request is sent, the
    one for the context and the request of the call. *)
Lemma http_proxy_sends k hp ctx req wire :
  let '(o, wire') := HTTP_ProxyCacheEmpty k hp ctx req wire in
  match http_request k hp ctx req with
  | None => wire' = wire
            ∧ ∃ e, o = Returns None (Some e)
                   ∧ (EncodeNotifyCacheEmptyRequest k req).2 = Some e
  | Some r => sent wire' = sent wire ++ [r]
  end.
Proof.
  unfold HTTP_ProxyCacheEmpty, http_request.
  destruct (EncodeNotifyCacheEmptyRequest k req) as [d [e|]] eqn:E.
  - split; [done|]. by exists e.
  - destruct (CallHTTP _ _ _ _ _ _) as [[respData [e|]] b'].
    + by destruct (transformCacheEmptyResponse _ _ _).
    + by destruct (DecodeNotifyCacheEmptyResponse _ _).
Qed.

Lemma wire_inv_dispatch k proxies ctx req order
    (w : World (Wire Backend Headers)) o w' :
  http_registry k proxies → wire_inv k proxies w →
  handleCacheEmpty ctx req proxies order w = (o, w') →
  wire_inv k proxies w'.
Proof.
  intros Hreg [W1 W2] Hd.
  destruct (dispatch_cases ctx req proxies order w)
    as [(nils & Hc)|(nils & name & p & Hl & Hc)]; rewrite Hc in Hd.
  - simplify_eq. by constructor.
  - destruct (Hreg _ _ Hl) as [hp ->].
    pose proof (http_proxy_sends k hp ctx req (backend w)) as Hs.
    simpl in Hd.
    destruct (HTTP_ProxyCacheEmpty k hp ctx req (backend w)) as [o' b'].
    simplify_eq.
    assert (∀ r, r ∈ sent (backend w) →
              ∃ name0 hp0 ctx0 req0,
                (name0, ctx0, req0) ∈ calls w ++ [(name, ctx, req)]
                ∧ proxies !! name0 = Some (Some (HTTP_interface k hp0))
                ∧ http_request k hp0 ctx0 req0 = Some r) as Hold.
    { intros r Hin.
      destruct (W2 r Hin) as (name0 & hp0 & ctx0 & req0 & Hc0 & H0).
      exists name0, hp0, ctx0, req0. split; [|done].
      apply elem_of_app. by left. }
    destruct (http_request k hp ctx req) as [r|] eqn:Hr.
    + constructor; simpl; rewrite ?Hs, ?length_app; simpl; [lia|].
      intros r' [Hin| ->%list_elem_of_singleton]%elem_of_app;
        [by apply Hold|].
      exists name, hp, ctx, req. split; [|done].
      apply elem_of_app. right. left.
    + destruct Hs as [-> _].
      constructor; simpl; rewrite ?length_app; simpl; [lia|done].
Qed.

Lemma wire_inv_step k (h : CacheEmptyHandler (Wire Backend Headers))
    s e s' :
  http_registry k (proxies h) → wire_inv k (proxies h) (world s) →
  step_spec h s e s' → wire_inv k (proxies h) (world s').
Proof.
  intros Hreg HW Hstep.
  destruct Hstep; simpl; try done; try (by eapply wire_inv_dispatch).
  destruct HW. by constructor.
Qed.

(** X13. With a registry whose usable entries are HTTP proxies. The dispatch
    of a call, when the channel of the call can be encoded and the registry
    has a usable entry, sends exactly one HTTP request: to the endpoint of a
    registered proxy, with the headers built for the context of that call
    and the encoded request for its channel as body; when the channel cannot
    be encoded it sends nothing and does not reach the backend; and no other
    step of the handler sends anything. So, in every execution, every
    request sent is the request of a registered proxy for a call that
    dispatched, with the headers for that call's context and the encoding of
    that call's channel, and the requests never outnumber the dispatches. *)
Theorem http_requests_bounded k
    (h : CacheEmptyHandler (Wire Backend Headers)) (b : Backend) evs s :
  http_registry k (proxies h) →
  run h (init {| remote := b; sent := [] |}) evs = Some s →
  (∀ r, r ∈ sent (backend (world s)) →
        ∃ name hp t pc,
          proxies h !! name = Some (Some (HTTP_interface k hp))
          ∧ threads s !! t = Some pc
          ∧ (t, {| Channel := pc_channel pc |}) ∈ dispatched s
          ∧ url r = Endpoint (config hp)
          ∧ headers r = httpRequestHeaders k (pc_ctx pc) (config hp)
          ∧ EncodeNotifyCacheEmptyRequest k {| Channel := pc_channel pc |}
            = (body r, None))
  ∧ length (sent (backend (world s))) ≤ length (dispatched s)
  ∧ ∀ e s',
      step h s e = Some s' →
      match e with
      | EvLeaderDispatch t _ | EvFallbackDispatch t _ =>
          ∃ pc,
            threads s !! t = Some pc
            ∧ match EncodeNotifyCacheEmptyRequest k
                      {| Channel := pc_channel pc |} with
              | (data, None) =>
                  has_usable (proxies h) →
                  ∃ name hp,
                    proxies h !! name = Some (Some (HTTP_interface k hp))
                    ∧ sent (backend (world s'))
                      = sent (backend (world s))
                          ++ [{| url := Endpoint (config hp);
                                 headers :=
                                   httpRequestHeaders k (pc_ctx pc)
                                     (config hp);
                                 body := data |}]
              | (_, Some _) => backend (world s') = backend (world s)
              end
      | _ => backend (world s') = backend (world s)
      end.
Proof.
  intros Hreg Hrun.
  assert (wire_inv k (proxies h) (world s)) as [W1 W2].
  { apply (run_invariant h (λ s, wire_inv k (proxies h) (world s)))
      with (evs := evs) (s := init {| remote := b; sent := [] |});
      [| |done].
    - intros. by eapply wire_inv_step.
    - constructor; simpl; [lia|].
      intros r Hin. by apply elem_of_nil in Hin. }
  split; [|split].
  - intros r Hin.
    destruct (W2 r Hin) as (name & hp & ctx & req & Hc & Hp & Hr).
    destruct (calls_attributed _ _ _ _ Hrun _ _ _ Hc)
      as (t & pc & Ht & Hd & <- & ->).
    exists name, hp, t, pc. split; [done|]. split; [done|].
    split; [done|]. unfold http_request in Hr.
    destruct (EncodeNotifyCacheEmptyRequest k _) as [d [e|]]; [done|].
    by simplify_eq.
  - pose proof (calls_bounded _ _ _ _ Hrun). lia.
  - intros e s' Hstep%step_sound.
    destruct (step_world _ _ _ _ Hstep)
      as [(_ & Hb & _ & Hne)
         |(t & order & pc & pc' & He & Ht & _ & _ & _ & Ho & Hw & _)].
    + destruct e; try done; by destruct (Hne t order).
    + assert (∃ pc0,
                threads s !! t = Some pc0
                ∧ match EncodeNotifyCacheEmptyRequest k
                          {| Channel := pc_channel pc0 |} with
                  | (data, None) =>
                      has_usable (proxies h) →
                      ∃ name hp,
                        proxies h !! name
                        = Some (Some (HTTP_interface k hp))
                        ∧ sent (backend (world s'))
                          = sent (backend (world s))
                              ++ [{| url := Endpoint (config hp);
                                     headers :=
                                       httpRequestHeaders k (pc_ctx pc0)
                                         (config hp);
                                     body := data |}]
                  | (_, Some _) => backend (world s') = backend (world s)
                  end) as Hgoal.
      { exists pc. split; [done|]. rewrite Hw.
        destruct (dispatch_cases (pc_ctx pc) {| Channel := pc_channel pc |}
                    (proxies h) order (world s))
          as [(nils & Heq)|(nils & name & p & Hl & Heq)].
        - assert (no_usable (proxies h)) as Hnone.
          { intros name [p|] Hv; [|done].
            destruct (handleCacheEmpty (pc_ctx pc)
                        {| Channel := pc_channel pc |} (proxies h) order
                        (world s)) as [o w] eqn:Hd.
            destruct (handleCacheEmpty_calls _ _ _ _ _ _ _ Ho Hd)
              as [Hcalls _].
            destruct Hcalls as [name' Hn']; [by exists name, p|].
            simplify_eq. simpl in Hn'.
            apply (f_equal length) in Hn'. rewrite length_app in Hn'.
            simpl in Hn'. lia. }
          rewrite Heq.
          destruct (EncodeNotifyCacheEmptyRequest k _) as [d [e0|]];
            [done|].
          intros (name & p & Hv). by pose proof (Hnone _ _ Hv).
        - rewrite Heq. destruct (Hreg _ _ Hl) as [hp ->].
          pose proof (http_proxy_sends k hp (pc_ctx pc)
                        {| Channel := pc_channel pc |} (backend (world s)))
            as Hs.
          simpl. unfold http_request in Hs.
          destruct (HTTP_ProxyCacheEmpty k hp _ _ _) as [o' b'].
          destruct (EncodeNotifyCacheEmptyRequest k _) as [d [e0|]].
          + by destruct Hs as [-> _].
          + intros _. by exists name, hp. }
      by destruct He as [-> | ->].
Qed.

End HTTPFurther.

(** * The gRPC binding under the coordinator *)

Section GRPCFurther.

Context {Backend Transform CallContext : Type}.

Implicit Types (g : DerivedContext → Config Transform → CallContext).
Implicit Types (gp : GRPCCacheEmptyProxy Backend Transform CallContext).
Implicit Types (link : Link Backend CallContext).

(** One call of the proxy makes one remote call, whatever the client
    answers: the remote call for the context and the request of the call. *)
Lemma grpc_proxy_calls g gp ctx req link :
  remote_calls (GRPC_ProxyCacheEmpty g gp ctx req link).2
  = remote_calls link ++ [grpc_call g gp ctx req].
Proof.
  unfold GRPC_ProxyCacheEmpty. by destruct (NotifyCacheEmpty _ _ _ _).
Qed.

Lemma link_inv_dispatch g proxies ctx req order
    (w : World (Link Backend CallContext)) o w' :
  grpc_registry g proxies → link_inv g proxies w →
  handleCacheEmpty ctx req proxies order w = (o, w') →
  link_inv g proxies w'.
Proof.
  intros Hreg HL Hd. unfold link_inv in *.
  destruct (dispatch_cases ctx req proxies order w)
    as [(nils & Hc)|(nils & name & p & Hl & Hc)]; rewrite Hc in Hd.
  - by simplify_eq.
  - destruct (Hreg _ _ Hl) as [gp ->].
    pose proof (grpc_proxy_calls g gp ctx req (backend w)) as Hs.
    simpl in Hd.
    destruct (GRPC_ProxyCacheEmpty g gp ctx req (backend w)) as [o' b'].
    simplify_eq. simpl in *. rewrite Hs.
    apply Forall2_app; [done|]. constructor; [|constructor].
    by exists gp.
Qed.

Lemma link_inv_step g (h : CacheEmptyHandler (Link Backend CallContext))
    s e s' :
  grpc_registry g (proxies h) → link_inv g (proxies h) (world s) →
  step_spec h s e s' → link_inv g (proxies h) (world s').
Proof.
  intros Hreg HL Hstep.
  destruct Hstep; simpl; try done; by eapply link_inv_dispatch.
Qed.

(** X14. With a registry whose usable entries are gRPC proxies. The dispatch
    of a call, when the registry has a usable entry, makes exactly one
    remote call: the call of a registered proxy for the channel of that call,
    under a context derived from the context of that call with the timeout of
    that proxy's configuration; and no other step of the handler makes a
    remote call or reaches the backend. So, in every execution, every remote
    call made is the remote call of a registered proxy for a call that
    dispatched, for its channel and under a context derived from its
    context, and the remote calls never outnumber the dispatches. *)
Theorem grpc_one_call_per_dispatch g
    (h : CacheEmptyHandler (Link Backend CallContext)) (b : Backend) evs s :
  grpc_registry g (proxies h) →
  run h (init {| peer := b; remote_calls := [] |}) evs = Some s →
  (∀ rc, rc ∈ remote_calls (backend (world s)) →
     ∃ name gp t pc,
       proxies h !! name = Some (Some (GRPC_interface g gp))
       ∧ threads s !! t = Some pc
       ∧ (t, {| Channel := pc_channel pc |}) ∈ dispatched s
       ∧ call_request rc = {| Channel := pc_channel pc |}
       ∧ call_context rc
         = g {| parent := pc_ctx pc; timeout := Timeout (grpc_config gp) |}
             (grpc_config gp))
  ∧ length (remote_calls (backend (world s))) ≤ length (dispatched s)
  ∧ ∀ e s',
      step h s e = Some s' →
      match e with
      | EvLeaderDispatch t _ | EvFallbackDispatch t _ =>
          ∃ pc,
            threads s !! t = Some pc
            ∧ (has_usable (proxies h) →
               ∃ name gp,
                 proxies h !! name = Some (Some (GRPC_interface g gp))
                 ∧ remote_calls (backend (world s'))
                   = remote_calls (backend (world s))
                       ++ [{| call_context :=
                                g {| parent := pc_ctx pc;
                                     timeout := Timeout (grpc_config gp) |}
                                  (grpc_config gp);
                              call_request :=
                                {| Channel := pc_channel pc |} |}])
            ∧ (no_usable (proxies h) →
               backend (world s') = backend (world s))
      | _ => backend (world s') = backend (world s)
      end.
Proof.
  intros Hreg Hrun.
  assert (link_inv g (proxies h) (world s)) as HL.
  { apply (run_invariant h (λ s, link_inv g (proxies h) (world s)))
      with (evs := evs) (s := init {| peer := b; remote_calls := [] |});
      [| |done].
    - intros. by eapply link_inv_step.
    - apply Forall2_nil_2. }
  unfold link_inv in HL. split; [|split].
  - intros rc [i Hi]%list_elem_of_lookup.
    destruct (Forall2_lookup_l _ _ _ _ _ HL Hi)
      as ([[name ctx] req] & Hc%list_elem_of_lookup_2 & gp & Hp & ->).
    destruct (calls_attributed _ _ _ _ Hrun _ _ _ Hc)
      as (t & pc & Ht & Hd & <- & ->).
    by exists name, gp, t, pc.
  - rewrite (Forall2_length _ _ _ HL). by eapply calls_bounded.
  - intros e s' Hstep%step_sound.
    destruct (step_world _ _ _ _ Hstep)
      as [(_ & Hb & _ & Hne)
         |(t & order & pc & pc' & He & Ht & _ & _ & _ & Ho & Hw & _)].
    + destruct e; try done; by destruct (Hne t order).
    + assert (∃ pc0,
                threads s !! t = Some pc0
                ∧ (has_usable (proxies h) →
                   ∃ name gp,
                     proxies h !! name = Some (Some (GRPC_interface g gp))
                     ∧ remote_calls (backend (world s'))
                       = remote_calls (backend (world s))
                           ++ [{| call_context :=
                                    g {| parent := pc_ctx pc0;
                                         timeout :=
                                           Timeout (grpc_config gp) |}
                                      (grpc_config gp);
                                  call_request :=
                                    {| Channel := pc_channel pc0 |} |}])
                ∧ (no_usable (proxies h) →
                   backend (world s') = backend (world s))) as Hgoal.
      { exists pc. split; [done|]. rewrite Hw.
        destruct (dispatch_cases (pc_ctx pc) {| Channel := pc_channel pc |}
                    (proxies h) order (world s))
          as [(nils & Heq)|(nils & name & p & Hl & Heq)]; rewrite Heq.
        - split; [|done]. intros Hu.
          destruct (handleCacheEmpty (pc_ctx pc)
                      {| Channel := pc_channel pc |} (proxies h) order
                      (world s)) as [o w] eqn:Hd.
          destruct (handleCacheEmpty_calls _ _ _ _ _ _ _ Ho Hd)
            as [Hcalls _].
          destruct (Hcalls Hu) as [name' Hn']. simplify_eq. simpl in Hn'.
          apply (f_equal length) in Hn'. rewrite length_app in Hn'.
          simpl in Hn'. lia.
        - split.
          + intros _. destruct (Hreg _ _ Hl) as [gp ->].
            exists name, gp. split; [done|].
            pose proof (grpc_proxy_calls g gp (pc_ctx pc)
                          {| Channel := pc_channel pc |}
                          (backend (world s))) as Hs.
            simpl. by destruct (GRPC_ProxyCacheEmpty g gp _ _ _).
          + intros Hn. by pose proof (Hn _ _ Hl). }
      by destruct He as [-> | ->].
Qed.

End GRPCFurther.

(** * The further properties on the test setup *)

Lemma five_calls_run :
  run test_handler (init 0)
    ((two_calls_straddle ++ two_calls_finish)
       ++ three_calls_arrive ++ three_calls_finish)
  = Some three_calls_end.
Proof. vm_compute. reflexivity. Defined.

Lemma test_handler_usable : has_usable (proxies test_handler).
Proof. exists "test", counting_proxy. reflexivity. Defined.

(** The five calls of the two rounds: three dispatches, by calls 0, 1 and 3,
    one each; the followers 2 and 4 made none. *)
Lemma each_call_dispatches_once_witness :
  let s := three_calls_end in
  run test_handler (init 0)
    ((two_calls_straddle ++ two_calls_finish)
       ++ three_calls_arrive ++ three_calls_finish) = Some s
  ∧ (dispatched s).*1 = [0; 1; 3]
  ∧ NoDup (dispatched s).*1
  ∧ (∀ t req, (t, req) ∈ dispatched s →
       ∃ pc, threads s !! t = Some pc
             ∧ req = {| Channel := pc_channel pc |}
             ∧ (is_Some (leader_of pc)
                ∨ ∃ ctx c l o, pc = Exited ExitFallback ctx c l o))
  ∧ (∀ t ctx c l o,
       threads s !! t = Some (Exited ExitShared ctx c l o)
       ∨ threads s !! t = Some (Exited ExitCanceled ctx c l o) →
       t ∉ (dispatched s).*1).
Proof.
  intros s. split; [exact five_calls_run|]. split; [reflexivity|].
  exact (each_call_dispatches_once test_handler 0 _ s five_calls_run).
Defined.

Lemma two_calls_next_step :
  step test_handler two_calls_mid (EvLeaderDispatch 1 ["test"])
  = Some two_calls_next.
Proof. vm_compute. reflexivity. Defined.

(** In the middle of the first round: the one transport call on record is
    the first leader's, and the dispatch of the second leader adds one, for
    its context and channel. *)
Lemma transport_calls_match_dispatches_witness :
  let s := two_calls_mid in
  let s' := two_calls_next in
  (run test_handler (init 0) two_calls_straddle = Some s
   ∧ step test_handler s (EvLeaderDispatch 1 ["test"]) = Some s'
   ∧ has_usable (proxies test_handler))
  ∧ (∀ name ctx req,
       (name, ctx, req) ∈ calls (world s) →
       (∃ p, proxies test_handler !! name = Some (Some p))
       ∧ ∃ t pc, threads s !! t = Some pc ∧ (t, req) ∈ dispatched s
                 ∧ pc_ctx pc = ctx ∧ req = {| Channel := pc_channel pc |})
  ∧ length (calls (world s)) ≤ length (dispatched s)
  ∧ ∃ pc,
      threads s !! 1 = Some pc
      ∧ ((calls (world s') = calls (world s)
          ∧ backend (world s') = backend (world s))
         ∨ ∃ name p,
             proxies test_handler !! name = Some (Some p)
             ∧ calls (world s')
               = calls (world s)
                   ++ [(name, pc_ctx pc, {| Channel := pc_channel pc |})]
             ∧ backend (world s')
               = (ProxyCacheEmpty p (pc_ctx pc)
                    {| Channel := pc_channel pc |} (backend (world s))).2)
      ∧ length (calls (world s')) = S (length (calls (world s))).
Proof.
  intros s s'.
  destruct (transport_calls_match_dispatches test_handler 0 _ s
              two_calls_mid_run) as (Hatt & Hlen & _ & Hstep).
  split; [by repeat split; try exact two_calls_mid_run;
             try exact two_calls_next_step;
             try exact test_handler_usable|].
  split; [exact Hatt|]. split; [exact Hlen|].
  destruct (Hstep _ _ two_calls_next_step) as (pc & Ht & Hcalls & Hone).
  exists pc. split; [exact Ht|]. split; [exact Hcalls|].
  exact (Hone test_handler_usable).
Defined.

(** Call 2 of the second round woke on the signal of lock 2 and returned the
    pair of call 3, the leader of that lock. *)
Lemma follower_gets_leader_pair_witness :
  let s := three_calls_end in
  let c := "test:channel" in
  let ret := Returns (Some (populated true)) None in
  (run test_handler (init 0)
     ((two_calls_straddle ++ two_calls_finish)
        ++ three_calls_arrive ++ three_calls_finish) = Some s
   ∧ threads s !! 2 = Some (Exited ExitShared 0 c 2 ret))
  ∧ ∃ t0 ctx0 ret0,
      threads s !! t0 = Some (Exited ExitLeader ctx0 c 2 ret0)
      ∧ ret = match ret0 with
              | Returns r e => Returns r e
              | Panics => Returns None None
              end.
Proof.
  intros s c ret.
  assert (threads s !! 2 = Some (Exited ExitShared 0 c 2 ret)) as Ht
    by reflexivity.
  split; [split; [exact five_calls_run|exact Ht]|].
  exact (follower_gets_leader_pair test_handler 0 _ s 2 0 c 2 ret
           five_calls_run Ht).
Defined.

(** The lock of the first leader, signalled at the end of the first round,
    is as it was after the whole of the second round. *)
Lemma signal_one_shot_witness :
  let lk := {| result := Some (populated true); err := None; done := true |} in
  (run test_handler (init 0) (two_calls_straddle ++ two_calls_finish)
   = Some two_calls_end
   ∧ run test_handler two_calls_end (three_calls_arrive ++ three_calls_finish)
     = Some three_calls_end
   ∧ heap two_calls_end !! 0 = Some lk
   ∧ done lk = true)
  ∧ heap three_calls_end !! 0 = Some lk.
Proof.
  intros lk.
  assert (heap two_calls_end !! 0 = Some lk) as Hlk by reflexivity.
  split; [by repeat split; try exact two_calls_run;
             try exact three_calls_run|].
  exact (signal_one_shot test_handler 0 _ two_calls_end _ three_calls_end 0 lk
           two_calls_run three_calls_run Hlk eq_refl).
Defined.

(** The follower that waits behind a leader that hangs goes on when its
    timer fires, five seconds after it started it at the latest. *)
Lemma no_call_stuck_witness :
  let s := cancelled_waiting in
  let pc := AtSelect 1 "test:channel" 0 5000000000%Z in
  (run test_handler (init 0) follower_is_cancelled = Some s
   ∧ threads s !! 1 = Some pc
   ∧ exited pc = false
   ∧ at_dispatch pc = false)
  ∧ ∃ d e, (0 ≤ d ≤ 5000000000)%Z ∧ actor e = Some 1
           ∧ is_Some (run test_handler s [EvTick d; e]).
Proof.
  intros s pc.
  assert (threads s !! 1 = Some pc) as Ht by reflexivity.
  split; [by repeat split; try exact cancelled_waiting_run|].
  destruct (no_call_stuck test_handler 0 follower_is_cancelled s 1 pc
              cancelled_waiting_run Ht eq_refl eq_refl)
    as (d & e & Hd & _ & Ha & Hrun).
  exists d, e. split; [exact Hd|]. split; [exact Ha|exact Hrun].
Defined.

(** The dispatch of the second leader: from three steps to go to two, and
    the first leader is where it was. *)
Lemma call_steps_decrease_witness :
  let e := EvLeaderDispatch 1 ["test"] in
  (step test_handler two_calls_mid e = Some two_calls_next
   ∧ actor e = Some 1)
  ∧ (∀ t', t' ≠ 1 → threads two_calls_next !! t' = threads two_calls_mid !! t')
  ∧ ∃ pc', threads two_calls_next !! 1 = Some pc'
           ∧ steps_left pc' < steps_left (AtDispatch 0 "test:channel" 1).
Proof.
  intros e. split; [split; [exact two_calls_next_step|reflexivity]|].
  exact (call_steps_decrease test_handler two_calls_mid e two_calls_next 1
           two_calls_next_step eq_refl).
Defined.

Lemma two_channels_run :
  run test_handler (init 0) two_channels = Some two_channels_mid.
Proof. vm_compute. reflexivity. Defined.

Lemma two_channels_next_step :
  step test_handler two_channels_mid (EvLeaderDispatch 0 ["test"])
  = Some two_channels_next.
Proof. vm_compute. reflexivity. Defined.

(** Two leaders for two channels: the dispatch of the one for "channel1"
    leaves the entry, the call and the lock of "channel2" alone. *)
Lemma channels_isolated_witness :
  let s := two_channels_mid in
  let s' := two_channels_next in
  let e := EvLeaderDispatch 0 ["test"] in
  let pc := AtDispatch 0 "channel1" 0 in
  let pc' := AtDispatch 0 "channel2" 1 in
  (run test_handler (init 0) two_channels = Some s
   ∧ step test_handler s e = Some s'
   ∧ actor e = Some 0
   ∧ threads s !! 0 = Some pc
   ∧ "channel2" ≠ pc_channel pc
   ∧ threads s !! 1 = Some pc')
  ∧ channelLocks s' !! "channel2" = channelLocks s !! "channel2"
  ∧ threads s' !! 1 = Some pc'
  ∧ heap s' !! 1 = heap s !! 1.
Proof.
  intros s s' e pc pc'.
  assert (threads s !! 0 = Some pc) as Ht by reflexivity.
  assert ("channel2" ≠ pc_channel pc) as Hne by discriminate.
  assert (threads s !! 1 = Some pc') as Ht' by reflexivity.
  split; [by repeat split; try exact two_channels_run;
             try exact two_channels_next_step|].
  destruct (channels_isolated test_handler 0 two_channels s e s' 0 pc
              two_channels_run two_channels_next_step eq_refl Ht
              "channel2" Hne) as [Hm Hcalls].
  destruct (Hcalls 1 pc' Ht' eq_refl) as [Hpc Hlock].
  split; [exact Hm|]. split; [exact Hpc|]. exact (Hlock 1 eq_refl).
Defined.

(** After the first round is over, the next call for the channel leads
    again, on the new lock 2. *)
Lemma idle_next_call_leads_witness :
  let s := two_calls_end in
  let c := "test:channel" in
  (run test_handler (init 0) (two_calls_straddle ++ two_calls_finish) = Some s
   ∧ idle c s
   ∧ threads s !! 7 = None)
  ∧ channelLocks s !! c = None
  ∧ ∃ s' l,
      run test_handler s [EvHandle 7 0 c; EvGetOrCreateLock 7] = Some s'
      ∧ threads s' !! 7 = Some (AtDispatch 0 c l)
      ∧ heap s !! l = None
      ∧ heap s' !! l = Some empty_lock
      ∧ channelLocks s' !! c = Some l.
Proof.
  intros s c.
  assert (idle c s) as Hidle by (unfold idle; for_all_calls).
  assert (threads s !! 7 = None) as Ht by reflexivity.
  split; [by repeat split; try exact two_calls_run|].
  exact (idle_next_call_leads test_handler 0 _ s c 7 0 two_calls_run Hidle Ht).
Defined.

(** With a lock-wait timeout of minus one millisecond, the follower that has
    just joined falls back at once. *)
Lemma negative_lock_timeout_witness :
  let s := hasty_joined in
  let c := "test:channel" in
  (LockTimeout hasty_config ≠ 0%Z
   ∧ (LockTimeout hasty_config < 0)%Z
   ∧ threads s !! 1 = Some (AtNewTimer 0 c 0))
  ∧ lockTimeout hasty_handler = (-1000000)%Z
  ∧ ∃ s2, run hasty_handler s [EvNewTimer 1; EvSelectTimer 1] = Some s2
          ∧ threads s2 !! 1 = Some (AtFallback 0 c 0)
          ∧ now s2 = now s.
Proof.
  intros s c.
  assert (LockTimeout hasty_config ≠ 0%Z) as Hnz by discriminate.
  assert (LockTimeout hasty_config < 0)%Z as Hneg by reflexivity.
  assert (threads s !! 1 = Some (AtNewTimer 0 c 0)) as Ht by reflexivity.
  split; [by repeat split|].
  destruct (negative_lock_timeout hasty_config Hnz) as [Hkept Hfall].
  split; [exact Hkept|]. exact (Hfall Hneg s 1 0 c 0 Ht).
Defined.

(** A call made with a context that is cancelled already: it leads and
    calls the proxy "test". *)
Lemma done_context_still_dispatches_witness :
  let s := cancelled_at_entry in
  let c := "test:channel" in
  (threads s !! 0 = Some (AtEntry 5 c)
   ∧ channelLocks s !! c = None
   ∧ ctxErr s !! 5 = Some ContextCanceled
   ∧ range_order (proxies test_handler) ["test"]
   ∧ has_usable (proxies test_handler))
  ∧ ∃ s' l name,
      run test_handler s [EvGetOrCreateLock 0; EvLeaderDispatch 0 ["test"]]
      = Some s'
      ∧ threads s' !! 0
        = Some (AtDelete 5 c l
                  (handleCacheEmpty 5 {| Channel := c |}
                     (proxies test_handler) ["test"] (world s)).1)
      ∧ calls (world s')
        = calls (world s) ++ [(name, 5, {| Channel := c |})]
      ∧ dispatched s' = dispatched s ++ [(0, {| Channel := c |})].
Proof.
  intros s c.
  assert (threads s !! 0 = Some (AtEntry 5 c)) as Ht by reflexivity.
  assert (channelLocks s !! c = None) as Hm by reflexivity.
  assert (ctxErr s !! 5 = Some ContextCanceled) as Hctx by reflexivity.
  assert (range_order (proxies test_handler) ["test"]) as Ho by by_evaluation.
  split; [by repeat split; try exact test_handler_usable|].
  exact (done_context_still_dispatches test_handler s 0 5 c ContextCanceled
           ["test"] Ht Hm Hctx Ho test_handler_usable).
Defined.

Lemma counting_proxy_no_timeout_error :
  never_answers (proxies test_handler) ErrLockTimeout.
Proof.
  intros name p ctx req b r H.
  assert (proxies test_handler = {[ "test" := Some counting_proxy ]}) as E
    by reflexivity.
  rewrite E in H. apply lookup_singleton_Some in H as [_ [= <-]].
  discriminate.
Defined.

(** The error [ErrLockTimeout], which the package declares, is not an answer
    of the test proxy and is not a context error: no call returns it, call 2
    of the second round for one. *)
Lemma no_invented_errors_witness :
  let s := three_calls_end in
  let pc := Exited ExitShared 0 "test:channel" 2
              (Returns (Some (populated true)) None) in
  (never_answers (proxies test_handler) ErrLockTimeout
   ∧ is_ctx_error ErrLockTimeout = false
   ∧ run test_handler (init 0)
       ((two_calls_straddle ++ two_calls_finish)
          ++ three_calls_arrive ++ three_calls_finish) = Some s
   ∧ threads s !! 2 = Some pc)
  ∧ returned pc ≠ Some (None, Some ErrLockTimeout).
Proof.
  intros s pc.
  assert (threads s !! 2 = Some pc) as Ht by reflexivity.
  split; [by repeat split; try exact counting_proxy_no_timeout_error;
             try exact five_calls_run|].
  exact (no_invented_errors test_handler 0 _ s ErrLockTimeout 2 pc None
           counting_proxy_no_timeout_error eq_refl five_calls_run Ht).
Defined.

(** ** The two bindings on the test setup *)

Lemma http_handler_registry :
  http_registry test_helpers (proxies http_handler).
Proof.
  intros name p H.
  assert (proxies http_handler
          = {[ "test" := Some (HTTP_interface test_helpers test_http_proxy) ]})
    as E by reflexivity.
  rewrite E in H. apply lookup_singleton_Some in H as [_ [= <-]].
  by exists test_http_proxy.
Defined.

Lemma http_handler_usable : has_usable (proxies http_handler).
Proof.
  exists "test", (HTTP_interface test_helpers test_http_proxy). reflexivity.
Defined.

Lemma http_run :
  run http_handler (init {| remote := 0; sent := [] |}) bound_calls
  = Some http_mid.
Proof. vm_compute. reflexivity. Defined.

Lemma http_step :
  step http_handler http_mid (EvLeaderDispatch 1 ["test"]) = Some http_end.
Proof. vm_compute. reflexivity. Defined.

(** Two leaders for two channels over HTTP. The request on record is the one
    of call 0; the dispatch of call 1, with context 4 for channel "chat",
    sends one request to the endpoint of the proxy "test", with the headers
    for context 4 and the encoding of "chat" as body. *)
Lemma http_requests_bounded_witness :
  let h := http_handler in
  let s := http_mid in
  let s' := http_end in
  (http_registry test_helpers (proxies h)
   ∧ run h (init {| remote := 0; sent := [] |}) bound_calls = Some s
   ∧ step h s (EvLeaderDispatch 1 ["test"]) = Some s'
   ∧ threads s !! 1 = Some (AtDispatch 4 "chat" 1)
   ∧ has_usable (proxies h))
  ∧ (∀ r, r ∈ sent (backend (world s)) →
          ∃ name hp t pc,
            proxies h !! name = Some (Some (HTTP_interface test_helpers hp))
            ∧ threads s !! t = Some pc
            ∧ (t, {| Channel := pc_channel pc |}) ∈ dispatched s
            ∧ url r = Endpoint (config hp)
            ∧ headers r
              = httpRequestHeaders test_helpers (pc_ctx pc) (config hp)
            ∧ EncodeNotifyCacheEmptyRequest test_helpers
                {| Channel := pc_channel pc |}
              = (body r, None))
  ∧ length (sent (backend (world s))) ≤ length (dispatched s)
  ∧ ∃ name hp,
      proxies h !! name = Some (Some (HTTP_interface test_helpers hp))
      ∧ sent (backend (world s'))
        = sent (backend (world s))
            ++ [{| url := Endpoint (config hp);
                   headers := (4, [("Content-Type", "application/json")]);
                   body := String.list_byte_of_string "chat" |}].
Proof.
  intros h s s'.
  assert (threads s !! 1 = Some (AtDispatch 4 "chat" 1)) as Ht
    by reflexivity.
  split; [by repeat split; try exact http_handler_registry;
             try exact http_run; try exact http_step;
             try exact http_handler_usable|].
  destruct (http_requests_bounded test_helpers h 0 _ s http_handler_registry
              http_run) as (Hreq & Hle & Hstep).
  split; [exact Hreq|]. split; [exact Hle|].
  destruct (Hstep _ _ http_step) as (pc & Ht' & Hsend).
  pose proof (eq_trans (eq_sym Ht') Ht) as E. injection E as ->.
  exact (Hsend http_handler_usable).
Defined.

Lemma grpc_handler_registry :
  grpc_registry test_request_context (proxies grpc_handler).
Proof.
  intros name p H.
  assert (proxies grpc_handler
          = {[ "test" :=
                 Some (GRPC_interface test_request_context test_grpc_proxy) ]})
    as E by reflexivity.
  rewrite E in H. apply lookup_singleton_Some in H as [_ [= <-]].
  by exists test_grpc_proxy.
Defined.

Lemma grpc_handler_usable : has_usable (proxies grpc_handler).
Proof.
  exists "test", (GRPC_interface test_request_context test_grpc_proxy).
  reflexivity.
Defined.

Lemma grpc_run :
  run grpc_handler (init {| peer := 0; remote_calls := [] |}) bound_calls
  = Some grpc_mid.
Proof. vm_compute. reflexivity. Defined.

Lemma grpc_step :
  step grpc_handler grpc_mid (EvLeaderDispatch 1 ["test"]) = Some grpc_end.
Proof. vm_compute. reflexivity. Defined.

(** Two leaders for two channels over gRPC. The remote call on record is
    the one of call 0; the dispatch of call 1, with context 4 for channel
    "chat", makes one remote call for "chat", under a context derived from
    context 4 with the timeout of the configuration. *)
Lemma grpc_one_call_per_dispatch_witness :
  let h := grpc_handler in
  let s := grpc_mid in
  let s' := grpc_end in
  (grpc_registry test_request_context (proxies h)
   ∧ run h (init {| peer := 0; remote_calls := [] |}) bound_calls = Some s
   ∧ step h s (EvLeaderDispatch 1 ["test"]) = Some s'
   ∧ threads s !! 1 = Some (AtDispatch 4 "chat" 1)
   ∧ has_usable (proxies h))
  ∧ (∀ rc, rc ∈ remote_calls (backend (world s)) →
       ∃ name gp t pc,
         proxies h !! name
         = Some (Some (GRPC_interface test_request_context gp))
         ∧ threads s !! t = Some pc
         ∧ (t, {| Channel := pc_channel pc |}) ∈ dispatched s
         ∧ call_request rc = {| Channel := pc_channel pc |}
         ∧ call_context rc
           = test_request_context
               {| parent := pc_ctx pc; timeout := Timeout (grpc_config gp) |}
               (grpc_config gp))
  ∧ length (remote_calls (backend (world s))) ≤ length (dispatched s)
  ∧ ∃ name gp,
      proxies h !! name
      = Some (Some (GRPC_interface test_request_context gp))
      ∧ remote_calls (backend (world s'))
        = remote_calls (backend (world s))
            ++ [{| call_context := (4, Timeout (grpc_config gp));
                   call_request := {| Channel := "chat" |} |}].
Proof.
  intros h s s'.
  assert (threads s !! 1 = Some (AtDispatch 4 "chat" 1)) as Ht
    by reflexivity.
  split; [by repeat split; try exact grpc_handler_registry;
             try exact grpc_run; try exact grpc_step;
             try exact grpc_handler_usable|].
  destruct (grpc_one_call_per_dispatch test_request_context h 0 _ s
              grpc_handler_registry grpc_run) as (Hreq & Hle & Hstep).
  split; [exact Hreq|]. split; [exact Hle|].
  destruct (Hstep _ _ grpc_step) as (pc & Ht' & Hcall & _).
  pose proof (eq_trans (eq_sym Ht') Ht) as E. injection E as ->.
  exact (Hcall grpc_handler_usable).
Defined.
